(** * GapWriter: timeline gap filling and fragment stitching

    A shallow embedding of the [GapWriter] class of hydrogen-web and of the
    collaborators it calls, followed by the properties of the written
    timeline.

    Conventions of the embedding.
    - A JavaScript value that may be [null] or [undefined] is an [option].
    - An asynchronous method running inside the caller's read-write
      transaction is a function [Txn -> Result (A * Txn)]: a thrown error
      (or a failed storage request, which aborts the transaction) is [Err],
      and carries no transaction, since nothing of an aborted transaction
      reaches the disk.
    - The stores hold the rows of the one room the writer was built for.
    - [fragmentIdComparer] and [log] never influence a result or a stored
      row and are left out. *)

From Stdlib Require Import List ZArith String Bool Lia.
Import ListNotations.
Local Open Scope Z_scope.
Local Open Scope string_scope.
Local Open Scope list_scope.

Set Implicit Arguments.

(** ** Errors and the transaction monad *)

Inductive Error : Type :=
| InvalidChunk            (* "Invalid chunk in response" *)
| InvalidEndToken         (* "Invalid end token in response" *)
| InvalidContextChunks    (* "Invalid chunks in response" *)
| MissingContextTokens    (* "Context call did not receive start and end tokens" *)
| UnknownFragment         (* "Unknown fragment: ..." *)
| StaleToken              (* "start is not equal to prev_batch or next_batch" *)
| LinkConflict            (* "Prevented changing fragment ... link ..." *)
| DuplicateNotInChunk     (* "findFirstOccurringEventId returned ... which wasn't in ..." *)
| TypeError               (* property access on undefined *)
| StorageError            (* a rejected IndexedDB request *)
| LoopBound.              (* the bound of a modelled while loop was hit; never happens *)

Inductive Result (A : Type) : Type :=
| Ok (a : A)
| Err (e : Error).
Arguments Err {A} e.

Definition isOk {A} (r : Result A) : bool :=
  match r with Ok _ => true | Err _ => false end.

Definition bindR {A B} (r : Result A) (k : A -> Result B) : Result B :=
  match r with
  | Ok a => k a
  | Err e => Err e
  end.

Notation "'let*' x ':=' c 'in' k" := (bindR c (fun x => k))
  (at level 10, x pattern, c at level 100, k at level 200).

(** JavaScript truthiness of a possibly missing string. *)
Definition truthy (s : option string) : bool :=
  match s with
  | Some EmptyString => false
  | Some _ => true
  | None => false
  end.

(** ** Data model

    The classes below are imported by the writer. *)

(** Modelled from the spec: [Direction] is missing; two values with
    [isForward], [isBackward], [reverse] and [asApiString]. *)
Module Direction.
Inductive t : Type := Forward | Backward.

Definition isForward (d : t) : bool :=
  match d with Forward => true | Backward => false end.
Definition isBackward (d : t) : bool :=
  match d with Forward => false | Backward => true end.
Definition reverse (d : t) : t :=
  match d with Forward => Backward | Backward => Forward end.
Definition asApiString (d : t) : string :=
  match d with Forward => "f" | Backward => "b" end.
End Direction.

(** Modelled from the spec: a server event is a bag of fields, of which the
    writer reads [event_id], [sender], [type] and [state_key]; a member
    event carries the member in [content] and the member it replaces in
    [prev_content]. *)
Record MemberContent : Type := {
  membership : option string;
  displayname : option string;
  avatar_url : option string
}.

Record Event : Type := {
  event_id : string;
  sender : string;
  type : string;
  state_key : option string;
  content : MemberContent;
  prev_content : option MemberContent
}.

Definition MEMBER_EVENT_TYPE : string := "m.room.member".

(** Modelled from the spec: [RoomMember] is missing; the writer reads its
    [displayName] and [avatarUrl]. *)
Module RoomMember.
Record t : Type := mk {
  roomId : string;
  userId : string;
  membership : option string;
  displayName : option string;
  avatarUrl : option string
}.
End RoomMember.

(** Modelled from the spec: [KeyLimits.middleStorageKey] is missing; the spec
    only calls the default key of a fragment its neutral midpoint. No property
    below depends on the number. *)
Definition middleStorageKey : Z := 2147483647.

(** Modelled from the spec: [EventKey] is missing; a fragment id and an
    event index. *)
Module EventKey.
Record t : Type := mk {
  fragmentId : Z;
  eventIndex : Z
}.

(** Modelled from the spec: [EventKey.defaultFragmentKey] is missing. *)
Definition defaultFragmentKey (fragmentId : Z) : t :=
  mk fragmentId middleStorageKey.

(** Modelled from the spec: [EventKey.nextKeyForDirection] is missing;
    it moves [eventIndex] by +1 for Forward and by -1 for Backward. *)
Definition nextKeyForDirection (k : t) (d : Direction.t) : t :=
  if Direction.isForward d
  then mk (fragmentId k) (eventIndex k + 1)
  else mk (fragmentId k) (eventIndex k - 1).
End EventKey.

(** Modelled from the spec: a stored event is the event with its key, the
    display name and avatar of its sender, and relation bookkeeping. *)
Module EventStorageEntry.
Record t : Type := mk {
  fragmentId : Z;
  eventIndex : Z;
  roomId : string;
  event : Event;
  displayName : option string;
  avatarUrl : option string;
  annotations : list string   (* relation bookkeeping, owned by the relation writer *)
}.

Definition withMember (e : t) (m : RoomMember.t) : t :=
  mk (fragmentId e) (eventIndex e) (roomId e) (event e)
     (RoomMember.displayName m) (RoomMember.avatarUrl m) (annotations e).

Definition id (e : t) : string := event_id (event e).
End EventStorageEntry.

(** Modelled from the spec: [createEventEntry] of [common.js] is missing. *)
Definition createEventEntry (key : EventKey.t) (roomId : string) (event : Event)
  : EventStorageEntry.t :=
  EventStorageEntry.mk (EventKey.fragmentId key) (EventKey.eventIndex key)
                       roomId event None None [].

(** Modelled from the spec: a fragment row, with the fields of the spec's
    data model; [edgeReached] is absent (false) until it is set. *)
Module Fragment.
Record t : Type := mk {
  roomId : string;
  id : Z;
  previousId : option Z;
  nextId : option Z;
  previousToken : option string;
  nextToken : option string;
  edgeReached : bool
}.
End Fragment.

(** Modelled from the spec: [FragmentBoundaryEntry] is missing. It is one end
    of a fragment: the fragment and a bit telling whether it is the start
    (previous side, filled backwards) or the end (next side, filled
    forwards). [token] and [linkedFragmentId] select the fields of that side;
    [edgeReached] is the fragment's flag. *)
Module FragmentBoundaryEntry.
Record t : Type := mk {
  fragment : Fragment.t;
  isFragmentStart : bool
}.

Definition start (f : Fragment.t) : t := mk f true.
Definition end_ (f : Fragment.t) : t := mk f false.

Definition started (e : t) : bool := isFragmentStart e.
Definition fragmentId (e : t) : Z := Fragment.id (fragment e).

Definition direction (e : t) : Direction.t :=
  if started e then Direction.Backward else Direction.Forward.

Definition token (e : t) : option string :=
  if started e then Fragment.previousToken (fragment e)
  else Fragment.nextToken (fragment e).

Definition set_token (e : t) (tok : option string) : t :=
  let f := fragment e in
  if started e
  then mk (Fragment.mk (Fragment.roomId f) (Fragment.id f) (Fragment.previousId f)
                       (Fragment.nextId f) tok (Fragment.nextToken f)
                       (Fragment.edgeReached f)) (isFragmentStart e)
  else mk (Fragment.mk (Fragment.roomId f) (Fragment.id f) (Fragment.previousId f)
                       (Fragment.nextId f) (Fragment.previousToken f) tok
                       (Fragment.edgeReached f)) (isFragmentStart e).

Definition linkedFragmentId (e : t) : option Z :=
  if started e then Fragment.previousId (fragment e)
  else Fragment.nextId (fragment e).

Definition set_linkedFragmentId (e : t) (l : option Z) : t :=
  let f := fragment e in
  if started e
  then mk (Fragment.mk (Fragment.roomId f) (Fragment.id f) l
                       (Fragment.nextId f) (Fragment.previousToken f)
                       (Fragment.nextToken f) (Fragment.edgeReached f))
          (isFragmentStart e)
  else mk (Fragment.mk (Fragment.roomId f) (Fragment.id f) (Fragment.previousId f)
                       l (Fragment.previousToken f)
                       (Fragment.nextToken f) (Fragment.edgeReached f))
          (isFragmentStart e).

Definition hasLinkedFragment (e : t) : bool :=
  match linkedFragmentId e with Some _ => true | None => false end.

Definition set_edgeReached (e : t) (b : bool) : t :=
  let f := fragment e in
  mk (Fragment.mk (Fragment.roomId f) (Fragment.id f) (Fragment.previousId f)
                  (Fragment.nextId f) (Fragment.previousToken f)
                  (Fragment.nextToken f) b) (isFragmentStart e).

Definition withUpdatedFragment (e : t) (f : Fragment.t) : t :=
  mk f (isFragmentStart e).
End FragmentBoundaryEntry.

(** What the writer hands back in [entries]: event entries and fragment
    boundaries, told apart by their variant. *)
Inductive Entry : Type :=
| EventEntry (e : EventStorageEntry.t)
| BoundaryEntry (b : FragmentBoundaryEntry.t).

(** Modelled from the spec: [directionalAppend] of [common.js] is missing;
    push for Forward, unshift for Backward. *)
Definition directionalAppend {A} (array : list A) (value : A) (direction : Direction.t)
  : list A :=
  if Direction.isForward direction then array ++ [value] else value :: array.

(** ** The transaction and its stores *)

Record Txn : Type := mkTxn {
  timelineEvents : list EventStorageEntry.t;
  timelineFragments : list Fragment.t;
  timelineRelations : list (string * string)
}.

Definition withEvents (txn : Txn) (evs : list EventStorageEntry.t) : Txn :=
  mkTxn evs (timelineFragments txn) (timelineRelations txn).
Definition withFragments (txn : Txn) (fs : list Fragment.t) : Txn :=
  mkTxn (timelineEvents txn) fs (timelineRelations txn).

(** Modelled from the spec: the timeline event store is missing. Rows are
    unique by key and by event id: [insert] is IndexedDB's [add], whose
    request fails, aborting the transaction, when either is taken. *)
Module TimelineEventStore.
Definition hasEventId (rows : list EventStorageEntry.t) (eventId : string) : bool :=
  existsb (fun r => EventStorageEntry.id r =? eventId) rows.

Definition hasKey (rows : list EventStorageEntry.t) (fragmentId eventIndex : Z) : bool :=
  existsb (fun r => (EventStorageEntry.fragmentId r =? fragmentId)%Z
                    && (EventStorageEntry.eventIndex r =? eventIndex)%Z) rows.

Definition getByEventId (txn : Txn) (eventId : string) : option EventStorageEntry.t :=
  find (fun r => EventStorageEntry.id r =? eventId) (timelineEvents txn).

(** The first of [eventIds], in their order, that is stored. *)
Definition findFirstOccurringEventId (txn : Txn) (eventIds : list string)
  : option string :=
  find (hasEventId (timelineEvents txn)) eventIds.

Definition inFragment (fragmentId : Z) (r : EventStorageEntry.t) : bool :=
  (EventStorageEntry.fragmentId r =? fragmentId)%Z.

Definition pickBy (better : Z -> Z -> bool) (rows : list EventStorageEntry.t)
  : option EventStorageEntry.t :=
  fold_left (fun best r =>
    match best with
    | None => Some r
    | Some b => if better (EventStorageEntry.eventIndex r) (EventStorageEntry.eventIndex b)
                then Some r else Some b
    end) rows None.

(** [firstEvents(roomId, fragmentId, 1)]: the row of the fragment with the
    least event index, if the fragment has rows. *)
Definition firstEvent (txn : Txn) (fragmentId : Z) : option EventStorageEntry.t :=
  pickBy Z.ltb (filter (inFragment fragmentId) (timelineEvents txn)).

(** [lastEvents(roomId, fragmentId, 1)]: the one with the greatest. *)
Definition lastEvent (txn : Txn) (fragmentId : Z) : option EventStorageEntry.t :=
  pickBy Z.gtb (filter (inFragment fragmentId) (timelineEvents txn)).

Definition insert (entry : EventStorageEntry.t) (txn : Txn) : Result Txn :=
  if hasEventId (timelineEvents txn) (EventStorageEntry.id entry)
     || hasKey (timelineEvents txn) (EventStorageEntry.fragmentId entry)
               (EventStorageEntry.eventIndex entry)
  then Err StorageError
  else Ok (withEvents txn (timelineEvents txn ++ [entry])).
End TimelineEventStore.

(** Modelled from the spec: the fragment store is missing. Rows are keyed by
    the fragment's [id]; [update] is IndexedDB's [put], [add] fails on a
    taken key. *)
Module TimelineFragmentStore.
Definition hasId (fragmentId : Z) (f : Fragment.t) : bool :=
  (Fragment.id f =? fragmentId)%Z.

Definition get (txn : Txn) (fragmentId : Z) : option Fragment.t :=
  find (hasId fragmentId) (timelineFragments txn).

Fixpoint put (f : Fragment.t) (rows : list Fragment.t) : list Fragment.t :=
  match rows with
  | [] => [f]
  | g :: rows' => if hasId (Fragment.id f) g then f :: rows' else g :: put f rows'
  end.

Definition update (f : Fragment.t) (txn : Txn) : Txn :=
  withFragments txn (put f (timelineFragments txn)).

Definition add (f : Fragment.t) (txn : Txn) : Result Txn :=
  match get txn (Fragment.id f) with
  | Some _ => Err StorageError
  | None => Ok (withFragments txn (timelineFragments txn ++ [f]))
  end.

(** The greatest stored id; nothing for a room without fragments. *)
Definition getMaxFragmentId (txn : Txn) : option Z :=
  fold_left (fun best f =>
    match best with
    | None => Some (Fragment.id f)
    | Some b => Some (Z.max b (Fragment.id f))
    end) (timelineFragments txn) None.
End TimelineFragmentStore.

(** The relation writer is an external collaborator: it may change the entry
    about to be stored when that entry is a relation target, may rewrite
    stored relation targets, and reports the targets it changed. *)
Record RelationWriter : Type := {
  writeGapRelation :
    EventStorageEntry.t -> Direction.t -> Txn ->
    (EventStorageEntry.t * option (list Entry)) * Txn
}.

(** The identity of a stored row: its key and its event id. *)
Definition rowIdentity (r : EventStorageEntry.t) : (Z * Z) * string :=
  ((EventStorageEntry.fragmentId r, EventStorageEntry.eventIndex r),
   EventStorageEntry.id r).

(** What the engine relies on from the relation writer: it owns the relation
    fields only. It neither adds, removes, moves nor renames event rows, and
    leaves fragments alone. *)
Record RelationWriterFrame (rw : RelationWriter) : Prop := {
  rw_entry : forall e d txn,
    rowIdentity (fst (fst (writeGapRelation rw e d txn))) = rowIdentity e;
  rw_events : forall e d txn,
    map rowIdentity (timelineEvents (snd (writeGapRelation rw e d txn)))
    = map rowIdentity (timelineEvents txn);
  rw_fragments : forall e d txn,
    timelineFragments (snd (writeGapRelation rw e d txn)) = timelineFragments txn
}.

(** ** GapWriter *)

Section GapWriter.
(** The fields of [this], and the static functions of [RoomMember], which
    is imported and not part of the writer: [fromMemberEvent] reads the
    member from the event's [content], [fromReplacingMemberEvent] from its
    [prev_content]; either may yield nothing. *)
Variable _roomId : string.
Variable _relationWriter : RelationWriter.
Variable fromMemberEvent : string -> Event -> option RoomMember.t.
Variable fromReplacingMemberEvent : string -> Event -> option RoomMember.t.

Definition _findFragmentEdgeEvent (fragmentId : Z) (direction : Direction.t) (txn : Txn)
  : option EventStorageEntry.t :=
  if Direction.isBackward direction
  then TimelineEventStore.firstEvent txn fragmentId
  else TimelineEventStore.lastEvent txn fragmentId.

Definition _findExpectedOverlappingEventId (linkedFragmentId : Z)
           (direction : Direction.t) (txn : Txn) : option string :=
  match _findFragmentEdgeEvent linkedFragmentId (Direction.reverse direction) txn with
  | Some eventEntry => Some (event_id (EventStorageEntry.event eventEntry))
  | None => None
  end.

Definition _findFragmentEdgeEventKey (fragmentEntry : FragmentBoundaryEntry.t) (txn : Txn)
  : EventKey.t :=
  let fragmentId := FragmentBoundaryEntry.fragmentId fragmentEntry in
  let direction := FragmentBoundaryEntry.direction fragmentEntry in
  match _findFragmentEdgeEvent fragmentId direction txn with
  | Some event => EventKey.mk (EventStorageEntry.fragmentId event)
                              (EventStorageEntry.eventIndex event)
  | None => EventKey.defaultFragmentKey fragmentId
  end.

(** [Array.prototype.findIndex]; [None] stands for -1. *)
Fixpoint findIndex {A} (p : A -> bool) (l : list A) : option nat :=
  match l with
  | [] => None
  | x :: l' => if p x then Some O
               else match findIndex p l' with
                    | Some i => Some (S i)
                    | None => None
                    end
  end.

(** The neighbour looked up for a duplicate: the stored event, then its
    fragment. A missing fragment makes the entry's [fragmentId] getter
    throw after the loop, which only reads in between, so the error is
    raised here. *)
Definition lookupNeighbour (direction : Direction.t) (duplicateEventId : string)
           (txn : Txn) : Result FragmentBoundaryEntry.t :=
  match TimelineEventStore.getByEventId txn duplicateEventId with
  | None => Err TypeError
  | Some neighbourEvent =>
      match TimelineFragmentStore.get txn (EventStorageEntry.fragmentId neighbourEvent) with
      | None => Err TypeError
      | Some neighbourFragment =>
          Ok (FragmentBoundaryEntry.mk neighbourFragment (Direction.isForward direction))
      end
  end.

Definition sameId (a : option string) (b : string) : bool :=
  match a with Some a' => a' =? b | None => false end.

(** The while loop of [_findOverlappingEventsFor]; [fuel] bounds its
    iterations. *)
Fixpoint overlapLoop (fuel : nat) (expectedOverlappingEventId : option string)
         (direction : Direction.t) (txn : Txn)
         (remainingEvents nonOverlappingEvents : list Event)
         (neighbourFragmentEntry : option FragmentBoundaryEntry.t)
  : Result (list Event * option FragmentBoundaryEntry.t) :=
  match remainingEvents with
  | [] => Ok (nonOverlappingEvents, neighbourFragmentEntry)
  | _ :: _ =>
    match fuel with
    | O => Err LoopBound
    | S fuel' =>
      let eventIds := map event_id remainingEvents in
      let duplicateEventId := TimelineEventStore.findFirstOccurringEventId txn eventIds in
      if truthy duplicateEventId then
        match findIndex (fun e => sameId duplicateEventId (event_id e)) remainingEvents with
        | None => Err DuplicateNotInChunk
        | Some duplicateEventIndex =>
          let nonOverlappingEvents :=
            nonOverlappingEvents ++ firstn duplicateEventIndex remainingEvents in
          let* neighbourFragmentEntry :=
            (if negb (truthy expectedOverlappingEventId)
                || match duplicateEventId, expectedOverlappingEventId with
                   | Some d, Some x => d =? x
                   | _, _ => false
                   end
             then match neighbourFragmentEntry with
                  | Some _ => Ok neighbourFragmentEntry
                  | None =>
                      match duplicateEventId with
                      | Some d => let* n := lookupNeighbour direction d txn in Ok (Some n)
                      | None => Err TypeError
                      end
                  end
             else Ok neighbourFragmentEntry) in
          overlapLoop fuel' expectedOverlappingEventId direction txn
                      (skipn (S duplicateEventIndex) remainingEvents)
                      nonOverlappingEvents neighbourFragmentEntry
        end
      else Ok (nonOverlappingEvents ++ remainingEvents, neighbourFragmentEntry)
    end
  end.

Record Overlap : Type := mkOverlap {
  nonOverlappingEvents : list Event;
  neighbourFragmentEntry : option FragmentBoundaryEntry.t
}.

Definition _findOverlappingEventsFor (currentFragmentId linkedFragmentId : option Z)
           (direction : Direction.t) (events : list Event) (txn : Txn)
  : Result Overlap :=
  let expectedOverlappingEventId :=
    match linkedFragmentId with
    | Some l => _findExpectedOverlappingEventId l direction txn
    | None => None
    end in
  let* (nonOverlappingEvents, neighbourFragmentEntry) :=
    overlapLoop (List.length events) expectedOverlappingEventId direction txn events [] None in
  let neighbourFragmentEntry :=
    match neighbourFragmentEntry with
    | Some n =>
        match currentFragmentId with
        | Some c => if (FragmentBoundaryEntry.fragmentId n =? c)%Z
                    then None else Some n
        | None => Some n
        end
    | None => None
    end in
  Ok (mkOverlap nonOverlappingEvents neighbourFragmentEntry).

Definition _findOverlappingEvents (fragmentEntry : FragmentBoundaryEntry.t)
           (events : list Event) (txn : Txn) : Result Overlap :=
  let linkedFragmentId :=
    if FragmentBoundaryEntry.hasLinkedFragment fragmentEntry
    then FragmentBoundaryEntry.linkedFragmentId fragmentEntry else None in
  _findOverlappingEventsFor (Some (FragmentBoundaryEntry.fragmentId fragmentEntry))
                            linkedFragmentId
                            (FragmentBoundaryEntry.direction fragmentEntry) events txn.

(** *** Sender resolution *)

Definition isOurUser (userId : string) (event : Event) : bool :=
  (type event =? MEMBER_EVENT_TYPE)
  && match state_key event with Some k => k =? userId | None => false end.

(** [for (let i = from; i >= 0 && i < events.length; i += step)] returning
    the first event satisfying [p]; [fuel] bounds the iterations. *)
Fixpoint scanFor (fuel : nat) (p : Event -> bool) (events : list Event) (i step : Z)
  : option Event :=
  match fuel with
  | O => None
  | S fuel' =>
    if (0 <=? i)%Z && (i <? Z.of_nat (List.length events))%Z then
      match nth_error events (Z.to_nat i) with
      | Some event => if p event then Some event
                      else scanFor fuel' p events (i + step) step
      | None => None
      end
    else None
  end.

Definition _findMember (userId : string) (state : option (list Event))
           (events : list Event) (index : Z) (direction : Direction.t)
  : option RoomMember.t :=
  let inc := if Direction.isBackward direction then 1 else -1 in
  match scanFor (List.length events) (isOurUser userId) events (index + inc) inc with
  | Some event => fromMemberEvent _roomId event
  | None =>
    match scanFor (List.length events) (isOurUser userId) events index (- inc) with
    | Some event => fromReplacingMemberEvent _roomId event
    | None =>
      match state with
      | Some st =>
          match find (isOurUser userId) st with
          | Some stateMemberEvent => fromMemberEvent _roomId stateMemberEvent
          | None => None
          end
      | None => None
      end
    end
  end.

(** *** Storing events *)

Record Stored : Type := mkStored {
  entries : list Entry;
  updatedEntries : list Entry
}.

(** The entry [_storeEvents] builds for [events[i]] at [key] before it
    asks the relation writer: display name and avatar are stamped when a
    member was found. *)
Definition stampedEventEntry (events : list Event) (state : option (list Event))
           (direction : Direction.t) (i : Z) (key : EventKey.t) (event : Event)
  : EventStorageEntry.t :=
  let eventStorageEntry := createEventEntry key _roomId event in
  match _findMember (sender event) state events i direction with
  | Some member => EventStorageEntry.withMember eventStorageEntry member
  | None => eventStorageEntry
  end.

(** The for loop of [_storeEvents]: [rest] is [events] from index [i] on. *)
Fixpoint storeLoop (events : list Event) (state : option (list Event))
         (direction : Direction.t) (rest : list Event) (i : Z) (key : EventKey.t)
         (entries updatedEntries : list Entry) (txn : Txn) : Result (Stored * Txn) :=
  match rest with
  | [] => Ok (mkStored entries updatedEntries, txn)
  | event :: rest' =>
    let key := EventKey.nextKeyForDirection key direction in
    let eventStorageEntry := stampedEventEntry events state direction i key event in
    let '(eventStorageEntry, updatedRelationTargetEntries, txn) :=
      writeGapRelation _relationWriter eventStorageEntry direction txn in
    let updatedEntries :=
      match updatedRelationTargetEntries with
      | Some l => updatedEntries ++ l
      | None => updatedEntries
      end in
    let* txn := TimelineEventStore.insert eventStorageEntry txn in
    storeLoop events state direction rest' (i + 1) key
              (directionalAppend entries (EventEntry eventStorageEntry) direction)
              updatedEntries txn
  end.

Definition _storeEvents (events : list Event) (startKey : EventKey.t)
           (direction : Direction.t) (state : option (list Event)) (txn : Txn)
  : Result (Stored * Txn) :=
  storeLoop events state direction events 0 startKey [] [] txn.

(** *** Linking fragments *)

(** The link step of [_updateFragments] for one entry: set the link when
    the side has none, keep it when it already names [other], and throw
    when it names another fragment. *)
Definition linkTo (entry : FragmentBoundaryEntry.t) (other : Z)
  : Result FragmentBoundaryEntry.t :=
  if negb (FragmentBoundaryEntry.hasLinkedFragment entry)
  then Ok (FragmentBoundaryEntry.set_linkedFragmentId entry (Some other))
  else match FragmentBoundaryEntry.linkedFragmentId entry with
       | Some l => if (l =? other)%Z then Ok entry else Err LinkConflict
       | None => Ok entry
       end.

Record Updated : Type := mkUpdated {
  changedFragments : list Fragment.t;
  updated_entries : list Entry
}.

(** [entries] is mutated in place by the source and holds references: the
    boundary entries appended to it show the state they have when the
    method returns, so they are appended here in their final state, at the
    place the source appends them. *)
Definition _updateFragments (fragmentEntry : FragmentBoundaryEntry.t)
           (neighbourFragmentEntry : option FragmentBoundaryEntry.t)
           (end_ : option string) (entries : list Entry) (txn : Txn)
  : Result (Updated * Txn) :=
  let direction := FragmentBoundaryEntry.direction fragmentEntry in
  match neighbourFragmentEntry with
  | Some neighbourFragmentEntry =>
    let* fragmentEntry :=
      linkTo fragmentEntry (FragmentBoundaryEntry.fragmentId neighbourFragmentEntry) in
    let* neighbourFragmentEntry :=
      linkTo neighbourFragmentEntry (FragmentBoundaryEntry.fragmentId fragmentEntry) in
    let neighbourFragmentEntry := FragmentBoundaryEntry.set_token neighbourFragmentEntry None in
    let fragmentEntry := FragmentBoundaryEntry.set_token fragmentEntry None in
    let entries := directionalAppend entries (BoundaryEntry fragmentEntry) direction in
    let txn :=
      TimelineFragmentStore.update (FragmentBoundaryEntry.fragment neighbourFragmentEntry) txn in
    let entries := directionalAppend entries (BoundaryEntry neighbourFragmentEntry) direction in
    let changedFragments :=
      [FragmentBoundaryEntry.fragment fragmentEntry;
       FragmentBoundaryEntry.fragment neighbourFragmentEntry] in
    let txn := TimelineFragmentStore.update (FragmentBoundaryEntry.fragment fragmentEntry) txn in
    Ok (mkUpdated changedFragments entries, txn)
  | None =>
    let fragmentEntry := FragmentBoundaryEntry.set_token fragmentEntry end_ in
    let entries := directionalAppend entries (BoundaryEntry fragmentEntry) direction in
    let txn := TimelineFragmentStore.update (FragmentBoundaryEntry.fragment fragmentEntry) txn in
    Ok (mkUpdated [] entries, txn)
  end.

Record WriteResult : Type := mkWriteResult {
  res_entries : list Entry;
  res_updatedEntries : list Entry;
  res_fragments : list Fragment.t;
  res_contextEvent : option Entry
}.

Definition hasEntryId (eventId : string) (e : Entry) : bool :=
  match e with
  | EventEntry s => EventStorageEntry.id s =? eventId
  | BoundaryEntry _ => false
  end.

Definition _linkOverlapping (mainOverlap otherOverlap : Overlap) (event : Event)
           (token : option string) (state : option (list Event)) (txn : Txn)
  : Result (WriteResult * Txn) :=
  match neighbourFragmentEntry mainOverlap with
  | None => Err TypeError
  | Some fragmentEntry =>
    let otherEntry := neighbourFragmentEntry otherOverlap in
    let allEvents :=
      rev (nonOverlappingEvents mainOverlap)
      ++ event :: nonOverlappingEvents otherOverlap in
    let lastKey := _findFragmentEdgeEventKey fragmentEntry txn in
    let* (stored, txn) :=
      _storeEvents allEvents lastKey (FragmentBoundaryEntry.direction fragmentEntry)
                   state txn in
    let* (upd, txn) :=
      _updateFragments fragmentEntry otherEntry token (entries stored) txn in
    let contextEvent := find (hasEntryId (event_id event)) (updated_entries upd) in
    Ok (mkWriteResult (updated_entries upd) (updatedEntries stored)
                      (changedFragments upd) contextEvent, txn)
  end.

(** [maxFragmentKey + 1] of a room without fragments is not a number and
    no key for the fragment store: the [add] request is rejected. *)
Definition _createNewFragment (txn : Txn) : Result (Fragment.t * Txn) :=
  match TimelineFragmentStore.getMaxFragmentId txn with
  | None => Err StorageError
  | Some maxFragmentKey =>
    let newFragment :=
      Fragment.mk _roomId (maxFragmentKey + 1) None None None None false in
    let* txn := TimelineFragmentStore.add newFragment txn in
    Ok (newFragment, txn)
  end.

(** A [/context] response. [None] for a chunk is a value that is no array,
    for a token a missing one. *)
Record ContextResponse : Type := {
  events_before : option (list Event);
  events_after : option (list Event);
  ctx_event : Event;
  ctx_state : option (list Event);
  ctx_start : option string;
  ctx_end : option string
}.

Definition writeContext (response : ContextResponse) (txn : Txn)
  : Result (WriteResult * Txn) :=
  match events_before response, events_after response with
  | Some eventsBefore, Some eventsAfter =>
    if negb (truthy (ctx_start response)) || negb (truthy (ctx_end response))
    then Err MissingContextTokens
    else
      let event := ctx_event response in
      let state := ctx_state response in
      let start := ctx_start response in
      let end_ := ctx_end response in
      match TimelineEventStore.getByEventId txn (event_id event) with
      | Some eventEntry =>
          Ok (mkWriteResult [] [] [] (Some (EventEntry eventEntry)), txn)
      | None =>
        let* overlapUp :=
          _findOverlappingEventsFor None None Direction.Backward eventsBefore txn in
        let* overlapDown :=
          _findOverlappingEventsFor None None Direction.Forward eventsAfter txn in
        match neighbourFragmentEntry overlapUp, neighbourFragmentEntry overlapDown with
        | Some _, _ => _linkOverlapping overlapUp overlapDown event end_ state txn
        | None, Some _ => _linkOverlapping overlapDown overlapUp event start state txn
        | None, None =>
          let* (newFragment, txn) := _createNewFragment txn in
          let newFragment :=
            Fragment.mk (Fragment.roomId newFragment) (Fragment.id newFragment)
                        (Fragment.previousId newFragment) (Fragment.nextId newFragment)
                        start end_ (Fragment.edgeReached newFragment) in
          let newEntry := FragmentBoundaryEntry.end_ newFragment in
          let overlapUp := mkOverlap (nonOverlappingEvents overlapUp) (Some newEntry) in
          _linkOverlapping overlapUp overlapDown event end_ state txn
        end
      end
  | _, _ => Err InvalidContextChunks
  end.

(** A [/messages] response. [None] for [chunk] is a value that is no array,
    for [end] a value that is no string. *)
Record MessagesResponse : Type := {
  chunk : option (list Event);
  start : string;
  end_ : option string;
  state : option (list Event)
}.

Definition writeFragmentFill (fragmentEntry : FragmentBoundaryEntry.t)
           (response : MessagesResponse) (txn : Txn) : Result (WriteResult * Txn) :=
  let fragmentId := FragmentBoundaryEntry.fragmentId fragmentEntry in
  let direction := FragmentBoundaryEntry.direction fragmentEntry in
  match chunk response with
  | None => Err InvalidChunk
  | Some chunk =>
    match end_ response with
    | None => Err InvalidEndToken
    | Some endToken =>
      match TimelineFragmentStore.get txn fragmentId with
      | None => Err UnknownFragment
      | Some fragment =>
        let fragmentEntry := FragmentBoundaryEntry.withUpdatedFragment fragmentEntry fragment in
        match FragmentBoundaryEntry.token fragmentEntry with
        | Some token =>
          if token =? start response then
            match chunk with
            | [] =>
              let fragmentEntry := FragmentBoundaryEntry.set_edgeReached fragmentEntry true in
              let txn :=
                TimelineFragmentStore.update (FragmentBoundaryEntry.fragment fragmentEntry) txn in
              Ok (mkWriteResult [BoundaryEntry fragmentEntry] [] [] None, txn)
            | _ :: _ =>
              let lastKey := _findFragmentEdgeEventKey fragmentEntry txn in
              let* overlap := _findOverlappingEvents fragmentEntry chunk txn in
              let end_ :=
                match neighbourFragmentEntry overlap, nonOverlappingEvents overlap with
                | None, [] => None
                | _, _ => Some endToken
                end in
              let* (stored, txn) :=
                _storeEvents (nonOverlappingEvents overlap) lastKey direction
                             (state response) txn in
              let* (upd, txn) :=
                _updateFragments fragmentEntry (neighbourFragmentEntry overlap) end_
                                 (entries stored) txn in
              Ok (mkWriteResult (updated_entries upd) (updatedEntries stored)
                                (changedFragments upd) None, txn)
            end
          else Err StaleToken
        | None => Err StaleToken
        end
      end
    end
  end.
End GapWriter.

(** ** A concrete writer

    Modelled from the spec: [RoomMember] is missing. [fromMemberEvent] takes
    the member from [content], [fromReplacingMemberEvent] from
    [prev_content]; a room without relations has a relation writer that
    changes nothing. *)
Module Scenario.
Definition roomId : string := "!room:hs.tdl".

Definition memberOf (userId : option string) (c : MemberContent) : option RoomMember.t :=
  match userId with
  | Some u => Some (RoomMember.mk roomId u (membership c) (displayname c) (avatar_url c))
  | None => None
  end.

Definition fromMemberEvent (_ : string) (e : Event) : option RoomMember.t :=
  memberOf (state_key e) (content e).

Definition fromReplacingMemberEvent (_ : string) (e : Event) : option RoomMember.t :=
  match prev_content e with
  | Some c => memberOf (state_key e) c
  | None => None
  end.

Definition noRelations : RelationWriter :=
  {| writeGapRelation := fun e _ txn => ((e, None), txn) |}.

Definition noContent : MemberContent := Build_MemberContent None None None.

Definition message (eventId : string) : Event :=
  Build_Event eventId "@alice:hs.tdl" "m.room.message" None noContent None.

Definition memberEvent (eventId userId name : string) (prev : option string) : Event :=
  Build_Event eventId userId MEMBER_EVENT_TYPE (Some userId)
              (Build_MemberContent (Some "join") (Some name) None)
              (match prev with
               | Some p => Some (Build_MemberContent (Some "join") (Some p) None)
               | None => None
               end).

Definition stored (fragmentId eventIndex : Z) (eventId : string) : EventStorageEntry.t :=
  createEventEntry (EventKey.mk fragmentId eventIndex) roomId (message eventId).

Definition findMember := _findMember roomId fromMemberEvent fromReplacingMemberEvent.
Definition fill := writeFragmentFill roomId noRelations fromMemberEvent fromReplacingMemberEvent.
Definition context := writeContext roomId noRelations fromMemberEvent fromReplacingMemberEvent.
End Scenario.

(** ** Notions the properties are stated with *)

(** The events of the chunk older than [events[index]], nearest first:
    higher indices when paginating backwards, lower ones forwards. *)
Definition olderInChunk (direction : Direction.t) (events : list Event) (index : nat)
  : list Event :=
  match direction with
  | Direction.Backward => skipn (S index) events
  | Direction.Forward => rev (firstn index events)
  end.

(** [events[index]] followed by the newer events of the chunk, nearest
    first. *)
Definition selfThenNewerInChunk (direction : Direction.t) (events : list Event) (index : nat)
  : list Event :=
  match direction with
  | Direction.Backward => rev (firstn (S index) events)
  | Direction.Forward => skipn index events
  end.

(** The member resolved in the order the specification gives: an older event
    of the chunk, else the event itself or a newer one (as replacing member),
    else the state list, else nothing. *)
Definition resolveSender (roomId : string)
           (fromMemberEvent fromReplacingMemberEvent : string -> Event -> option RoomMember.t)
           (userId : string) (state : option (list Event)) (events : list Event)
           (index : nat) (direction : Direction.t) : option RoomMember.t :=
  match find (isOurUser userId) (olderInChunk direction events index) with
  | Some event => fromMemberEvent roomId event
  | None =>
    match find (isOurUser userId) (selfThenNewerInChunk direction events index) with
    | Some event => fromReplacingMemberEvent roomId event
    | None =>
      match state with
      | Some st =>
          match find (isOurUser userId) st with
          | Some event => fromMemberEvent roomId event
          | None => None
          end
      | None => None
      end
    end
  end.

Definition isStored (txn : Txn) (e : Event) : bool :=
  TimelineEventStore.hasEventId (timelineEvents txn) (event_id e).

Definition notStored (txn : Txn) (e : Event) : bool := negb (isStored txn e).

(** Event ids are never the empty string. *)
Definition storedIdsNonEmpty (txn : Txn) : Prop :=
  TimelineEventStore.hasEventId (timelineEvents txn) EmptyString = false.

(** Every stored event belongs to a stored fragment. *)
Definition eventsHaveFragments (txn : Txn) : Prop :=
  forall r, In r (timelineEvents txn) ->
            TimelineFragmentStore.get txn (EventStorageEntry.fragmentId r) <> None.

(** One side of a stored fragment: [true] for the previous side. *)
Definition side (f : Fragment.t) (isStart : bool) : FragmentBoundaryEntry.t :=
  FragmentBoundaryEntry.mk f isStart.

(** The token of a side is null exactly when the side is linked or the edge
    of history was reached. *)
Definition tokenIffGap (txn : Txn) : Prop :=
  forall k f, TimelineFragmentStore.get txn k = Some f ->
  forall s, FragmentBoundaryEntry.token (side f s) = None
            <-> (FragmentBoundaryEntry.hasLinkedFragment (side f s) = true
                 \/ Fragment.edgeReached f = true).

(** A linked side holds no token. *)
Definition noLinkedGap (txn : Txn) : Prop :=
  forall k f, TimelineFragmentStore.get txn k = Some f ->
  forall s, FragmentBoundaryEntry.hasLinkedFragment (side f s) = true ->
            FragmentBoundaryEntry.token (side f s) = None.

(** No stored fragment links to itself. *)
Definition noSelfLink (txn : Txn) : Prop :=
  forall k f, TimelineFragmentStore.get txn k = Some f ->
              Fragment.previousId f <> Some (Fragment.id f)
              /\ Fragment.nextId f <> Some (Fragment.id f).

(** A neighbour entry is a stored fragment seen from the side facing the
    fill. *)
Definition fromStore (txn : Txn) (direction : Direction.t) (n : FragmentBoundaryEntry.t)
  : Prop :=
  TimelineFragmentStore.get txn (FragmentBoundaryEntry.fragmentId n)
  = Some (FragmentBoundaryEntry.fragment n)
  /\ FragmentBoundaryEntry.isFragmentStart n = Direction.isForward direction.


(** What a successful fill does to the fragment store. *)
Inductive FillEffect (fe : FragmentBoundaryEntry.t) (response : MessagesResponse)
          (txn txn' : Txn) (res : WriteResult) : Prop :=
| FillEdge :
    chunk response = Some [] ->
    timelineFragments txn'
    = TimelineFragmentStore.put
        (FragmentBoundaryEntry.fragment (FragmentBoundaryEntry.set_edgeReached fe true))
        (timelineFragments txn) ->
    timelineEvents txn' = timelineEvents txn ->
    res = mkWriteResult [BoundaryEntry (FragmentBoundaryEntry.set_edgeReached fe true)]
                        [] [] None ->
    FillEffect fe response txn txn' res
| FillToken (tok : option string) :
    chunk response <> Some [] ->
    tok = None \/ tok = end_ response ->
    timelineFragments txn'
    = TimelineFragmentStore.put
        (FragmentBoundaryEntry.fragment (FragmentBoundaryEntry.set_token fe tok))
        (timelineFragments txn) ->
    res_fragments res = [] ->
    FillEffect fe response txn txn' res
| FillLink (n fe1 n1 : FragmentBoundaryEntry.t) :
    chunk response <> Some [] ->
    fromStore txn (FragmentBoundaryEntry.direction fe) n ->
    FragmentBoundaryEntry.fragmentId n <> FragmentBoundaryEntry.fragmentId fe ->
    linkTo fe (FragmentBoundaryEntry.fragmentId n) = Ok fe1 ->
    linkTo n (FragmentBoundaryEntry.fragmentId fe) = Ok n1 ->
    timelineFragments txn'
    = TimelineFragmentStore.put
        (FragmentBoundaryEntry.fragment (FragmentBoundaryEntry.set_token fe1 None))
        (TimelineFragmentStore.put
           (FragmentBoundaryEntry.fragment (FragmentBoundaryEntry.set_token n1 None))
           (timelineFragments txn)) ->
    res_fragments res
    = [FragmentBoundaryEntry.fragment (FragmentBoundaryEntry.set_token fe1 None);
       FragmentBoundaryEntry.fragment (FragmentBoundaryEntry.set_token n1 None)] ->
    FillEffect fe response txn txn' res.


(** *** Concrete timelines *)

Module Timelines.
Import Scenario.

(** One fragment holding [$a] and [$b], open at both ends. *)
Definition G : Fragment.t := Fragment.mk roomId 1 None None (Some "p") None false.
Definition twoEvents : Txn := mkTxn [stored 1 10 "$a"; stored 1 11 "$b"] [G] [].

(** A [/context] response for [$x], which the server places between the
    stored [$a] and [$b]. *)
Definition around_x : ContextResponse :=
  Build_ContextResponse (Some [message "$a"]) (Some [message "$b"]) (message "$x")
                        None (Some "s") (Some "e").

(** One fragment holding [$a], with a gap on both sides. *)
Definition F : Fragment.t := Fragment.mk roomId 1 None None (Some "t") (Some "n") false.
Definition oneEvent : Txn := mkTxn [stored 1 10 "$a"] [F] [].

Definition emptyPage : MessagesResponse := Build_MessagesResponse (Some []) "t" (Some "u") None.
Definition freshPage : MessagesResponse :=
  Build_MessagesResponse (Some [message "$z"]) "t" (Some "u") None.
Definition ownPage : MessagesResponse :=
  Build_MessagesResponse (Some [message "$a"]) "t" (Some "u") None.

(** Two fragments joined at [$a] | [$b], each side holding the other's id. *)
Definition G1 : Fragment.t := Fragment.mk roomId 1 None (Some 2) (Some "p") None false.
Definition G2 : Fragment.t := Fragment.mk roomId 2 (Some 1) None None (Some "n") false.
Definition linked : Txn := mkTxn [stored 1 10 "$a"; stored 2 10 "$b"] [G1; G2] [].

(** A [/context] response for [$y], which follows the stored [$a]. *)
Definition after_a : ContextResponse :=
  Build_ContextResponse (Some [message "$a"]) (Some [message "$c"]) (message "$y")
                        None (Some "s") (Some "e").

(** Two fragments with a gap between them, and the page that closes it. *)
Definition A1 : Fragment.t := Fragment.mk roomId 1 None None (Some "p") (Some "m") false.
Definition A2 : Fragment.t := Fragment.mk roomId 2 None None (Some "t") (Some "n") false.
Definition apart : Txn := mkTxn [stored 1 10 "$a"; stored 2 10 "$c"] [A1; A2] [].
Definition meetingPage : MessagesResponse :=
  Build_MessagesResponse (Some [message "$b"; message "$a"]) "t" (Some "u") None.
End Timelines.

(** Unfolds the derived properties of boundary entries. *)
Ltac boundary :=
  unfold side, FragmentBoundaryEntry.hasLinkedFragment, FragmentBoundaryEntry.token,
    FragmentBoundaryEntry.set_token, FragmentBoundaryEntry.linkedFragmentId,
    FragmentBoundaryEntry.set_linkedFragmentId, FragmentBoundaryEntry.set_edgeReached,
    FragmentBoundaryEntry.withUpdatedFragment, FragmentBoundaryEntry.fragmentId,
    FragmentBoundaryEntry.direction, FragmentBoundaryEntry.started in *;
  simpl in *.

(** ** Further notions *)

(** Whether a stored duplicate may name the neighbour: any duplicate when no
    overlapping event is expected, otherwise the expected one only. *)
Definition mayLink (expected : option string) (e : Event) : bool :=
  negb (truthy expected)
  || match expected with Some x => event_id e =? x | None => false end.

(** The boundary entry the overlap search settles on before its self-link
    guard: the fragment of the first stored event of the chunk that may name
    the neighbour. *)
Definition selectedNeighbour (txn : Txn) (direction : Direction.t)
           (expected : option string) (events : list Event)
  : option FragmentBoundaryEntry.t :=
  match find (fun e => isStored txn e && mayLink expected e) events with
  | Some e =>
      match lookupNeighbour direction (event_id e) txn with
      | Ok n => Some n
      | Err _ => None
      end
  | None => None
  end.

(** The rows [_storeEvents] writes for [events] starting after [key]: each
    event at the next key in the direction, with its event id. *)
Fixpoint plannedRows (key : EventKey.t) (direction : Direction.t) (events : list Event)
  : list ((Z * Z) * string) :=
  match events with
  | [] => []
  | e :: es =>
      let k := EventKey.nextKeyForDirection key direction in
      ((EventKey.fragmentId k, EventKey.eventIndex k), event_id e)
        :: plannedRows k direction es
  end.

(** The identity of an event entry; a boundary entry has none. *)
Definition entryIdentity (e : Entry) : option ((Z * Z) * string) :=
  match e with
  | EventEntry r => Some (rowIdentity r)
  | BoundaryEntry _ => None
  end.

Definition entryIndex (e : Entry) : option Z :=
  match e with
  | EventEntry r => Some (EventStorageEntry.eventIndex r)
  | BoundaryEntry _ => None
  end.

(** The fragment a side of a stored fragment is linked to. *)
Definition linkOf (f : Fragment.t) (isStart : bool) : option Z :=
  FragmentBoundaryEntry.linkedFragmentId (side f isStart).

(** Links are mutual: the fragment a side names is stored, and its opposite
    side names the fragment back. *)
Definition mutualLinks (txn : Txn) : Prop :=
  forall k f s g,
    TimelineFragmentStore.get txn k = Some f ->
    linkOf f s = Some g ->
    exists h, TimelineFragmentStore.get txn g = Some h
              /\ linkOf h (negb s) = Some (Fragment.id f).


Unset Implicit Arguments.

(** * Log items

    [GapWriter] reports through the log item it is handed ([log.log]).
    [LogItem] is embedded as the tree it builds: an item holds its children,
    and a reference to an item of the tree is the position of the item in
    it. The clock is the sequence of its readings: [clock n] is what the
    n-th call of [clock.now()] returns, and the number of readings taken so
    far is threaded through the methods. Every item of a tree shares the
    clock of its root, which [child] hands on. [console.trace] is not
    modelled. [serialize] is left out together with the field
    [_filterCreator] that only it reads: both need [LogFilter]. *)

Module LogItem.

Inductive Value : Type :=
| VString (s : string)
| VNumber (n : Z)
| VBoolean (b : bool)
| VNull.

(** A thrown value. *)
Record JsError : Type := mkError { stack : string; name : string }.

Inductive LabelOrValues : Type :=
| Label (l : string)
| Values (values : list (string * Value)).

(** [values[key] = value] on an object: an existing key keeps its place. *)
Fixpoint assign (values : list (string * Value)) (key : string) (value : Value)
  : list (string * Value) :=
  match values with
  | [] => [(key, value)]
  | (k, v) :: rest =>
      if k =? key then (k, value) :: rest else (k, v) :: assign rest key value
  end.

(** [Object.assign(target, source)]. *)
Definition assignAll (target source : list (string * Value)) : list (string * Value) :=
  fold_left (fun acc kv => assign acc (fst kv) (snd kv)) source target.

(** [end_] is the property [end] that [log] writes: [None] while the item
    has no such property, [Some v] once it holds [v]. The induction principle
    that reaches the children is [item_induction]. *)
Unset Elimination Schemes.
Inductive t : Type := mk {
  _start : Z;
  _end : option Z;
  _values : list (string * Value);
  error : option JsError;
  logLevel : option Z;
  _children : option (list t);
  end_ : option (option Z)
}.
Set Elimination Schemes.

Definition set_end (this : t) (e : option Z) : t :=
  mk (_start this) e (_values this) (error this) (logLevel this) (_children this)
     (end_ this).

Definition set_values (this : t) (values : list (string * Value)) : t :=
  mk (_start this) (_end this) values (error this) (logLevel this) (_children this)
     (end_ this).

Definition set_error (this : t) (err : option JsError) : t :=
  mk (_start this) (_end this) (_values this) err (logLevel this) (_children this)
     (end_ this).

Definition set_logLevel (this : t) (level : option Z) : t :=
  mk (_start this) (_end this) (_values this) (error this) level (_children this)
     (end_ this).

Definition set_children (this : t) (children : option (list t)) : t :=
  mk (_start this) (_end this) (_values this) (error this) (logLevel this) children
     (end_ this).

Definition set_end_ (this : t) (v : option (option Z)) : t :=
  mk (_start this) (_end this) (_values this) (error this) (logLevel this)
     (_children this) v.

(** The class has no property [start]: reading it gives [undefined]. *)
Definition start (this : t) : option Z := None.

(** A level is falsy when it is null or zero. *)
Definition truthyLevel (level : option Z) : bool :=
  match level with
  | Some n => negb (n =? 0)%Z
  | None => false
  end.

(** The item a reference obtained from [child] points to: the last child.
    Writing through the reference writes into the tree. *)
Definition lastChild (this : t) : option t :=
  match _children this with
  | Some children => last (map Some children) None
  | None => None
  end.

Definition replaceLastChild (this item : t) : t :=
  match _children this with
  | Some children => set_children this (Some (removelast children ++ [item]))
  | None => this
  end.

(** [get duration]: a falsy [_end] gives [null], and zero is falsy. *)
Definition duration (this : t) : option Z :=
  match _end this with
  | Some e => if (e =? 0)%Z then None else Some (e - _start this)
  | None => None
  end.

Inductive KeyOrValues : Type :=
| Key (key : string)
| Object (values : list (string * Value)).

Definition set (this : t) (key : KeyOrValues) (value : Value) : t :=
  match key with
  | Object values => set_values this (assignAll (_values this) values)
  | Key key => set_values this (assign (_values this) key value)
  end.

(** What calling a callback gives: a value, a thrown error, or a promise
    that is still pending. *)
Inductive Completion (A : Type) : Type :=
| Returned (a : A)
| Thrown (err : JsError)
| Pending.
Arguments Returned {A} a.
Arguments Thrown {A} err.
Arguments Pending {A}.

Section Clock.
Variable clock : nat -> Z.
Variable LogLevel_Info LogLevel_Error : Z.

(** The constructor. *)
Definition new (labelOrValues : LabelOrValues) (logLevel : option Z) (tick : nat)
  : t * nat :=
  (mk (clock tick) None
      (match labelOrValues with
       | Label l => [("l", VString l)]
       | Values values => values
       end)
      None logLevel None None,
   S tick).

(** Returns the new item, the parent that now holds it as its last child,
    and the readings taken. *)
Definition child (this : t) (labelOrValues : LabelOrValues) (logLevel : option Z)
           (tick : nat) : t * t * nat :=
  let logLevel :=
    if negb (truthyLevel logLevel)
    then (if truthyLevel (LogItem.logLevel this)
          then LogItem.logLevel this else Some LogLevel_Info)
    else logLevel in
  let '(item, tick) := new labelOrValues logLevel tick in
  let children :=
    match _children this with
    | None => []
    | Some children => children
    end in
  (item, set_children this (Some (children ++ [item])), tick).

(** [item.end = item.start] writes the property [end]; [_end] is another
    property and stays [null]. *)
Definition log (this : t) (labelOrValues : LabelOrValues) (logLevel : option Z)
           (tick : nat) : t * nat :=
  let '(item, this, tick) := child this labelOrValues logLevel tick in
  let item := set_end_ item (Some (start item)) in
  (replaceLastChild this item, tick).

Fixpoint finish (this : t) (tick : nat) {struct this} : t * nat :=
  match this with
  | mk s e values err level children en =>
      match e with
      | Some _ => (this, tick)
      | None =>
          let '(children, tick) :=
            match children with
            | Some children =>
                let '(children, tick) :=
                  (fix each (cs : list t) (tick : nat) {struct cs} : list t * nat :=
                     match cs with
                     | [] => ([], tick)
                     | c :: cs =>
                         let '(c, tick) := finish c tick in
                         let '(cs, tick) := each cs tick in
                         (c :: cs, tick)
                     end) children tick in
                (Some children, tick)
            | None => (None, tick)
            end in
          (mk s (Some (clock tick)) values err level children en, S tick)
      end
  end.

(** The loop of [finish] over the children. *)
Fixpoint finishEach (cs : list t) (tick : nat) : list t * nat :=
  match cs with
  | [] => ([], tick)
  | c :: cs =>
      let '(c, tick) := finish c tick in
      let '(cs, tick) := finishEach cs tick in
      (c :: cs, tick)
  end.

Definition catch_ (this : t) (err : JsError) (tick : nat) : JsError * t * nat :=
  let this := set_error this (Some err) in
  let this := set_logLevel this (Some LogLevel_Error) in
  let '(this, tick) := finish this tick in
  (err, this, tick).

(** [run] with a callback that works on the item it is given. For a
    pending promise [run] returns at once; [runFulfilled] and [runRejected]
    are the two handlers it registers. *)
Definition run {A : Type} (this : t) (callback : t -> nat -> Completion A * t * nat)
           (tick : nat) : Completion A * t * nat :=
  let '(result, this, tick) := callback this tick in
  match result with
  | Returned r =>
      let '(this, tick) := finish this tick in
      (Returned r, this, tick)
  | Thrown err =>
      let '(err, this, tick) := catch_ this err tick in
      (Thrown err, this, tick)
  | Pending => (Pending, this, tick)
  end.

Definition runFulfilled {A : Type} (this : t) (promiseResult : A) (tick : nat)
  : Completion A * t * nat :=
  let '(this, tick) := finish this tick in
  (Returned promiseResult, this, tick).

Definition runRejected {A : Type} (this : t) (err : JsError) (tick : nat)
  : Completion A * t * nat :=
  let '(err, this, tick) := catch_ this err tick in
  (Thrown err, this, tick).

Definition wrap {A : Type} (this : t) (labelOrValues : LabelOrValues)
           (callback : t -> nat -> Completion A * t * nat) (logLevel : option Z)
           (tick : nat) : Completion A * t * nat :=
  let '(item, this, tick) := child this labelOrValues logLevel tick in
  let '(result, item, tick) := run item callback tick in
  (result, replaceLastChild this item, tick).
End Clock.

(** *** Notions about trees of items *)

Definition ended (this : t) : bool :=
  match _end this with
  | Some _ => true
  | None => false
  end.

Definition childrenOf (this : t) : list t :=
  match _children this with
  | Some children => children
  | None => []
  end.

(** The item and every item below it. *)
Fixpoint items (this : t) : list t :=
  match this with
  | mk _ _ _ _ _ children _ =>
      this :: match children with
              | Some children => flat_map items children
              | None => []
              end
  end.

(** The number of open items of the tree. *)
Definition openItems (this : t) : nat :=
  List.length (filter (fun item => negb (ended item)) (items this)).

(** No open item below a finished one. *)
Fixpoint closed (this : t) : bool :=
  match this with
  | mk _ e _ _ _ children _ =>
      match children with
      | Some children =>
          forallb closed children
          && match e with
             | Some _ => forallb (fun c => forallb ended (items c)) children
             | None => true
             end
      | None => true
      end
  end.

(** The times of the tree against the clock after [tick] readings: every
    item started no later than the next reading, ended between its start and
    the next reading, and no child started before its parent. *)
Fixpoint timely (clock : nat -> Z) (tick : nat) (this : t) : bool :=
  match this with
  | mk s e _ _ _ children _ =>
      (s <=? clock tick)%Z
      && match e with
         | Some e => (s <=? e)%Z && (e <=? clock tick)%Z
         | None => true
         end
      && match children with
         | Some children =>
             forallb (fun c => (s <=? _start c)%Z && timely clock tick c) children
         | None => true
         end
  end.

(** One call of a method on an item of the tree: on the root, or on an item
    below it. *)
Inductive Step (clock : nat -> Z) (LogLevel_Info LogLevel_Error : Z)
  : t * nat -> t * nat -> Prop :=
| StepChild this labelOrValues logLevel tick :
    Step clock LogLevel_Info LogLevel_Error (this, tick)
         (let '(_, this', tick') :=
            child clock LogLevel_Info this labelOrValues logLevel tick in
          (this', tick'))
| StepLog this labelOrValues logLevel tick :
    Step clock LogLevel_Info LogLevel_Error (this, tick)
         (log clock LogLevel_Info this labelOrValues logLevel tick)
| StepSet this key value tick :
    Step clock LogLevel_Info LogLevel_Error (this, tick) (set this key value, tick)
| StepFinish this tick :
    Step clock LogLevel_Info LogLevel_Error (this, tick) (finish clock this tick)
| StepCatch this err tick :
    Step clock LogLevel_Info LogLevel_Error (this, tick)
         (let '(_, this', tick') := catch_ clock LogLevel_Error this err tick in
          (this', tick'))
| StepBelow this before c after c' tick tick' :
    _children this = Some (before ++ c :: after) ->
    Step clock LogLevel_Info LogLevel_Error (c, tick) (c', tick') ->
    Step clock LogLevel_Info LogLevel_Error (this, tick)
         (set_children this (Some (before ++ c' :: after)), tick').

(** The trees a program can build: from a new item, by calls on its items. *)
Inductive Reachable (clock : nat -> Z) (LogLevel_Info LogLevel_Error : Z)
  : t * nat -> Prop :=
| ReachNew labelOrValues logLevel tick :
    Reachable clock LogLevel_Info LogLevel_Error (new clock labelOrValues logLevel tick)
| ReachStep st st' :
    Reachable clock LogLevel_Info LogLevel_Error st ->
    Step clock LogLevel_Info LogLevel_Error st st' ->
    Reachable clock LogLevel_Info LogLevel_Error st'.

End LogItem.

Set Implicit Arguments.
Unset Implicit Arguments.

(** * Properties *)

Lemma noRelations_frame : RelationWriterFrame Scenario.noRelations.
Proof. split; reflexivity. Qed.

(** ** Sender resolution *)

Lemma skipn_nth_error {A} (l : list A) (n : nat) (x : A) :
  nth_error l n = Some x -> skipn n l = x :: skipn (S n) l.
Proof.
  revert n. induction l as [|y l IH]; intros [|n] H; simpl in *; try discriminate.
  - now inversion H.
  - now apply IH.
Qed.

Lemma firstn_nth_error {A} (l : list A) (n : nat) (x : A) :
  nth_error l n = Some x -> firstn (S n) l = firstn n l ++ [x].
Proof.
  revert n. induction l as [|y l IH]; intros [|n] H; simpl in *; try discriminate.
  - now inversion H.
  - f_equal. now apply IH.
Qed.

Lemma find_rev_snoc {A} (p : A -> bool) (l : list A) (x : A) :
  find p (rev (l ++ [x])) = if p x then Some x else find p (rev l).
Proof. rewrite rev_app_distr. reflexivity. Qed.

Section Scan.
Variable p : Event -> bool.
Variable events : list Event.

Lemma scanFor_outside (fuel : nat) (i step : Z) :
  (i < 0 \/ Z.of_nat (List.length events) <= i)%Z ->
  scanFor fuel p events i step = None.
Proof.
  intros Hout. destruct fuel as [|fuel]; simpl; [reflexivity|].
  destruct (0 <=? i)%Z eqn:Hlo; simpl; [|reflexivity].
  destruct (i <? Z.of_nat (List.length events))%Z eqn:Hhi; [|reflexivity].
  apply Z.leb_le in Hlo. apply Z.ltb_lt in Hhi. lia.
Qed.

Lemma scanFor_up (fuel n : nat) :
  (List.length events - n <= fuel)%nat ->
  scanFor fuel p events (Z.of_nat n) 1 = find p (skipn n events).
Proof.
  revert n. induction fuel as [|fuel IH]; intros n Hfuel.
  - simpl. rewrite skipn_all2 by lia. reflexivity.
  - destruct (Nat.lt_ge_cases n (List.length events)) as [Hin|Hout].
    + simpl.
      replace (0 <=? Z.of_nat n)%Z with true by (symmetry; apply Z.leb_le; lia).
      replace (Z.of_nat n <? Z.of_nat (List.length events))%Z with true
        by (symmetry; apply Z.ltb_lt; lia).
      simpl. rewrite Nat2Z.id.
      destruct (nth_error events n) as [e|] eqn:Hnth.
      * pose proof (skipn_nth_error _ _ _ Hnth) as Hskip.
        rewrite Hskip. simpl. destruct (p e); [reflexivity|].
        replace (Z.of_nat n + 1)%Z with (Z.of_nat (S n)) by lia.
        apply IH. lia.
      * apply nth_error_None in Hnth. lia.
    + rewrite scanFor_outside by lia.
      rewrite skipn_all2 by lia. reflexivity.
Qed.

Lemma scanFor_in_range (fuel n : nat) (step : Z) :
  (n < List.length events)%nat ->
  scanFor (S fuel) p events (Z.of_nat n) step
  = match nth_error events n with
    | Some event => if p event then Some event
                    else scanFor fuel p events (Z.of_nat n + step) step
    | None => None
    end.
Proof.
  intros Hin. simpl.
  replace (0 <=? Z.of_nat n)%Z with true by (symmetry; apply Z.leb_le; lia).
  replace (Z.of_nat n <? Z.of_nat (List.length events))%Z with true
    by (symmetry; apply Z.ltb_lt; lia).
  simpl. rewrite Nat2Z.id. reflexivity.
Qed.

Lemma scanFor_down (fuel n : nat) :
  (n < List.length events)%nat -> (S n <= fuel)%nat ->
  scanFor fuel p events (Z.of_nat n) (-1) = find p (rev (firstn (S n) events)).
Proof.
  revert fuel. induction n as [|n IH]; intros fuel Hin Hfuel;
    (destruct fuel as [|fuel]; [lia|]); rewrite scanFor_in_range by assumption;
    destruct (nth_error events _) as [e|] eqn:Hnth;
    try (apply nth_error_None in Hnth; lia);
    rewrite (firstn_nth_error _ _ _ Hnth), find_rev_snoc;
    (destruct (p e); [reflexivity|]).
  - apply scanFor_outside. lia.
  - replace (Z.of_nat (S n) + -1)%Z with (Z.of_nat n) by lia.
    apply IH; lia.
Qed.
End Scan.

Section FindMember.
Variable roomId : string.
Variable fromMemberEvent fromReplacingMemberEvent : string -> Event -> option RoomMember.t.

Lemma findMember_scans (userId : string) (state : option (list Event))
      (events : list Event) (index : nat) (direction : Direction.t) :
  (index < List.length events)%nat ->
  _findMember roomId fromMemberEvent fromReplacingMemberEvent
              userId state events (Z.of_nat index) direction
  = resolveSender roomId fromMemberEvent fromReplacingMemberEvent
                  userId state events index direction.
Proof.
  intros Hin. unfold _findMember, resolveSender.
  destruct direction; simpl Direction.isBackward; cbv iota.
  - (* Forward: older events are below the index *)
    assert (Hold : scanFor (List.length events) (isOurUser userId) events
                           (Z.of_nat index + -1) (-1)
                   = find (isOurUser userId) (olderInChunk Direction.Forward events index)).
    { destruct index as [|index].
      - apply scanFor_outside. lia.
      - replace (Z.of_nat (S index) + -1)%Z with (Z.of_nat index) by lia.
        rewrite scanFor_down by lia. unfold olderInChunk. reflexivity. }
    rewrite Hold.
    change (- -1)%Z with 1%Z.
    rewrite scanFor_up by lia. reflexivity.
  - (* Backward: older events are above the index *)
    replace (Z.of_nat index + 1)%Z with (Z.of_nat (S index)) by lia.
    rewrite scanFor_up by lia.
    change (- (1))%Z with (-1)%Z.
    rewrite scanFor_down by lia. reflexivity.
Qed.
End FindMember.

(** ** Overlap detection *)

Lemma find_map_pre {A B} (f : A -> B) (p : B -> bool) (l : list A) :
  find p (map f l) = option_map f (find (fun x => p (f x)) l).
Proof.
  induction l as [|x l IH]; simpl; [reflexivity|].
  destruct (p (f x)); [reflexivity|exact IH].
Qed.

Lemma findFirstOccurring_events (txn : Txn) (events : list Event) :
  TimelineEventStore.findFirstOccurringEventId txn (map event_id events)
  = option_map event_id (find (isStored txn) events).
Proof.
  exact (find_map_pre event_id (TimelineEventStore.hasEventId (timelineEvents txn)) events).
Qed.

Lemma filter_none {A} (p : A -> bool) (l : list A) :
  find p l = None -> filter (fun x => negb (p x)) l = l.
Proof.
  induction l as [|x l IH]; simpl; [reflexivity|].
  destruct (p x); [discriminate|]. intros H. simpl. f_equal. auto.
Qed.

Lemma first_duplicate (txn : Txn) (events : list Event) (e : Event) :
  find (isStored txn) events = Some e ->
  exists i, findIndex (fun x => sameId (Some (event_id e)) (event_id x)) events = Some i
            /\ filter (notStored txn) events
               = firstn i events ++ filter (notStored txn) (skipn (S i) events)
            /\ (i < List.length events)%nat.
Proof.
  unfold sameId.
  induction events as [|x events IH]; simpl; [discriminate|].
  destruct (isStored txn x) eqn:Hx.
  - intros H. inversion H; subst. exists O. rewrite String.eqb_refl.
    unfold notStored at 1. rewrite Hx. simpl. repeat split. lia.
  - intros H. destruct (IH H) as (i & Hi & Hf & Hlt).
    assert (He : isStored txn e = true) by (apply find_some in H; tauto).
    destruct (event_id e =? event_id x) eqn:Heq.
    + apply String.eqb_eq in Heq. unfold isStored in *. rewrite Heq in He. congruence.
    + rewrite Hi. exists (S i). unfold notStored at 1. rewrite Hx. simpl.
      repeat split; [|lia]. f_equal. exact Hf.
Qed.

Lemma hasEventId_get (txn : Txn) (d : string) :
  TimelineEventStore.hasEventId (timelineEvents txn) d = true ->
  exists r, TimelineEventStore.getByEventId txn d = Some r
            /\ In r (timelineEvents txn) /\ EventStorageEntry.id r = d.
Proof.
  unfold TimelineEventStore.hasEventId, TimelineEventStore.getByEventId.
  intros H. apply existsb_exists in H as (r & Hin & Hr).
  destruct (find (fun r0 => EventStorageEntry.id r0 =? d) (timelineEvents txn)) as [r'|] eqn:Hf.
  - apply find_some in Hf as [Hin' Hr']. exists r'. repeat split; auto.
    now apply String.eqb_eq.
  - apply (find_none _ _ Hf) in Hin. congruence.
Qed.

Lemma lookupNeighbour_ok (txn : Txn) (direction : Direction.t) (d : string) :
  eventsHaveFragments txn ->
  TimelineEventStore.hasEventId (timelineEvents txn) d = true ->
  exists f, lookupNeighbour direction d txn
            = Ok (FragmentBoundaryEntry.mk f (Direction.isForward direction))
            /\ exists r, TimelineEventStore.getByEventId txn d = Some r
               /\ TimelineFragmentStore.get txn (EventStorageEntry.fragmentId r) = Some f.
Proof.
  intros Hfr Hd. destruct (hasEventId_get _ _ Hd) as (r & Hget & Hin & _).
  unfold lookupNeighbour. rewrite Hget.
  specialize (Hfr r Hin).
  destruct (TimelineFragmentStore.get txn (EventStorageEntry.fragmentId r)) as [f|] eqn:Hf;
    [|congruence].
  exists f. split; [reflexivity|]. exists r. auto.
Qed.

Lemma stored_truthy (txn : Txn) (d : string) :
  storedIdsNonEmpty txn ->
  TimelineEventStore.hasEventId (timelineEvents txn) d = true ->
  truthy (Some d) = true.
Proof.
  unfold storedIdsNonEmpty. intros Hne Hd. destruct d; [congruence|reflexivity].
Qed.

Section Overlap.
Variable txn : Txn.
Variable direction : Direction.t.
Variable expected : option string.
Hypothesis Hids : storedIdsNonEmpty txn.
Hypothesis Hfrags : eventsHaveFragments txn.

Lemma overlapLoop_duplicate (fuel : nat) (remaining acc : list Event)
      (neighbour : option FragmentBoundaryEntry.t) (d : string) (i : nat) :
  TimelineEventStore.findFirstOccurringEventId txn (map event_id remaining) = Some d ->
  findIndex (fun e => sameId (Some d) (event_id e)) remaining = Some i ->
  exists neighbour',
    overlapLoop (S fuel) expected direction txn remaining acc neighbour
    = overlapLoop fuel expected direction txn (skipn (S i) remaining)
                  (acc ++ firstn i remaining) neighbour'.
Proof.
  intros Hd Hi.
  assert (Hstored : TimelineEventStore.hasEventId (timelineEvents txn) d = true).
  { unfold TimelineEventStore.findFirstOccurringEventId in Hd.
    apply find_some in Hd. tauto. }
  destruct remaining as [|e0 rest]; [discriminate|].
  cbn [overlapLoop]. rewrite Hd, (stored_truthy _ _ Hids Hstored), Hi.
  destruct (lookupNeighbour_ok _ direction _ Hfrags Hstored) as (f & Hlook & _).
  destruct (negb (truthy expected)
            || match expected with Some x => d =? x | None => false end);
    [destruct neighbour as [n|]|].
  - exists (Some n). reflexivity.
  - rewrite Hlook. eexists. reflexivity.
  - exists neighbour. reflexivity.
Qed.

Lemma overlapLoop_filter (fuel : nat) :
  forall (remaining acc : list Event) (neighbour : option FragmentBoundaryEntry.t),
    (List.length remaining <= fuel)%nat ->
    exists neighbour',
      overlapLoop fuel expected direction txn remaining acc neighbour
      = Ok (acc ++ filter (notStored txn) remaining, neighbour').
Proof.
  induction fuel as [|fuel IH]; intros remaining acc neighbour Hlen.
  - destruct remaining; [|simpl in Hlen; lia].
    exists neighbour. simpl. now rewrite app_nil_r.
  - destruct remaining as [|e0 rest] eqn:Hrem.
    { exists neighbour. simpl. now rewrite app_nil_r. }
    rewrite <- Hrem in *.
    pose proof (findFirstOccurring_events txn remaining) as Hfirst.
    destruct (find (isStored txn) remaining) as [e|] eqn:Hfind; simpl in Hfirst.
    + destruct (first_duplicate _ _ _ Hfind) as (i & Hi & Hfilter & Hlt).
      destruct (overlapLoop_duplicate fuel _ acc neighbour _ _ Hfirst Hi) as (n' & Hstep).
      rewrite Hstep.
      destruct (IH (skipn (S i) remaining) (acc ++ firstn i remaining) n') as (n'' & Hrec).
      { rewrite length_skipn. lia. }
      exists n''. rewrite Hrec, Hfilter, app_assoc. reflexivity.
    + exists neighbour. rewrite Hrem at 1. cbn [overlapLoop]. rewrite <- Hrem.
      rewrite Hfirst. simpl.
      unfold notStored. rewrite (filter_none _ _ Hfind). reflexivity.
Qed.
End Overlap.

Lemma findIndex_lt {A : Type} (p : A -> bool) (l : list A) (i : nat) :
  findIndex p l = Some i -> (i < List.length l)%nat.
Proof.
  revert i. induction l as [|x l IH]; intros i; simpl; [discriminate|].
  destruct (p x).
  - intros H. inversion H. lia.
  - destruct (findIndex p l) as [j|]; [|discriminate].
    intros H. inversion H. specialize (IH j eq_refl). lia.
Qed.

(** The bound of the modelled while loop is never hit: each turn that finds
    a duplicate shortens the remaining events. *)
Lemma overlapLoop_bound (txn : Txn) (direction : Direction.t) (expected : option string)
      (fuel : nat) :
  forall (remaining acc : list Event) (neighbour : option FragmentBoundaryEntry.t),
    (List.length remaining <= fuel)%nat ->
    overlapLoop fuel expected direction txn remaining acc neighbour <> Err LoopBound.
Proof.
  induction fuel as [|fuel IH]; intros remaining acc neighbour Hlen;
    destruct remaining as [|e0 rest]; cbn [overlapLoop].
  - discriminate.
  - simpl in Hlen. lia.
  - discriminate.
  - set (dup := TimelineEventStore.findFirstOccurringEventId txn (map event_id (e0 :: rest))).
    destruct (truthy dup); [|discriminate].
    destruct (findIndex _ (e0 :: rest)) as [i|] eqn:Hi; [|discriminate].
    apply findIndex_lt in Hi.
    assert (Hshort : (List.length (skipn (S i) (e0 :: rest)) <= fuel)%nat).
    { rewrite length_skipn. simpl in *. lia. }
    destruct (negb (truthy expected) || _).
    + destruct neighbour as [n|]; [now apply IH|].
      destruct dup as [d|]; [|discriminate].
      destruct (lookupNeighbour direction d txn) as [n|e] eqn:Hlook;
        [now apply IH|].
      unfold lookupNeighbour in Hlook.
      destruct (TimelineEventStore.getByEventId txn d) as [r|];
        [destruct (TimelineFragmentStore.get txn _)|]; inversion Hlook; discriminate.
    + now apply IH.
Qed.

(** *** The fragment store *)

Lemma put_find_same (f : Fragment.t) (rows : list Fragment.t) :
  find (TimelineFragmentStore.hasId (Fragment.id f)) (TimelineFragmentStore.put f rows)
  = Some f.
Proof.
  induction rows as [|g rows IH]; simpl.
  - unfold TimelineFragmentStore.hasId. now rewrite Z.eqb_refl.
  - destruct (TimelineFragmentStore.hasId (Fragment.id f) g) eqn:Hg; simpl.
    + unfold TimelineFragmentStore.hasId. now rewrite Z.eqb_refl.
    + now rewrite Hg.
Qed.

Lemma put_find_other (f : Fragment.t) (rows : list Fragment.t) (k : Z) :
  k <> Fragment.id f ->
  find (TimelineFragmentStore.hasId k) (TimelineFragmentStore.put f rows)
  = find (TimelineFragmentStore.hasId k) rows.
Proof.
  intros Hk.
  assert (Hf : TimelineFragmentStore.hasId k f = false).
  { unfold TimelineFragmentStore.hasId. apply Z.eqb_neq. congruence. }
  induction rows as [|g rows IH]; simpl.
  - now rewrite Hf.
  - destruct (TimelineFragmentStore.hasId (Fragment.id f) g) eqn:Hg; simpl.
    + rewrite Hf.
      assert (Hkg : TimelineFragmentStore.hasId k g = false).
      { unfold TimelineFragmentStore.hasId in *. apply Z.eqb_eq in Hg.
        apply Z.eqb_neq. congruence. }
      now rewrite Hkg.
    + destruct (TimelineFragmentStore.hasId k g); [reflexivity|exact IH].
Qed.

Lemma get_update_same (f : Fragment.t) (txn : Txn) :
  TimelineFragmentStore.get (TimelineFragmentStore.update f txn) (Fragment.id f) = Some f.
Proof. apply put_find_same. Qed.

Lemma get_update_other (f : Fragment.t) (txn : Txn) (k : Z) :
  k <> Fragment.id f ->
  TimelineFragmentStore.get (TimelineFragmentStore.update f txn) k
  = TimelineFragmentStore.get txn k.
Proof. apply put_find_other. Qed.

Lemma get_id (txn : Txn) (k : Z) (f : Fragment.t) :
  TimelineFragmentStore.get txn k = Some f -> Fragment.id f = k.
Proof.
  unfold TimelineFragmentStore.get. intros H. apply find_some in H as [_ H].
  now apply Z.eqb_eq in H.
Qed.

Lemma put_put_same (f : Fragment.t) (rows : list Fragment.t) :
  TimelineFragmentStore.put f (TimelineFragmentStore.put f rows)
  = TimelineFragmentStore.put f rows.
Proof.
  induction rows as [|h rows IH]; simpl.
  - unfold TimelineFragmentStore.hasId. now rewrite Z.eqb_refl.
  - destruct (TimelineFragmentStore.hasId (Fragment.id f) h) eqn:Hh; simpl.
    + unfold TimelineFragmentStore.hasId. now rewrite Z.eqb_refl.
    + rewrite Hh. f_equal. exact IH.
Qed.

Lemma update_events (f : Fragment.t) (txn : Txn) :
  timelineEvents (TimelineFragmentStore.update f txn) = timelineEvents txn.
Proof. reflexivity. Qed.

(** *** Boundary entries *)

Lemma linkTo_shape (entry entry' : FragmentBoundaryEntry.t) (other : Z) :
  linkTo entry other = Ok entry' ->
  FragmentBoundaryEntry.fragmentId entry' = FragmentBoundaryEntry.fragmentId entry
  /\ FragmentBoundaryEntry.isFragmentStart entry' = FragmentBoundaryEntry.isFragmentStart entry
  /\ FragmentBoundaryEntry.linkedFragmentId entry' = Some other
  /\ (FragmentBoundaryEntry.linkedFragmentId entry = None
      \/ FragmentBoundaryEntry.linkedFragmentId entry = Some other)
  /\ FragmentBoundaryEntry.linkedFragmentId
       (FragmentBoundaryEntry.mk (FragmentBoundaryEntry.fragment entry')
                                 (negb (FragmentBoundaryEntry.isFragmentStart entry')))
     = FragmentBoundaryEntry.linkedFragmentId
         (FragmentBoundaryEntry.mk (FragmentBoundaryEntry.fragment entry)
                                   (negb (FragmentBoundaryEntry.isFragmentStart entry)))
  /\ Fragment.previousToken (FragmentBoundaryEntry.fragment entry')
     = Fragment.previousToken (FragmentBoundaryEntry.fragment entry)
  /\ Fragment.nextToken (FragmentBoundaryEntry.fragment entry')
     = Fragment.nextToken (FragmentBoundaryEntry.fragment entry)
  /\ Fragment.edgeReached (FragmentBoundaryEntry.fragment entry')
     = Fragment.edgeReached (FragmentBoundaryEntry.fragment entry).
Proof.
  unfold linkTo, FragmentBoundaryEntry.hasLinkedFragment.
  destruct entry as [f [|]];
    unfold FragmentBoundaryEntry.linkedFragmentId, FragmentBoundaryEntry.set_linkedFragmentId,
      FragmentBoundaryEntry.started, FragmentBoundaryEntry.fragmentId; simpl.
  - destruct (Fragment.previousId f) as [l|] eqn:Hl; simpl.
    + destruct (l =? other)%Z eqn:Heq; [|discriminate].
      apply Z.eqb_eq in Heq. subst l. intros H. inversion H; subst; simpl.
      rewrite Hl. repeat split; auto.
    + intros H. inversion H; subst; simpl. repeat split; auto.
  - destruct (Fragment.nextId f) as [l|] eqn:Hl; simpl.
    + destruct (l =? other)%Z eqn:Heq; [|discriminate].
      apply Z.eqb_eq in Heq. subst l. intros H. inversion H; subst; simpl.
      rewrite Hl. repeat split; auto.
    + intros H. inversion H; subst; simpl. repeat split; auto.
Qed.




Section Writer.
Variable roomId : string.
Variable rw : RelationWriter.
Variable fromMemberEvent fromReplacingMemberEvent : string -> Event -> option RoomMember.t.
Hypothesis Hrw : RelationWriterFrame rw.

Lemma updateFragments_linked (fe n : FragmentBoundaryEntry.t) (tok : option string)
      (entries : list Entry) (txn txn' : Txn) (u : Updated) :
  _updateFragments fe (Some n) tok entries txn = Ok (u, txn') ->
  exists fe1 n1,
    linkTo fe (FragmentBoundaryEntry.fragmentId n) = Ok fe1
    /\ linkTo n (FragmentBoundaryEntry.fragmentId fe) = Ok n1
    /\ txn' = TimelineFragmentStore.update
                (FragmentBoundaryEntry.fragment (FragmentBoundaryEntry.set_token fe1 None))
                (TimelineFragmentStore.update
                   (FragmentBoundaryEntry.fragment (FragmentBoundaryEntry.set_token n1 None))
                   txn)
    /\ changedFragments u
       = [FragmentBoundaryEntry.fragment (FragmentBoundaryEntry.set_token fe1 None);
          FragmentBoundaryEntry.fragment (FragmentBoundaryEntry.set_token n1 None)].
Proof.
  unfold _updateFragments.
  destruct (linkTo fe (FragmentBoundaryEntry.fragmentId n)) as [fe1|e] eqn:H1;
    simpl; [|discriminate].
  destruct (linkTo_shape _ _ _ H1) as (Hid & _).
  rewrite Hid.
  destruct (linkTo n (FragmentBoundaryEntry.fragmentId fe)) as [n1|e] eqn:H2;
    simpl; [|discriminate].
  intros H. inversion H; subst. exists fe1, n1. repeat split; auto.
Qed.

Lemma insert_ok (entry : EventStorageEntry.t) (txn txn' : Txn) :
  TimelineEventStore.insert entry txn = Ok txn' ->
  txn' = withEvents txn (timelineEvents txn ++ [entry]).
Proof.
  unfold TimelineEventStore.insert.
  destruct (_ || _); [discriminate|]. intros H. now inversion H.
Qed.

Lemma storeLoop_fragments (events : list Event) (state : option (list Event))
      (direction : Direction.t) (rest : list Event) :
  forall (i : Z) (key : EventKey.t) (entries updated : list Entry) (txn txn' : Txn)
         (s : Stored),
    storeLoop roomId rw fromMemberEvent fromReplacingMemberEvent
              events state direction rest i key entries updated txn = Ok (s, txn') ->
    timelineFragments txn' = timelineFragments txn.
Proof.
  induction rest as [|event rest IH]; intros i key entries updated txn txn' s; simpl.
  - intros H. now inversion H.
  - pose proof (rw_fragments Hrw
      (stampedEventEntry roomId fromMemberEvent fromReplacingMemberEvent events state
         direction i (EventKey.nextKeyForDirection key direction) event)
      direction txn) as Hfr.
    destruct (writeGapRelation rw _ direction txn) as [[entry upd] txn1].
    simpl in Hfr.
    destruct (TimelineEventStore.insert entry txn1) as [txn2|e] eqn:Hins; simpl;
      [|discriminate].
    intros H. apply IH in H. rewrite H.
    apply insert_ok in Hins. subst txn2. simpl. exact Hfr.
Qed.

Lemma storeEvents_fragments (events : list Event) (key : EventKey.t)
      (direction : Direction.t) (state : option (list Event)) (txn txn' : Txn)
      (s : Stored) :
  _storeEvents roomId rw fromMemberEvent fromReplacingMemberEvent
               events key direction state txn = Ok (s, txn') ->
  timelineFragments txn' = timelineFragments txn.
Proof. apply storeLoop_fragments. Qed.
End Writer.

(** ** The effect of a fill on the fragment store *)

Lemma lookupNeighbour_fromStore (txn : Txn) (direction : Direction.t) (d : string)
      (n : FragmentBoundaryEntry.t) :
  lookupNeighbour direction d txn = Ok n -> fromStore txn direction n.
Proof.
  unfold lookupNeighbour.
  destruct (TimelineEventStore.getByEventId txn d) as [r|]; [|discriminate].
  destruct (TimelineFragmentStore.get txn (EventStorageEntry.fragmentId r)) as [f|] eqn:Hf;
    [|discriminate].
  intros H. inversion H; subst. split; [|reflexivity].
  unfold FragmentBoundaryEntry.fragmentId. simpl.
  now rewrite (get_id _ _ _ Hf).
Qed.

Lemma overlapLoop_neighbour (txn : Txn) (direction : Direction.t) (expected : option string)
      (fuel : nat) :
  forall (remaining acc res : list Event) (neighbour neighbour' : option FragmentBoundaryEntry.t),
    (forall n, neighbour = Some n -> fromStore txn direction n) ->
    overlapLoop fuel expected direction txn remaining acc neighbour = Ok (res, neighbour') ->
    forall n, neighbour' = Some n -> fromStore txn direction n.
Proof.
  induction fuel as [|fuel IH]; intros remaining acc res neighbour neighbour' Hn;
    destruct remaining as [|e0 rest]; cbn [overlapLoop].
  - intros H. inversion H; subst. exact Hn.
  - discriminate.
  - intros H. inversion H; subst. exact Hn.
  - set (dup := TimelineEventStore.findFirstOccurringEventId txn (map event_id (e0 :: rest))).
    destruct (truthy dup).
    + destruct (findIndex _ (e0 :: rest)) as [i|]; [|discriminate].
      destruct (negb (truthy expected) || _).
      * destruct neighbour as [n0|]; simpl.
        -- apply IH. exact Hn.
        -- destruct dup as [d|]; [|discriminate].
           destruct (lookupNeighbour direction d txn) as [n1|] eqn:Hlook; simpl;
             [|discriminate].
           apply IH. intros n Heq. inversion Heq; subst.
           eapply lookupNeighbour_fromStore; eauto.
      * simpl. apply IH. exact Hn.
    + intros H. inversion H; subst. exact Hn.
Qed.

Lemma findOverlappingEventsFor_neighbour (current linked : option Z)
      (direction : Direction.t) (events : list Event) (txn : Txn) (ov : Overlap)
      (n : FragmentBoundaryEntry.t) :
  _findOverlappingEventsFor current linked direction events txn = Ok ov ->
  neighbourFragmentEntry ov = Some n ->
  fromStore txn direction n
  /\ current <> Some (FragmentBoundaryEntry.fragmentId n).
Proof.
  unfold _findOverlappingEventsFor.
  destruct (overlapLoop _ _ direction txn events [] None) as [[res ne]|] eqn:Hloop;
    simpl; [|discriminate].
  intros H. inversion H; subst; clear H. simpl.
  assert (Hfrom : forall m, ne = Some m -> fromStore txn direction m).
  { eapply overlapLoop_neighbour; [|exact Hloop]. discriminate. }
  destruct ne as [m|]; [|discriminate].
  destruct current as [c|].
  - destruct (FragmentBoundaryEntry.fragmentId m =? c)%Z eqn:Hc; [discriminate|].
    intros H. inversion H; subst. split; [auto|].
    apply Z.eqb_neq in Hc. congruence.
  - intros H. inversion H; subst. split; [auto|discriminate].
Qed.

(** The overlap search always returns: it fails only where the source
    throws. *)
Lemma findOverlappingEventsFor_bound (current linked : option Z)
      (direction : Direction.t) (events : list Event) (txn : Txn) :
  _findOverlappingEventsFor current linked direction events txn <> Err LoopBound.
Proof.
  unfold _findOverlappingEventsFor.
  destruct (overlapLoop _ _ direction txn events [] None) as [[res ne]|e] eqn:Hloop;
    simpl; [discriminate|].
  intros H. inversion H; subst.
  exact (overlapLoop_bound _ _ _ _ _ _ _ (le_n _) Hloop).
Qed.

Section Fill.
Variable roomId : string.
Variable rw : RelationWriter.
Variable fromMemberEvent fromReplacingMemberEvent : string -> Event -> option RoomMember.t.
Hypothesis Hrw : RelationWriterFrame rw.

Lemma fill_effect (fragmentEntry : FragmentBoundaryEntry.t) (response : MessagesResponse)
      (txn txn' : Txn) (res : WriteResult) :
  writeFragmentFill roomId rw fromMemberEvent fromReplacingMemberEvent
                    fragmentEntry response txn = Ok (res, txn') ->
  exists fragment,
    TimelineFragmentStore.get txn (FragmentBoundaryEntry.fragmentId fragmentEntry)
    = Some fragment
    /\ FragmentBoundaryEntry.token
         (FragmentBoundaryEntry.withUpdatedFragment fragmentEntry fragment)
       = Some (start response)
    /\ FillEffect (FragmentBoundaryEntry.withUpdatedFragment fragmentEntry fragment)
                  response txn txn' res.
Proof.
  unfold writeFragmentFill.
  destruct (chunk response) as [events|] eqn:Hchunk; [|discriminate].
  destruct (end_ response) as [endToken|] eqn:Hend; [|discriminate].
  destruct (TimelineFragmentStore.get txn _) as [fragment|] eqn:Hget; [|discriminate].
  set (fe := FragmentBoundaryEntry.withUpdatedFragment fragmentEntry fragment).
  destruct (FragmentBoundaryEntry.token fe) as [token|] eqn:Htok; [|discriminate].
  destruct (token =? start response) eqn:Hguard; [|discriminate].
  apply String.eqb_eq in Hguard. subst token.
  intros H. exists fragment. split; [reflexivity|]. split; [exact Htok|]. fold fe.
  destruct events as [|e0 rest].
  - inversion H; subst. apply FillEdge; auto.
  - destruct (_findOverlappingEvents fe (e0 :: rest) txn) as [ov|] eqn:Hov;
      simpl in H; [|discriminate].
    destruct (_storeEvents _ _ _ _ _ _ _ _ _) as [[stored txn1]|] eqn:Hstore;
      simpl in H; [|discriminate].
    apply (storeEvents_fragments _ _ _ _ Hrw) in Hstore.
    destruct (neighbourFragmentEntry ov) as [n|] eqn:Hn.
    + destruct (_updateFragments fe (Some n) _ _ txn1) as [[upd txn2]|] eqn:Hupd;
        simpl in H; [|discriminate].
      inversion H; subst; clear H.
      destruct (updateFragments_linked _ _ _ _ _ _ _ Hupd) as (fe1 & n1 & H1 & H2 & Ht & Hc).
      unfold _findOverlappingEvents in Hov.
      destruct (findOverlappingEventsFor_neighbour _ _ _ _ _ _ _ Hov Hn) as [Hfrom Hself].
      apply FillLink with (n := n) (fe1 := fe1) (n1 := n1); auto.
      * congruence.
      * congruence.
      * subst txn'. simpl. rewrite Hstore. reflexivity.
    + unfold _updateFragments in H. simpl in H. inversion H; subst; clear H.
      eapply FillToken with
        (tok := match nonOverlappingEvents ov with [] => None | _ :: _ => Some endToken end).
      * congruence.
      * destruct (nonOverlappingEvents ov); auto.
      * simpl. rewrite Hstore. reflexivity.
      * reflexivity.
Qed.
End Fill.

(** ** Invariants of the fragment store across a fill *)

Lemma get_fragments (txn txn' : Txn) (k : Z) :
  timelineFragments txn' = timelineFragments txn ->
  TimelineFragmentStore.get txn' k = TimelineFragmentStore.get txn k.
Proof. unfold TimelineFragmentStore.get. now intros ->. Qed.

(** The store after one or two rows were put, row by row. *)
Lemma get_put1 (txn txn' : Txn) (f : Fragment.t) (k : Z) :
  timelineFragments txn' = TimelineFragmentStore.put f (timelineFragments txn) ->
  TimelineFragmentStore.get txn' k
  = if (k =? Fragment.id f)%Z then Some f else TimelineFragmentStore.get txn k.
Proof.
  intros H. unfold TimelineFragmentStore.get. rewrite H.
  destruct (k =? Fragment.id f)%Z eqn:Hk.
  - apply Z.eqb_eq in Hk. subst k. apply put_find_same.
  - apply Z.eqb_neq in Hk. now apply put_find_other.
Qed.

Lemma get_put2 (txn txn' : Txn) (f g : Fragment.t) (k : Z) :
  timelineFragments txn'
  = TimelineFragmentStore.put f (TimelineFragmentStore.put g (timelineFragments txn)) ->
  TimelineFragmentStore.get txn' k
  = if (k =? Fragment.id f)%Z then Some f
    else if (k =? Fragment.id g)%Z then Some g
         else TimelineFragmentStore.get txn k.
Proof.
  intros H. unfold TimelineFragmentStore.get. rewrite H.
  destruct (k =? Fragment.id f)%Z eqn:Hk.
  - apply Z.eqb_eq in Hk. subst k. apply put_find_same.
  - apply Z.eqb_neq in Hk. rewrite put_find_other by assumption.
    destruct (k =? Fragment.id g)%Z eqn:Hg.
    + apply Z.eqb_eq in Hg. subst k. apply put_find_same.
    + apply Z.eqb_neq in Hg. now apply put_find_other.
Qed.


Lemma fillEffect_noSelfLink (fe : FragmentBoundaryEntry.t) (response : MessagesResponse)
      (txn txn' : Txn) (res : WriteResult) :
  TimelineFragmentStore.get txn (FragmentBoundaryEntry.fragmentId fe)
  = Some (FragmentBoundaryEntry.fragment fe) ->
  FillEffect fe response txn txn' res ->
  noSelfLink txn -> noSelfLink txn'.
Proof.
  intros Hget Heff Hinv k f Hk.
  pose proof (Hinv _ _ Hget) as Hfe.
  destruct Heff as [_ Hfr _ _ | tok _ _ Hfr _ | n fe1 n1 _ [Hn Hside] Hne H1 H2 Hfr _].
  - rewrite (get_put1 _ _ _ _ Hfr) in Hk.
    destruct (k =? _)%Z; [|exact (Hinv _ _ Hk)].
    inversion Hk; subst f. destruct fe as [f0 b]; boundary; exact Hfe.
  - rewrite (get_put1 _ _ _ _ Hfr) in Hk.
    destruct (k =? _)%Z; [|exact (Hinv _ _ Hk)].
    inversion Hk; subst f. destruct fe as [f0 [|]]; boundary; exact Hfe.
  - pose proof (Hinv _ _ Hn) as Hnb.
    destruct (linkTo_shape _ _ _ H1) as (Hid1 & Hs1 & Hl1 & _ & Ho1 & _).
    destruct (linkTo_shape _ _ _ H2) as (Hid2 & Hs2 & Hl2 & _ & Ho2 & _).
    rewrite (get_put2 _ _ _ _ _ Hfr) in Hk.
    destruct (k =? _)%Z.
    + inversion Hk; subst f.
      destruct fe as [f0 [|]], fe1 as [f1 b1]; boundary; subst b1; simpl in *;
        rewrite Hid1; destruct Hfe as [Hfe1 Hfe2]; split; congruence.
    + destruct (k =? _)%Z; [|exact (Hinv _ _ Hk)].
      inversion Hk; subst f.
      destruct n as [f0 [|]], n1 as [f1 b1]; boundary; subst b1; simpl in *;
        rewrite Hid2; destruct Hnb as [Hnb1 Hnb2]; split; congruence.
Qed.

(** ** Sender resolution: the order of the three sources *)



(** C10. The second scan starts at the event's own index: when
    [events[index]] is itself a member event whose state key is its sender,
    and no older event of the chunk matches, the resolver returns the
    replacing member built from [events[index]], whatever the state list
    holds. *)
Theorem findMember_own_member_event
  (roomId : string)
  (fromMemberEvent fromReplacingMemberEvent : string -> Event -> option RoomMember.t)
  (state : option (list Event)) (events : list Event)
  (index : nat) (direction : Direction.t) (event : Event) :
  nth_error events index = Some event ->
  type event = MEMBER_EVENT_TYPE ->
  state_key event = Some (sender event) ->
  find (isOurUser (sender event)) (olderInChunk direction events index) = None ->
  _findMember roomId fromMemberEvent fromReplacingMemberEvent
              (sender event) state events (Z.of_nat index) direction
  = fromReplacingMemberEvent roomId event.
Proof.
  intros Hnth Htype Hkey Holder.
  assert (Hin : (index < List.length events)%nat).
  { apply nth_error_Some. congruence. }
  assert (Hours : isOurUser (sender event) event = true).
  { unfold isOurUser. rewrite Htype, Hkey, !String.eqb_refl. reflexivity. }
  rewrite findMember_scans by exact Hin. unfold resolveSender. rewrite Holder.
  assert (Hself : find (isOurUser (sender event))
                       (selfThenNewerInChunk direction events index) = Some event).
  { destruct direction; unfold selfThenNewerInChunk.
    - rewrite (skipn_nth_error _ _ _ Hnth). simpl. now rewrite Hours.
    - rewrite (firstn_nth_error _ _ _ Hnth), find_rev_snoc. now rewrite Hours. }
  now rewrite Hself.
Qed.

Lemma findMember_own_member_event_witness :
  Scenario.findMember "@bob:hs.tdl"
    (Some [Scenario.memberEvent "$s" "@bob:hs.tdl" "Bobby" None])
    [Scenario.message "$3"; Scenario.memberEvent "$2" "@bob:hs.tdl" "Bob" (Some "Robert");
     Scenario.message "$1"] (Z.of_nat 1) Direction.Backward
  = Scenario.fromReplacingMemberEvent Scenario.roomId
      (Scenario.memberEvent "$2" "@bob:hs.tdl" "Bob" (Some "Robert")).
Proof.
  exact (findMember_own_member_event
           Scenario.roomId Scenario.fromMemberEvent Scenario.fromReplacingMemberEvent
           (Some [Scenario.memberEvent "$s" "@bob:hs.tdl" "Bobby" None])
           [Scenario.message "$3";
            Scenario.memberEvent "$2" "@bob:hs.tdl" "Bob" (Some "Robert");
            Scenario.message "$1"] 1 Direction.Backward
           (Scenario.memberEvent "$2" "@bob:hs.tdl" "Bob" (Some "Robert"))
           eq_refl eq_refl eq_refl eq_refl).
Defined.

(** ** Overlap detection drops exactly the stored events *)

(** C6. In a store whose event ids are non-empty strings and whose events
    belong to stored fragments: when the first stored event of the remaining
    chunk is at index [i], one turn of the loop appends [remaining[0..i)] to
    the non-overlapping events and goes on with [remaining[i+1..)], whatever
    the expected overlapping event is; and the detector returns, as
    non-overlapping events, the chunk without its stored events, in order. *)
Theorem overlap_drops_duplicates
  (txn : Txn) (current linked : option Z) (direction : Direction.t)
  (events : list Event) :
  storedIdsNonEmpty txn ->
  eventsHaveFragments txn ->
  (forall fuel expected remaining acc neighbour d i,
      TimelineEventStore.findFirstOccurringEventId txn (map event_id remaining) = Some d ->
      findIndex (fun e => sameId (Some d) (event_id e)) remaining = Some i ->
      exists neighbour',
        overlapLoop (S fuel) expected direction txn remaining acc neighbour
        = overlapLoop fuel expected direction txn (skipn (S i) remaining)
                      (acc ++ firstn i remaining) neighbour')
  /\ exists neighbour,
      _findOverlappingEventsFor current linked direction events txn
      = Ok (mkOverlap (filter (notStored txn) events) neighbour).
Proof.
  intros Hids Hfrags. split.
  - intros fuel expected remaining acc neighbour d i.
    apply overlapLoop_duplicate; assumption.
  - unfold _findOverlappingEventsFor.
    set (expected := match linked with
                     | Some l => _findExpectedOverlappingEventId l direction txn
                     | None => None
                     end).
    destruct (overlapLoop_filter txn direction expected Hids Hfrags
                                 (List.length events) events [] None (le_n _))
      as (neighbour & Hloop).
    rewrite Hloop. simpl. eexists. reflexivity.
Qed.

Lemma overlap_drops_duplicates_witness :
  exists neighbour,
    _findOverlappingEventsFor (Some 7) None Direction.Backward
      [Scenario.message "$z"; Scenario.message "$b"; Scenario.message "$y";
       Scenario.message "$a"; Scenario.message "$x"]
      Timelines.twoEvents
    = Ok (mkOverlap [Scenario.message "$z"; Scenario.message "$y"; Scenario.message "$x"]
                    neighbour).
Proof.
  refine (proj2 (overlap_drops_duplicates
                   Timelines.twoEvents (Some 7) None Direction.Backward
                   [Scenario.message "$z"; Scenario.message "$b"; Scenario.message "$y";
                    Scenario.message "$a"; Scenario.message "$x"] eq_refl _)).
  intros r [Hr|[Hr|[]]]; subst r; vm_compute; discriminate.
Defined.

(** ** The token guard *)

(** C3. [writeFragmentFill] reloads the fragment and compares the token of
    the reloaded fragment, on the side being filled, with [response.start]:
    when they differ the call fails with the stale-token error, writing
    nothing; a call that succeeds had them equal. *)
Theorem fill_token_guard
  (roomId : string) (rw : RelationWriter)
  (fromMemberEvent fromReplacingMemberEvent : string -> Event -> option RoomMember.t)
  (fragmentEntry : FragmentBoundaryEntry.t) (response : MessagesResponse) (txn : Txn)
  (events : list Event) (endToken : string) (fragment : Fragment.t) :
  chunk response = Some events ->
  end_ response = Some endToken ->
  TimelineFragmentStore.get txn (FragmentBoundaryEntry.fragmentId fragmentEntry)
  = Some fragment ->
  (FragmentBoundaryEntry.token (FragmentBoundaryEntry.withUpdatedFragment fragmentEntry fragment)
   <> Some (start response) ->
   writeFragmentFill roomId rw fromMemberEvent fromReplacingMemberEvent
                     fragmentEntry response txn = Err StaleToken)
  /\ (forall res txn',
         writeFragmentFill roomId rw fromMemberEvent fromReplacingMemberEvent
                           fragmentEntry response txn = Ok (res, txn') ->
         FragmentBoundaryEntry.token
           (FragmentBoundaryEntry.withUpdatedFragment fragmentEntry fragment)
         = Some (start response)).
Proof.
  intros Hchunk Hend Hget. unfold writeFragmentFill. rewrite Hchunk, Hend, Hget.
  destruct (FragmentBoundaryEntry.token _) as [token|].
  - destruct (token =? start response) eqn:Hguard.
    + apply String.eqb_eq in Hguard. subst token. split; [congruence|reflexivity].
    + split; [reflexivity|discriminate].
  - split; [reflexivity|discriminate].
Qed.

Lemma fill_token_guard_witness :
  Scenario.fill (FragmentBoundaryEntry.start Timelines.F)
                (Build_MessagesResponse (Some [Scenario.message "$z"]) "old" (Some "u") None)
                Timelines.oneEvent
  = Err StaleToken.
Proof.
  refine (proj1 (fill_token_guard
                   Scenario.roomId Scenario.noRelations Scenario.fromMemberEvent
                   Scenario.fromReplacingMemberEvent
                   (FragmentBoundaryEntry.start Timelines.F)
                   (Build_MessagesResponse (Some [Scenario.message "$z"]) "old" (Some "u") None)
                   Timelines.oneEvent [Scenario.message "$z"] "u" Timelines.F
                   eq_refl eq_refl eq_refl) _).
  vm_compute. discriminate.
Defined.

(** ** Linking never overwrites *)


(** ** The edge of the timeline *)

(** C7. A response with an empty chunk that passes the token guard sets
    [edgeReached] on the reloaded fragment, stores that fragment, and returns
    the boundary entry alone: no updated entries, no changed fragments. No
    event is stored and the fragment's links stay as they were. *)
Theorem fill_empty_chunk_reaches_edge
  (roomId : string) (rw : RelationWriter)
  (fromMemberEvent fromReplacingMemberEvent : string -> Event -> option RoomMember.t)
  (fragmentEntry : FragmentBoundaryEntry.t) (response : MessagesResponse) (txn : Txn)
  (endToken : string) (fragment : Fragment.t) :
  chunk response = Some [] ->
  end_ response = Some endToken ->
  TimelineFragmentStore.get txn (FragmentBoundaryEntry.fragmentId fragmentEntry)
  = Some fragment ->
  FragmentBoundaryEntry.token (FragmentBoundaryEntry.withUpdatedFragment fragmentEntry fragment)
  = Some (start response) ->
  let reached :=
    FragmentBoundaryEntry.set_edgeReached
      (FragmentBoundaryEntry.withUpdatedFragment fragmentEntry fragment) true in
  let txn' := TimelineFragmentStore.update (FragmentBoundaryEntry.fragment reached) txn in
  writeFragmentFill roomId rw fromMemberEvent fromReplacingMemberEvent
                    fragmentEntry response txn
  = Ok (mkWriteResult [BoundaryEntry reached] [] [] None, txn')
  /\ Fragment.edgeReached (FragmentBoundaryEntry.fragment reached) = true
  /\ Fragment.previousId (FragmentBoundaryEntry.fragment reached) = Fragment.previousId fragment
  /\ Fragment.nextId (FragmentBoundaryEntry.fragment reached) = Fragment.nextId fragment
  /\ timelineEvents txn' = timelineEvents txn
  /\ TimelineFragmentStore.get txn' (FragmentBoundaryEntry.fragmentId fragmentEntry)
     = Some (FragmentBoundaryEntry.fragment reached)
  /\ (forall k, k <> FragmentBoundaryEntry.fragmentId fragmentEntry ->
                TimelineFragmentStore.get txn' k = TimelineFragmentStore.get txn k).
Proof.
  intros Hchunk Hend Hget Htok reached txn'.
  assert (Hid : Fragment.id (FragmentBoundaryEntry.fragment reached)
                = FragmentBoundaryEntry.fragmentId fragmentEntry).
  { apply get_id in Hget. exact Hget. }
  repeat split.
  - unfold writeFragmentFill. rewrite Hchunk, Hend, Hget, Htok, String.eqb_refl.
    reflexivity.
  - unfold txn'. rewrite <- Hid. apply get_update_same.
  - intros k Hk. unfold txn'. apply get_update_other. now rewrite Hid.
Qed.

Lemma fill_empty_chunk_reaches_edge_witness :
  exists txn',
    Scenario.fill (FragmentBoundaryEntry.start Timelines.F) Timelines.emptyPage
                  Timelines.oneEvent
    = Ok (mkWriteResult
            [BoundaryEntry (FragmentBoundaryEntry.set_edgeReached
                              (FragmentBoundaryEntry.start Timelines.F) true)] [] [] None,
          txn')
    /\ timelineEvents txn' = timelineEvents Timelines.oneEvent.
Proof.
  pose proof (fill_empty_chunk_reaches_edge
                Scenario.roomId Scenario.noRelations Scenario.fromMemberEvent
                Scenario.fromReplacingMemberEvent
                (FragmentBoundaryEntry.start Timelines.F) Timelines.emptyPage
                Timelines.oneEvent "u" Timelines.F eq_refl eq_refl eq_refl eq_refl) as H.
  eexists. split; [exact (proj1 H)|reflexivity].
Defined.

(** ** A context whose event is already stored *)

(** C9. When the chunks and tokens of a [/context] response are present and
    its central event is already stored, [writeContext] returns the stored
    entry as [contextEvent] with empty [entries], [updatedEntries] and
    [fragments], and leaves the transaction as it found it. *)
Theorem context_known_event_returns_early
  (roomId : string) (rw : RelationWriter)
  (fromMemberEvent fromReplacingMemberEvent : string -> Event -> option RoomMember.t)
  (response : ContextResponse) (txn : Txn)
  (eventsBefore eventsAfter : list Event) (eventEntry : EventStorageEntry.t) :
  events_before response = Some eventsBefore ->
  events_after response = Some eventsAfter ->
  truthy (ctx_start response) = true ->
  truthy (ctx_end response) = true ->
  TimelineEventStore.getByEventId txn (event_id (ctx_event response)) = Some eventEntry ->
  writeContext roomId rw fromMemberEvent fromReplacingMemberEvent response txn
  = Ok (mkWriteResult [] [] [] (Some (EventEntry eventEntry)), txn).
Proof.
  intros Hb Ha Hs He Hget. unfold writeContext.
  rewrite Hb, Ha, Hs, He, Hget. reflexivity.
Qed.

Lemma context_known_event_returns_early_witness :
  Scenario.context
    (Build_ContextResponse (Some [Scenario.message "$q"]) (Some []) (Scenario.message "$a")
                           None (Some "s") (Some "e"))
    Timelines.twoEvents
  = Ok (mkWriteResult [] [] [] (Some (EventEntry (Scenario.stored 1 10 "$a"))),
        Timelines.twoEvents).
Proof.
  exact (context_known_event_returns_early
           Scenario.roomId Scenario.noRelations Scenario.fromMemberEvent
           Scenario.fromReplacingMemberEvent
           (Build_ContextResponse (Some [Scenario.message "$q"]) (Some [])
                                  (Scenario.message "$a") None (Some "s") (Some "e"))
           Timelines.twoEvents [Scenario.message "$q"] [] (Scenario.stored 1 10 "$a")
           eq_refl eq_refl eq_refl eq_refl eq_refl).
Defined.

(** ** What a write leaves in the event store *)

Lemma hasEventId_rowIdentity (rows : list EventStorageEntry.t) (d : string) :
  TimelineEventStore.hasEventId rows d
  = existsb (fun i => snd i =? d) (map rowIdentity rows).
Proof.
  unfold TimelineEventStore.hasEventId.
  induction rows as [|r rows IH]; simpl; [reflexivity|]. now rewrite IH.
Qed.

Lemma hasEventId_identity (rows1 rows2 : list EventStorageEntry.t) (d : string) :
  map rowIdentity rows1 = map rowIdentity rows2 ->
  TimelineEventStore.hasEventId rows1 d = TimelineEventStore.hasEventId rows2 d.
Proof. intros H. now rewrite !hasEventId_rowIdentity, H. Qed.

Lemma hasEventId_app (rows : list EventStorageEntry.t) (r : EventStorageEntry.t)
      (d : string) :
  TimelineEventStore.hasEventId (rows ++ [r]) d
  = TimelineEventStore.hasEventId rows d || (EventStorageEntry.id r =? d).
Proof.
  unfold TimelineEventStore.hasEventId. rewrite existsb_app. simpl.
  now rewrite orb_false_r.
Qed.

Lemma updateFragments_events (fe : FragmentBoundaryEntry.t)
      (n : option FragmentBoundaryEntry.t) (tok : option string) (entries : list Entry)
      (txn txn' : Txn) (u : Updated) :
  _updateFragments fe n tok entries txn = Ok (u, txn') ->
  timelineEvents txn' = timelineEvents txn.
Proof.
  unfold _updateFragments. destruct n as [n|].
  - destruct (linkTo fe _) as [fe1|]; simpl; [|discriminate].
    destruct (linkTo n _) as [n1|]; simpl; [|discriminate].
    intros H. now inversion H.
  - intros H. now inversion H.
Qed.

Section Stores.
Variable roomId : string.
Variable rw : RelationWriter.
Variable fromMemberEvent fromReplacingMemberEvent : string -> Event -> option RoomMember.t.
Hypothesis Hrw : RelationWriterFrame rw.

Lemma stampedEventEntry_id (events : list Event) (state : option (list Event))
      (direction : Direction.t) (i : Z) (key : EventKey.t) (event : Event) :
  EventStorageEntry.id
    (stampedEventEntry roomId fromMemberEvent fromReplacingMemberEvent
                       events state direction i key event)
  = event_id event.
Proof.
  unfold stampedEventEntry. destruct (_findMember _ _ _ _ _ _ _ _); reflexivity.
Qed.

Lemma storeLoop_events (events : list Event) (state : option (list Event))
      (direction : Direction.t) (rest : list Event) :
  forall (i : Z) (key : EventKey.t) (entries updated : list Entry) (txn txn' : Txn)
         (s : Stored),
    storeLoop roomId rw fromMemberEvent fromReplacingMemberEvent
              events state direction rest i key entries updated txn = Ok (s, txn') ->
    (forall d, TimelineEventStore.hasEventId (timelineEvents txn) d = true ->
               TimelineEventStore.hasEventId (timelineEvents txn') d = true)
    /\ (forall e, In e rest ->
                  TimelineEventStore.hasEventId (timelineEvents txn') (event_id e) = true).
Proof.
  induction rest as [|event rest IH]; intros i key entries updated txn txn' s; simpl.
  - intros H. inversion H; subst. split; [auto|contradiction].
  - set (entry0 := stampedEventEntry roomId fromMemberEvent fromReplacingMemberEvent
                     events state direction i (EventKey.nextKeyForDirection key direction)
                     event).
    pose proof (rw_events Hrw entry0 direction txn) as Hev.
    pose proof (rw_entry Hrw entry0 direction txn) as Hent.
    destruct (writeGapRelation rw entry0 direction txn) as [[entry upd] txn1].
    simpl in Hev, Hent.
    destruct (TimelineEventStore.insert entry txn1) as [txn2|e] eqn:Hins; simpl;
      [|discriminate].
    apply insert_ok in Hins. intros H. destruct (IH _ _ _ _ _ _ _ H) as [Hkeep Hnew].
    assert (Hid : EventStorageEntry.id entry = event_id event).
    { apply (f_equal snd) in Hent. simpl in Hent.
      rewrite Hent. apply stampedEventEntry_id. }
    assert (Hstep : forall d,
               TimelineEventStore.hasEventId (timelineEvents txn2) d
               = TimelineEventStore.hasEventId (timelineEvents txn) d
                 || (event_id event =? d)).
    { intros d. subst txn2. simpl. rewrite hasEventId_app, Hid.
      now rewrite (hasEventId_identity _ _ d Hev). }
    split.
    + intros d Hd. apply Hkeep. rewrite Hstep, Hd. reflexivity.
    + intros e [He|He]; [|now apply Hnew].
      subst e. apply Hkeep. rewrite Hstep, String.eqb_refl. apply orb_true_r.
Qed.

Lemma linkOverlapping_stores_event (mainOverlap otherOverlap : Overlap) (event : Event)
      (token : option string) (state : option (list Event)) (txn txn' : Txn)
      (res : WriteResult) :
  _linkOverlapping roomId rw fromMemberEvent fromReplacingMemberEvent
                   mainOverlap otherOverlap event token state txn = Ok (res, txn') ->
  TimelineEventStore.hasEventId (timelineEvents txn') (event_id event) = true.
Proof.
  unfold _linkOverlapping.
  destruct (neighbourFragmentEntry mainOverlap) as [fe|]; [|discriminate].
  destruct (_storeEvents _ _ _ _ _ _ _ _ _) as [[stored txn1]|] eqn:Hstore; simpl;
    [|discriminate].
  destruct (_updateFragments _ _ _ _ _) as [[upd txn2]|] eqn:Hupd; simpl; [|discriminate].
  intros H. inversion H; subst.
  rewrite (updateFragments_events _ _ _ _ _ _ _ Hupd).
  unfold _storeEvents in Hstore.
  apply storeLoop_events in Hstore as [_ Hnew].
  apply Hnew. apply in_or_app. right. left. reflexivity.
Qed.

Lemma context_stores_event (response : ContextResponse) (txn txn' : Txn)
      (res : WriteResult) :
  writeContext roomId rw fromMemberEvent fromReplacingMemberEvent response txn
  = Ok (res, txn') ->
  TimelineEventStore.hasEventId (timelineEvents txn') (event_id (ctx_event response)) = true.
Proof.
  unfold writeContext.
  destruct (events_before response) as [eventsBefore|]; [|discriminate].
  destruct (events_after response) as [eventsAfter|]; [|discriminate].
  destruct (negb _ || negb _); [discriminate|].
  destruct (TimelineEventStore.getByEventId txn _) as [eventEntry|] eqn:Hget.
  - intros H. inversion H; subst.
    unfold TimelineEventStore.getByEventId in Hget. apply find_some in Hget as [Hin Hid].
    unfold TimelineEventStore.hasEventId. apply existsb_exists. eauto.
  - destruct (_findOverlappingEventsFor None None Direction.Backward _ _) as [up|];
      simpl; [|discriminate].
    destruct (_findOverlappingEventsFor None None Direction.Forward _ _) as [down|];
      simpl; [|discriminate].
    destruct (neighbourFragmentEntry up) as [nu|].
    + apply linkOverlapping_stores_event.
    + destruct (neighbourFragmentEntry down) as [nd|].
      * apply linkOverlapping_stores_event.
      * destruct (_createNewFragment roomId txn) as [[newFragment txn1]|]; simpl;
          [|discriminate].
        apply linkOverlapping_stores_event.
Qed.

Lemma context_twice (response : ContextResponse) (txn txn' : Txn) (res : WriteResult) :
  writeContext roomId rw fromMemberEvent fromReplacingMemberEvent response txn
  = Ok (res, txn') ->
  exists eventEntry,
    writeContext roomId rw fromMemberEvent fromReplacingMemberEvent response txn'
    = Ok (mkWriteResult [] [] [] (Some (EventEntry eventEntry)), txn').
Proof.
  intros H. pose proof (context_stores_event _ _ _ _ H) as Hstored.
  destruct (hasEventId_get _ _ Hstored) as (r & Hget & _).
  exists r. revert H. unfold writeContext.
  destruct (events_before response) as [eventsBefore|]; [|discriminate].
  destruct (events_after response) as [eventsAfter|]; [|discriminate].
  destruct (negb _ || negb _); [discriminate|].
  intros _. now rewrite Hget.
Qed.
End Stores.

(** ** Self-links *)

(** C1. The [/context] response for [$x], whose [events_before] and
    [events_after] both overlap the one stored fragment, is written
    successfully and leaves that fragment linked to itself: its [nextId] is
    its own [id]. The store had no self-link before. *)
Theorem context_links_fragment_to_itself :
  noSelfLink Timelines.twoEvents
  /\ exists res txn' f,
      writeContext Scenario.roomId Scenario.noRelations Scenario.fromMemberEvent
                   Scenario.fromReplacingMemberEvent Timelines.around_x Timelines.twoEvents
      = Ok (res, txn')
      /\ TimelineFragmentStore.get txn' 1 = Some f
      /\ Fragment.id f = 1
      /\ Fragment.nextId f = Some (Fragment.id f).
Proof.
  split.
  - intros k f Hk. unfold TimelineFragmentStore.get in Hk. simpl in Hk.
    destruct (TimelineFragmentStore.hasId k Timelines.G); [|discriminate].
    inversion Hk; subst. split; discriminate.
  - eexists _, _, _. split; [vm_compute; reflexivity|].
    split; [vm_compute; reflexivity|]. split; reflexivity.
Qed.

Section FillInvariants.
Variable roomId : string.
Variable rw : RelationWriter.
Variable fromMemberEvent fromReplacingMemberEvent : string -> Event -> option RoomMember.t.
Hypothesis Hrw : RelationWriterFrame rw.

(** A fill, whose overlap search drops the fragment being filled as a
    neighbour, never creates a self-link. *)
Lemma fill_preserves_noSelfLink (fragmentEntry : FragmentBoundaryEntry.t)
      (response : MessagesResponse) (txn txn' : Txn) (res : WriteResult) :
  noSelfLink txn ->
  writeFragmentFill roomId rw fromMemberEvent fromReplacingMemberEvent
                    fragmentEntry response txn = Ok (res, txn') ->
  noSelfLink txn'.
Proof.
  intros Hinv H.
  destruct (fill_effect _ _ _ _ Hrw _ _ _ _ _ H) as (fragment & Hget & _ & Heff).
  refine (fillEffect_noSelfLink _ _ _ _ _ _ Heff Hinv).
  unfold FragmentBoundaryEntry.withUpdatedFragment, FragmentBoundaryEntry.fragmentId. simpl.
  now rewrite (get_id _ _ _ Hget).
Qed.


End FillInvariants.

(** ** Tokens and gaps *)

Lemma oneEvent_tokenIffGap : tokenIffGap Timelines.oneEvent.
Proof.
  intros k f Hk s. unfold TimelineFragmentStore.get in Hk. simpl in Hk.
  destruct (TimelineFragmentStore.hasId k Timelines.F); [|discriminate].
  inversion Hk; subst.
  destruct s; vm_compute; split; try discriminate; intros [H|H]; discriminate.
Qed.


(** A chunk holding only events of the fragment being filled clears the
    token without linking the side or reaching the edge. *)
Lemma fill_own_events_clears_token :
  tokenIffGap Timelines.oneEvent
  /\ exists res txn',
      writeFragmentFill Scenario.roomId Scenario.noRelations Scenario.fromMemberEvent
                        Scenario.fromReplacingMemberEvent
                        (FragmentBoundaryEntry.start Timelines.F) Timelines.ownPage
                        Timelines.oneEvent
      = Ok (res, txn')
      /\ ~ tokenIffGap txn'.
Proof.
  split; [exact oneEvent_tokenIffGap|].
  eexists _, _. split; [vm_compute; reflexivity|].
  intros Hinv.
  specialize (Hinv 1 _ eq_refl true). vm_compute in Hinv.
  destruct Hinv as [Hinv _]. destruct (Hinv eq_refl); discriminate.
Qed.

(** A context that overlaps a fragment on one side only sets the token of
    that fragment's side even when the side is linked. *)
Lemma context_sets_token_on_linked_side :
  noLinkedGap Timelines.linked
  /\ exists res txn',
      writeContext Scenario.roomId Scenario.noRelations Scenario.fromMemberEvent
                   Scenario.fromReplacingMemberEvent Timelines.after_a Timelines.linked
      = Ok (res, txn')
      /\ ~ noLinkedGap txn'.
Proof.
  split.
  - intros k f Hk s. unfold TimelineFragmentStore.get in Hk. simpl in Hk.
    destruct (TimelineFragmentStore.hasId k Timelines.G1).
    + inversion Hk; subst. destruct s; vm_compute; [discriminate|reflexivity].
    + destruct (TimelineFragmentStore.hasId k Timelines.G2); [|discriminate].
      inversion Hk; subst. destruct s; vm_compute; [reflexivity|discriminate].
  - eexists _, _. split; [vm_compute; reflexivity|].
    intros Hinv. specialize (Hinv 1 _ eq_refl false eq_refl). discriminate.
Qed.



(** ** Writing a response twice *)

(** C5, as claimed, fails: the page of one new event is written into the
    one-fragment store, which moves the token of the filled side to
    [response.end]; writing the same page again is refused by the token
    guard. *)
Lemma fill_twice_is_refused :
  exists res txn',
    writeFragmentFill Scenario.roomId Scenario.noRelations Scenario.fromMemberEvent
                      Scenario.fromReplacingMemberEvent
                      (FragmentBoundaryEntry.start Timelines.F) Timelines.freshPage
                      Timelines.oneEvent
    = Ok (res, txn')
    /\ writeFragmentFill Scenario.roomId Scenario.noRelations Scenario.fromMemberEvent
                         Scenario.fromReplacingMemberEvent
                         (FragmentBoundaryEntry.start Timelines.F) Timelines.freshPage
                         txn'
       = Err StaleToken.
Proof.
  eexists _, _. split; vm_compute; reflexivity.
Qed.

Section Twice.
Variable roomId : string.
Variable rw : RelationWriter.
Variable fromMemberEvent fromReplacingMemberEvent : string -> Event -> option RoomMember.t.
Hypothesis Hrw : RelationWriterFrame rw.

Lemma fill_stale (fragmentEntry : FragmentBoundaryEntry.t) (response : MessagesResponse)
      (txn : Txn) (events : list Event) (endToken : string) (fragment : Fragment.t) :
  chunk response = Some events ->
  end_ response = Some endToken ->
  TimelineFragmentStore.get txn (FragmentBoundaryEntry.fragmentId fragmentEntry)
  = Some fragment ->
  FragmentBoundaryEntry.token (FragmentBoundaryEntry.withUpdatedFragment fragmentEntry fragment)
  <> Some (start response) ->
  writeFragmentFill roomId rw fromMemberEvent fromReplacingMemberEvent
                    fragmentEntry response txn = Err StaleToken.
Proof.
  intros Hchunk Hend Hget Hne. unfold writeFragmentFill. rewrite Hchunk, Hend, Hget.
  destruct (FragmentBoundaryEntry.token _) as [token|]; [|reflexivity].
  destruct (token =? start response) eqn:Hguard; [|reflexivity].
  apply String.eqb_eq in Hguard. congruence.
Qed.

Lemma fill_twice_stale (fragmentEntry : FragmentBoundaryEntry.t)
      (response : MessagesResponse) (txn txn' : Txn) (res : WriteResult) :
  writeFragmentFill roomId rw fromMemberEvent fromReplacingMemberEvent
                    fragmentEntry response txn = Ok (res, txn') ->
  chunk response <> Some [] ->
  end_ response <> Some (start response) ->
  writeFragmentFill roomId rw fromMemberEvent fromReplacingMemberEvent
                    fragmentEntry response txn' = Err StaleToken.
Proof.
  intros H Hchunk Hend.
  destruct (fill_effect _ _ _ _ Hrw _ _ _ _ _ H) as (fragment & Hget & Htok & Heff).
  apply get_id in Hget.
  assert (Hsome : exists events endToken,
             chunk response = Some events /\ end_ response = Some endToken).
  { revert H. unfold writeFragmentFill.
    destruct (chunk response) as [events|]; [|discriminate].
    destruct (end_ response) as [endToken|]; [|discriminate]. eauto. }
  destruct Hsome as (events & endToken & Hc & He).
  destruct Heff as [Hempty _ _ _ | tok _ Htokv Hfr _ | n fe1 n1 _ _ _ H1 _ Hfr _];
    [congruence| |].
  - eapply fill_stale; eauto.
    + rewrite (get_put1 _ _ _ _ Hfr).
      replace (_ =? _)%Z with true; [reflexivity|].
      symmetry. apply Z.eqb_eq.
      destruct fragmentEntry as [f0 [|]]; boundary; congruence.
    + destruct fragmentEntry as [f0 [|]]; boundary; destruct Htokv; congruence.
  - destruct (linkTo_shape _ _ _ H1) as (Hid1 & Hs1 & _).
    eapply fill_stale; eauto.
    + rewrite (get_put2 _ _ _ _ _ Hfr).
      replace (_ =? _)%Z with true; [reflexivity|].
      symmetry. apply Z.eqb_eq.
      destruct fe1 as [f1 [|]], fragmentEntry as [f0 b0]; boundary; congruence.
    + destruct fe1 as [f1 [|]], fragmentEntry as [f0 b0]; boundary; subst;
        discriminate.
Qed.

Lemma fill_twice_empty (fragmentEntry : FragmentBoundaryEntry.t)
      (response : MessagesResponse) (txn txn' : Txn) (res : WriteResult) :
  writeFragmentFill roomId rw fromMemberEvent fromReplacingMemberEvent
                    fragmentEntry response txn = Ok (res, txn') ->
  chunk response = Some [] ->
  writeFragmentFill roomId rw fromMemberEvent fromReplacingMemberEvent
                    fragmentEntry response txn' = Ok (res, txn').
Proof.
  intros H Hchunk. revert H. unfold writeFragmentFill. rewrite Hchunk.
  destruct (end_ response) as [endToken|]; [|discriminate].
  destruct (TimelineFragmentStore.get txn _) as [fragment|] eqn:Hget; [|discriminate].
  destruct (FragmentBoundaryEntry.token _) as [token|] eqn:Htok; [|discriminate].
  destruct (token =? start response) eqn:Hguard; [|discriminate].
  intros H. inversion H; subst res txn'; clear H.
  pose proof (get_id _ _ _ Hget) as Hid.
  set (reached := FragmentBoundaryEntry.fragment
                    (FragmentBoundaryEntry.set_edgeReached
                       (FragmentBoundaryEntry.withUpdatedFragment fragmentEntry fragment)
                       true)).
  assert (Hrid : Fragment.id reached = FragmentBoundaryEntry.fragmentId fragmentEntry)
    by exact Hid.
  rewrite <- Hrid at 1. rewrite get_update_same.
  assert (Hsame : FragmentBoundaryEntry.set_edgeReached
                    (FragmentBoundaryEntry.withUpdatedFragment fragmentEntry reached) true
                  = FragmentBoundaryEntry.set_edgeReached
                      (FragmentBoundaryEntry.withUpdatedFragment fragmentEntry fragment)
                      true)
    by reflexivity.
  assert (Htok' : FragmentBoundaryEntry.token
                    (FragmentBoundaryEntry.withUpdatedFragment fragmentEntry reached)
                  = Some token).
  { rewrite <- Htok. destruct fragmentEntry as [f0 [|]]; reflexivity. }
  rewrite Htok', Hguard, Hsame. fold reached.
  unfold TimelineFragmentStore.update, withFragments. simpl.
  now rewrite put_put_same.
Qed.

End Twice.

(** C5, amended. Writing the same [/context] response a second time succeeds
    by the early return and leaves the store as the first write left it.
    For [writeFragmentFill] the second write of a response with an empty
    chunk succeeds and changes nothing, while the second write of a response
    with a non-empty chunk whose [end] differs from its [start] is refused by
    the token guard, the first write having moved or cleared the token. *)
Theorem second_write_of_same_response
  (roomId : string) (rw : RelationWriter)
  (fromMemberEvent fromReplacingMemberEvent : string -> Event -> option RoomMember.t) :
  RelationWriterFrame rw ->
  (forall response txn res txn',
      writeContext roomId rw fromMemberEvent fromReplacingMemberEvent response txn
      = Ok (res, txn') ->
      exists eventEntry,
        writeContext roomId rw fromMemberEvent fromReplacingMemberEvent response txn'
        = Ok (mkWriteResult [] [] [] (Some (EventEntry eventEntry)), txn'))
  /\ (forall fragmentEntry response txn res txn',
         writeFragmentFill roomId rw fromMemberEvent fromReplacingMemberEvent
                           fragmentEntry response txn = Ok (res, txn') ->
         chunk response = Some [] ->
         writeFragmentFill roomId rw fromMemberEvent fromReplacingMemberEvent
                           fragmentEntry response txn' = Ok (res, txn'))
  /\ (forall fragmentEntry response txn res txn',
         writeFragmentFill roomId rw fromMemberEvent fromReplacingMemberEvent
                           fragmentEntry response txn = Ok (res, txn') ->
         chunk response <> Some [] ->
         end_ response <> Some (start response) ->
         writeFragmentFill roomId rw fromMemberEvent fromReplacingMemberEvent
                           fragmentEntry response txn' = Err StaleToken).
Proof.
  intros Hrw. split; [|split].
  - intros response txn res txn'. apply context_twice. exact Hrw.
  - intros fragmentEntry response txn res txn'. apply fill_twice_empty.
  - intros fragmentEntry response txn res txn'. apply fill_twice_stale. exact Hrw.
Qed.

Lemma second_write_of_same_response_witness :
  exists res txn' eventEntry,
    Scenario.context Timelines.around_x Timelines.twoEvents = Ok (res, txn')
    /\ Scenario.context Timelines.around_x txn'
       = Ok (mkWriteResult [] [] [] (Some (EventEntry eventEntry)), txn').
Proof.
  destruct (Scenario.context Timelines.around_x Timelines.twoEvents) as [[res txn']|e] eqn:H.
  - destruct (proj1 (second_write_of_same_response
                       Scenario.roomId Scenario.noRelations Scenario.fromMemberEvent
                       Scenario.fromReplacingMemberEvent noRelations_frame)
                    Timelines.around_x Timelines.twoEvents res txn' H) as (eventEntry & H2).
    exists res, txn', eventEntry. split; [reflexivity|exact H2].
  - vm_compute in H. discriminate H.
Defined.

(** ** Which neighbour the overlap search selects *)

Lemma first_stored_split (txn : Txn) (events : list Event) (e : Event) :
  find (isStored txn) events = Some e ->
  exists pre post,
    events = pre ++ e :: post
    /\ find (isStored txn) pre = None
    /\ isStored txn e = true
    /\ findIndex (fun x => sameId (Some (event_id e)) (event_id x)) events
       = Some (List.length pre).
Proof.
  unfold sameId.
  induction events as [|x events IH]; simpl; [discriminate|].
  destruct (isStored txn x) eqn:Hx.
  - intros H. inversion H; subst. exists [], events. rewrite String.eqb_refl. auto.
  - intros H. destruct (IH H) as (pre & post & Heq & Hpre & He & Hi).
    exists (x :: pre), post. simpl. rewrite Hx, Hi. subst events.
    repeat split; auto.
    destruct (event_id e =? event_id x) eqn:Hid; [|reflexivity].
    apply String.eqb_eq in Hid. unfold isStored in *. rewrite Hid in He. congruence.
Qed.

Lemma find_skip_prefix {A : Type} (p q : A -> bool) (pre post : list A) :
  find p pre = None ->
  find (fun x => p x && q x) (pre ++ post) = find (fun x => p x && q x) post.
Proof.
  induction pre as [|x pre IH]; simpl; [reflexivity|].
  destruct (p x); [discriminate|]. simpl. exact IH.
Qed.

Lemma filter_at_duplicate (txn : Txn) (pre post : list Event) (e : Event) :
  find (isStored txn) pre = None ->
  isStored txn e = true ->
  filter (notStored txn) (pre ++ e :: post) = pre ++ filter (notStored txn) post.
Proof.
  intros Hpre He. rewrite filter_app.
  change (filter (notStored txn) (e :: post))
    with (if notStored txn e then e :: filter (notStored txn) post
          else filter (notStored txn) post).
  unfold notStored at 2. rewrite He. simpl.
  f_equal. exact (filter_none _ _ Hpre).
Qed.

Lemma overlapLoop_no_duplicate (txn : Txn) (direction : Direction.t)
      (expected : option string) (fuel : nat) (remaining acc : list Event)
      (neighbour : option FragmentBoundaryEntry.t) :
  find (isStored txn) remaining = None ->
  overlapLoop (S fuel) expected direction txn remaining acc neighbour
  = Ok (acc ++ remaining, neighbour).
Proof.
  intros Hfind. destruct remaining as [|e0 rest] eqn:Hrem.
  - simpl. now rewrite app_nil_r.
  - cbn [overlapLoop]. rewrite <- Hrem in *.
    now rewrite findFirstOccurring_events, Hfind.
Qed.

Section Selection.
Variable txn : Txn.
Variable direction : Direction.t.
Variable expected : option string.
Hypothesis Hids : storedIdsNonEmpty txn.
Hypothesis Hfrags : eventsHaveFragments txn.

Lemma overlapLoop_at_duplicate (fuel : nat) (pre post acc : list Event) (e : Event)
      (neighbour : option FragmentBoundaryEntry.t) :
  find (isStored txn) pre = None ->
  isStored txn e = true ->
  findIndex (fun x => sameId (Some (event_id e)) (event_id x)) (pre ++ e :: post)
  = Some (List.length pre) ->
  overlapLoop (S fuel) expected direction txn (pre ++ e :: post) acc neighbour
  = overlapLoop fuel expected direction txn post (acc ++ pre)
      (match neighbour with
       | Some n => Some n
       | None => if mayLink expected e
                 then match lookupNeighbour direction (event_id e) txn with
                      | Ok n => Some n
                      | Err _ => None
                      end
                 else None
       end).
Proof.
  intros Hpre He Hi.
  assert (Hfirst : TimelineEventStore.findFirstOccurringEventId
                     txn (map event_id (pre ++ e :: post)) = Some (event_id e)).
  { rewrite findFirstOccurring_events.
    assert (Hf : find (isStored txn) (pre ++ e :: post) = Some e).
    { clear Hi. induction pre as [|x pre IH]; simpl in *.
      - now rewrite He.
      - destruct (isStored txn x); [discriminate|]. now apply IH. }
    now rewrite Hf. }
  assert (Hshape : exists x rest, pre ++ e :: post = x :: rest).
  { destruct pre; simpl; eauto. }
  destruct Hshape as (x & rest & Hshape).
  rewrite Hshape at 1. cbn [overlapLoop]. rewrite <- Hshape.
  rewrite Hfirst, (stored_truthy _ _ Hids He), Hi.
  rewrite firstn_app, firstn_all, Nat.sub_diag, app_nil_r.
  replace (skipn (S (List.length pre)) (pre ++ e :: post)) with post.
  2:{ replace (pre ++ e :: post) with ((pre ++ [e]) ++ post)
        by (rewrite <- app_assoc; reflexivity).
      replace (S (List.length pre)) with (List.length (pre ++ [e]))
        by (rewrite length_app; simpl; lia).
      rewrite skipn_app, skipn_all, Nat.sub_diag. reflexivity. }
  unfold mayLink.
  destruct (lookupNeighbour_ok _ direction _ Hfrags He) as (f & Hlook & _).
  destruct (negb (truthy expected)
            || match expected with Some x0 => event_id e =? x0 | None => false end);
    destruct neighbour as [n|]; simpl; try reflexivity.
  rewrite Hlook. reflexivity.
Qed.

Lemma overlapLoop_keeps_neighbour (fuel : nat) :
  forall (remaining acc : list Event) (n : FragmentBoundaryEntry.t),
    (List.length remaining <= fuel)%nat ->
    overlapLoop fuel expected direction txn remaining acc (Some n)
    = Ok (acc ++ filter (notStored txn) remaining, Some n).
Proof.
  induction fuel as [|fuel IH]; intros remaining acc n Hlen.
  - destruct remaining; [|simpl in Hlen; lia]. simpl. now rewrite app_nil_r.
  - destruct (find (isStored txn) remaining) as [e|] eqn:Hfind.
    + destruct (first_stored_split _ _ _ Hfind) as (pre & post & Heq & Hpre & He & Hi).
      subst remaining.
      rewrite (overlapLoop_at_duplicate fuel pre post acc e (Some n) Hpre He Hi).
      rewrite IH by (rewrite length_app in Hlen; simpl in Hlen; lia).
      rewrite (filter_at_duplicate _ _ _ _ Hpre He).
      now rewrite app_assoc.
    + rewrite overlapLoop_no_duplicate by exact Hfind.
      unfold notStored. now rewrite (filter_none _ _ Hfind).
Qed.

Lemma find_and_none {A : Type} (p q : A -> bool) (l : list A) :
  find p l = None -> find (fun x => p x && q x) l = None.
Proof.
  induction l as [|x l IH]; simpl; [reflexivity|].
  destruct (p x); [discriminate|]. simpl. exact IH.
Qed.

Lemma overlapLoop_selects (fuel : nat) :
  forall (remaining acc : list Event),
    (List.length remaining <= fuel)%nat ->
    overlapLoop fuel expected direction txn remaining acc None
    = Ok (acc ++ filter (notStored txn) remaining,
          selectedNeighbour txn direction expected remaining).
Proof.
  induction fuel as [|fuel IH]; intros remaining acc Hlen.
  - destruct remaining; [|simpl in Hlen; lia]. simpl. now rewrite app_nil_r.
  - destruct (find (isStored txn) remaining) as [e|] eqn:Hfind.
    + destruct (first_stored_split _ _ _ Hfind) as (pre & post & Heq & Hpre & He & Hi).
      subst remaining.
      rewrite (overlapLoop_at_duplicate fuel pre post acc e None Hpre He Hi).
      assert (Hlen' : (List.length post <= fuel)%nat)
        by (rewrite length_app in Hlen; simpl in Hlen; lia).
      assert (Hfilter : (acc ++ pre) ++ filter (notStored txn) post
                        = acc ++ filter (notStored txn) (pre ++ e :: post)).
      { rewrite (filter_at_duplicate _ _ _ _ Hpre He). now rewrite app_assoc. }
      unfold selectedNeighbour at 1.
      rewrite (find_skip_prefix (isStored txn) (mayLink expected) pre (e :: post) Hpre).
      cbn [find]. rewrite He. cbn [andb].
      destruct (lookupNeighbour_ok _ direction _ Hfrags He) as (f & Hlook & _).
      destruct (mayLink expected e).
      * rewrite Hlook. rewrite overlapLoop_keeps_neighbour by exact Hlen'.
        now rewrite Hfilter.
      * rewrite IH by exact Hlen'. rewrite Hfilter. reflexivity.
    + rewrite overlapLoop_no_duplicate by exact Hfind.
      unfold notStored. rewrite (filter_none _ _ Hfind).
      unfold selectedNeighbour. now rewrite (find_and_none _ _ _ Hfind).
Qed.
End Selection.

Lemma findOverlappingEventsFor_selects
  (txn : Txn) (current linked : option Z) (direction : Direction.t)
  (events : list Event) :
  storedIdsNonEmpty txn ->
  eventsHaveFragments txn ->
  _findOverlappingEventsFor current linked direction events txn
  = Ok (mkOverlap
          (filter (notStored txn) events)
          (match selectedNeighbour txn direction
                   (match linked with
                    | Some l => _findExpectedOverlappingEventId l direction txn
                    | None => None
                    end) events with
           | Some n =>
               match current with
               | Some c => if (FragmentBoundaryEntry.fragmentId n =? c)%Z
                           then None else Some n
               | None => Some n
               end
           | None => None
           end)).
Proof.
  intros Hids Hfrags. unfold _findOverlappingEventsFor.
  rewrite (overlapLoop_selects txn direction _ Hids Hfrags
                               (List.length events) events [] (le_n _)).
  reflexivity.
Qed.

(** X1. In a store whose event ids are non-empty and whose events belong to
    stored fragments, the overlap search returns the chunk without its stored
    events together with this neighbour: the fragment of the first stored
    event of the chunk when no overlapping event is expected, the fragment of
    the first stored event with the expected id otherwise, seen from the side
    facing the fill, and nothing when that fragment is the current one. *)
Theorem overlap_selects_first_acceptable_duplicate
  (txn : Txn) (current linked : option Z) (direction : Direction.t)
  (events : list Event) :
  storedIdsNonEmpty txn ->
  eventsHaveFragments txn ->
  let expected :=
    match linked with
    | Some l => _findExpectedOverlappingEventId l direction txn
    | None => None
    end in
  _findOverlappingEventsFor current linked direction events txn
  = Ok (mkOverlap
          (filter (notStored txn) events)
          (match selectedNeighbour txn direction expected events with
           | Some n =>
               match current with
               | Some c => if (FragmentBoundaryEntry.fragmentId n =? c)%Z
                           then None else Some n
               | None => Some n
               end
           | None => None
           end)).
Proof.
  intros Hids Hfrags expected.
  exact (findOverlappingEventsFor_selects txn current linked direction events Hids Hfrags).
Qed.

Lemma overlap_selects_first_acceptable_duplicate_witness :
  _findOverlappingEventsFor (Some 2) None Direction.Backward
    [Scenario.message "$b"; Scenario.message "$a"; Scenario.message "$c"] Timelines.apart
  = Ok (mkOverlap [Scenario.message "$b"]
                  (Some (FragmentBoundaryEntry.end_ Timelines.A1))).
Proof.
  refine (eq_trans
            (overlap_selects_first_acceptable_duplicate
               Timelines.apart (Some 2) None Direction.Backward
               [Scenario.message "$b"; Scenario.message "$a"; Scenario.message "$c"]
               eq_refl _) _).
  - intros r [Hr|[Hr|[]]]; subst r; vm_compute; discriminate.
  - vm_compute. reflexivity.
Defined.

(** ** The rows and entries of [_storeEvents] *)

Lemma plannedRows_app (key : EventKey.t) (direction : Direction.t) (e : Event)
      (events : list Event) :
  plannedRows key direction (e :: events)
  = ((EventKey.fragmentId key,
      EventKey.eventIndex (EventKey.nextKeyForDirection key direction)), event_id e)
      :: plannedRows (EventKey.nextKeyForDirection key direction) direction events.
Proof. destruct direction; reflexivity. Qed.

Lemma plannedRows_indices (direction : Direction.t) (events : list Event) :
  forall key,
    map (fun row => snd (fst row)) (plannedRows key direction events)
    = map (fun i => if Direction.isForward direction
                    then EventKey.eventIndex key + 1 + Z.of_nat i
                    else EventKey.eventIndex key - 1 - Z.of_nat i)
          (seq 0 (List.length events)).
Proof.
  induction events as [|e events IH]; intros key; [reflexivity|].
  cbn [plannedRows List.length seq map fst snd]. rewrite IH, <- seq_shift, map_map.
  destruct direction; simpl; (f_equal; [lia|]); apply map_ext; intros i; lia.
Qed.

Lemma plannedRows_fragment (direction : Direction.t) (events : list Event) :
  forall key row,
    In row (plannedRows key direction events) ->
    fst (fst row) = EventKey.fragmentId key.
Proof.
  induction events as [|e events IH]; intros key row; simpl; [contradiction|].
  intros [H|H].
  - subst row. destruct direction; reflexivity.
  - rewrite (IH _ _ H). destruct direction; reflexivity.
Qed.

Lemma rev_descending (base : Z) (n : nat) :
  rev (map (fun i => base - 1 - Z.of_nat i) (seq 0 n))
  = map (fun i => base - Z.of_nat n + Z.of_nat i) (seq 0 n).
Proof.
  induction n as [|n IH]; [reflexivity|].
  rewrite seq_S at 1. rewrite map_app, rev_app_distr. simpl rev. simpl app.
  rewrite IH. cbn [seq map]. rewrite <- seq_shift, map_map.
  f_equal; [lia|]. apply map_ext. intros i. lia.
Qed.

Section StoreEvents.
Variable roomId : string.
Variable rw : RelationWriter.
Variable fromMemberEvent fromReplacingMemberEvent : string -> Event -> option RoomMember.t.
Hypothesis Hrw : RelationWriterFrame rw.

Lemma stampedEventEntry_identity (events : list Event) (state : option (list Event))
      (direction : Direction.t) (i : Z) (key : EventKey.t) (event : Event) :
  rowIdentity (stampedEventEntry roomId fromMemberEvent fromReplacingMemberEvent
                                 events state direction i key event)
  = ((EventKey.fragmentId key, EventKey.eventIndex key), event_id event).
Proof.
  unfold stampedEventEntry. destruct (_findMember _ _ _ _ _ _ _ _); reflexivity.
Qed.

Lemma storeLoop_rows (events : list Event) (state : option (list Event))
      (direction : Direction.t) (rest : list Event) :
  forall (i : Z) (key : EventKey.t) (acc updated : list Entry) (txn txn' : Txn)
         (s : Stored),
    storeLoop roomId rw fromMemberEvent fromReplacingMemberEvent
              events state direction rest i key acc updated txn = Ok (s, txn') ->
    map rowIdentity (timelineEvents txn')
    = map rowIdentity (timelineEvents txn) ++ plannedRows key direction rest
    /\ exists rows,
        map rowIdentity rows = plannedRows key direction rest
        /\ entries s
           = if Direction.isForward direction
             then acc ++ map EventEntry rows
             else map EventEntry (rev rows) ++ acc.
Proof.
  induction rest as [|event rest IH]; intros i key acc updated txn txn' s.
  - simpl. intros H. inversion H; subst. simpl. rewrite app_nil_r. split; [reflexivity|].
    exists []. split; [reflexivity|]. destruct direction; simpl; now rewrite ?app_nil_r.
  - cbn [storeLoop].
    set (k := EventKey.nextKeyForDirection key direction).
    set (entry0 := stampedEventEntry roomId fromMemberEvent fromReplacingMemberEvent
                     events state direction i k event).
    pose proof (rw_events Hrw entry0 direction txn) as Hev.
    pose proof (rw_entry Hrw entry0 direction txn) as Hent.
    destruct (writeGapRelation rw entry0 direction txn) as [[entry upd] txn1].
    simpl in Hev, Hent.
    destruct (TimelineEventStore.insert entry txn1) as [txn2|e] eqn:Hins; simpl;
      [|discriminate].
    apply insert_ok in Hins. intros H.
    destruct (IH _ _ _ _ _ _ _ H) as (Hrows & rows & Hid & Hentries).
    assert (Hrow : rowIdentity entry
                   = ((EventKey.fragmentId k, EventKey.eventIndex k), event_id event)).
    { rewrite Hent. apply stampedEventEntry_identity. }
    split.
    + rewrite Hrows. subst txn2. simpl. rewrite map_app, Hev. simpl.
      rewrite Hrow, <- app_assoc. reflexivity.
    + exists (entry :: rows). split.
      * simpl. rewrite Hrow, Hid. reflexivity.
      * rewrite Hentries. unfold directionalAppend.
        destruct (Direction.isForward direction); simpl.
        -- now rewrite <- app_assoc.
        -- rewrite map_app, <- app_assoc. reflexivity.
Qed.
End StoreEvents.

(** X2. With a relation writer that keeps to the relation fields, a
    successful [_storeEvents] appends one row per event to the event store,
    the i-th event at the i-th next key after the start key in the direction
    of the fill; it returns the entries of these rows in ascending key order
    whatever the direction, that is in chronological order; and it leaves the
    fragments alone. *)
Theorem storeEvents_rows_in_key_order
  (roomId : string) (rw : RelationWriter)
  (fromMemberEvent fromReplacingMemberEvent : string -> Event -> option RoomMember.t)
  (events : list Event) (startKey : EventKey.t) (direction : Direction.t)
  (state : option (list Event)) (txn txn' : Txn) (s : Stored) :
  RelationWriterFrame rw ->
  _storeEvents roomId rw fromMemberEvent fromReplacingMemberEvent
               events startKey direction state txn = Ok (s, txn') ->
  map rowIdentity (timelineEvents txn')
  = map rowIdentity (timelineEvents txn) ++ plannedRows startKey direction events
  /\ map entryIdentity (entries s)
     = map Some (if Direction.isForward direction
                 then plannedRows startKey direction events
                 else rev (plannedRows startKey direction events))
  /\ map entryIndex (entries s)
     = map (fun i => Some ((if Direction.isForward direction
                            then EventKey.eventIndex startKey + 1
                            else EventKey.eventIndex startKey
                                 - Z.of_nat (List.length events))
                           + Z.of_nat i))
           (seq 0 (List.length events))
  /\ timelineFragments txn' = timelineFragments txn.
Proof.
  intros Hrw H.
  pose proof (storeEvents_fragments _ _ _ _ Hrw _ _ _ _ _ _ _ H) as Hfr.
  unfold _storeEvents in H.
  destruct (storeLoop_rows _ _ _ _ Hrw _ _ _ _ _ _ _ _ _ _ _ H)
    as (Hrows & rows & Hid & Hentries).
  simpl in Hentries.
  assert (Hidx : forall l, map entryIndex (map EventEntry l)
                           = map Some (map (fun row => snd (fst row)) (map rowIdentity l))).
  { intros l. rewrite !map_map. reflexivity. }
  assert (Hide : forall l, map entryIdentity (map EventEntry l)
                           = map Some (map rowIdentity l)).
  { intros l. rewrite !map_map. reflexivity. }
  repeat split; auto.
  - rewrite Hentries. destruct direction; simpl.
    + now rewrite Hide, Hid.
    + now rewrite app_nil_r, Hide, map_rev, Hid.
  - rewrite Hentries. destruct direction; cbn [Direction.isForward].
    + rewrite Hidx, Hid, plannedRows_indices, map_map. reflexivity.
    + rewrite app_nil_r, Hidx, map_rev, Hid, map_rev, plannedRows_indices.
      cbn [Direction.isForward]. rewrite rev_descending, map_map. reflexivity.
Qed.

Lemma storeEvents_rows_in_key_order_witness :
  exists s txn',
    _storeEvents Scenario.roomId Scenario.noRelations Scenario.fromMemberEvent
                 Scenario.fromReplacingMemberEvent
                 [Scenario.message "$3"; Scenario.message "$2"; Scenario.message "$1"]
                 (EventKey.mk 1 10) Direction.Backward None Timelines.oneEvent
    = Ok (s, txn')
    /\ map entryIdentity (entries s)
       = [Some ((1, 7), "$1"); Some ((1, 8), "$2"); Some ((1, 9), "$3")].
Proof.
  destruct (_storeEvents Scenario.roomId Scenario.noRelations Scenario.fromMemberEvent
              Scenario.fromReplacingMemberEvent
              [Scenario.message "$3"; Scenario.message "$2"; Scenario.message "$1"]
              (EventKey.mk 1 10) Direction.Backward None Timelines.oneEvent)
    as [[s txn']|e] eqn:H.
  - exists s, txn'. split; [reflexivity|].
    exact (proj1 (proj2 (storeEvents_rows_in_key_order
                           Scenario.roomId Scenario.noRelations Scenario.fromMemberEvent
                           Scenario.fromReplacingMemberEvent _ _ _ _ _ _ _
                           noRelations_frame H))).
  - vm_compute in H. discriminate H.
Defined.

(** ** The edge key of a fragment *)

Section PickBy.
Variable better : Z -> Z -> bool.
Variable le : Z -> Z -> Prop.
Hypothesis le_refl : forall x, le x x.
Hypothesis le_trans : forall x y z, le x y -> le y z -> le x z.
Hypothesis better_le : forall x y, better x y = true -> le x y.
Hypothesis worse_le : forall x y, better x y = false -> le y x.

Lemma pickBy_fold (rows : list EventStorageEntry.t) :
  forall (best : option EventStorageEntry.t),
    match fold_left (fun best r =>
            match best with
            | None => Some r
            | Some b => if better (EventStorageEntry.eventIndex r)
                                  (EventStorageEntry.eventIndex b)
                        then Some r else Some b
            end) rows best with
    | Some r =>
        (In r rows \/ best = Some r)
        /\ (forall r', In r' rows ->
                       le (EventStorageEntry.eventIndex r) (EventStorageEntry.eventIndex r'))
        /\ (forall b, best = Some b ->
                      le (EventStorageEntry.eventIndex r) (EventStorageEntry.eventIndex b))
    | None => rows = [] /\ best = None
    end.
Proof.
  induction rows as [|x rows IH]; intros best; simpl.
  - destruct best as [b|]; [|auto].
    split; [now right|]. split; [contradiction|].
    intros b' Hb. inversion Hb; subst. apply le_refl.
  - destruct best as [b|].
    + destruct (better (EventStorageEntry.eventIndex x) (EventStorageEntry.eventIndex b))
        eqn:Hbet.
      * specialize (IH (Some x)). destruct (fold_left _ rows (Some x)) as [r|];
          [|destruct IH; discriminate].
        destruct IH as (Hin & Hall & Hbest). repeat split.
        -- left. destruct Hin as [Hin|Hin]; [now right|]. inversion Hin. now left.
        -- intros r' [Hr'|Hr']; [subst r'; now apply Hbest|now apply Hall].
        -- intros b' Hb. inversion Hb; subst b'.
           eapply le_trans; [apply (Hbest x eq_refl)|]. now apply better_le.
      * specialize (IH (Some b)). destruct (fold_left _ rows (Some b)) as [r|];
          [|destruct IH; discriminate].
        destruct IH as (Hin & Hall & Hbest). repeat split.
        -- destruct Hin as [Hin|Hin]; [left; now right|now right].
        -- intros r' [Hr'|Hr']; [subst r'|now apply Hall].
           eapply le_trans; [apply (Hbest b eq_refl)|]. now apply worse_le.
        -- intros b' Hb. inversion Hb; subst b'. now apply Hbest.
    + specialize (IH (Some x)). destruct (fold_left _ rows (Some x)) as [r|];
        [|destruct IH; discriminate].
      destruct IH as (Hin & Hall & Hbest). repeat split.
      * left. destruct Hin as [Hin|Hin]; [now right|]. inversion Hin. now left.
      * intros r' [Hr'|Hr']; [subst r'; now apply Hbest|now apply Hall].
      * discriminate.
Qed.
End PickBy.

Lemma firstEvent_least (txn : Txn) (fragmentId : Z) :
  match TimelineEventStore.firstEvent txn fragmentId with
  | Some r =>
      EventStorageEntry.fragmentId r = fragmentId
      /\ forall r', In r' (timelineEvents txn) ->
                    EventStorageEntry.fragmentId r' = fragmentId ->
                    EventStorageEntry.eventIndex r <= EventStorageEntry.eventIndex r'
  | None => forall r', In r' (timelineEvents txn) ->
                       EventStorageEntry.fragmentId r' <> fragmentId
  end.
Proof.
  unfold TimelineEventStore.firstEvent, TimelineEventStore.pickBy.
  pose proof (pickBy_fold Z.ltb Z.le Z.le_refl Z.le_trans
                (fun x y H => Z.lt_le_incl _ _ (proj1 (Z.ltb_lt x y) H))
                (fun x y H => proj1 (Z.ltb_ge x y) H)
                (filter (TimelineEventStore.inFragment fragmentId) (timelineEvents txn))
                None) as H.
  destruct (fold_left _ _ None) as [r|].
  - destruct H as ([Hin|Hin] & Hall & _); [|discriminate].
    apply filter_In in Hin as [Hin Hfr]. split.
    + now apply Z.eqb_eq in Hfr.
    + intros r' Hr' Hf. apply Hall. apply filter_In. split; [exact Hr'|].
      now apply Z.eqb_eq.
  - destruct H as [Hnil _]. intros r' Hr' Hf.
    assert (Hin : In r' (filter (TimelineEventStore.inFragment fragmentId)
                                (timelineEvents txn))).
    { apply filter_In. split; [exact Hr'|]. now apply Z.eqb_eq. }
    rewrite Hnil in Hin. contradiction.
Qed.

Lemma lastEvent_greatest (txn : Txn) (fragmentId : Z) :
  match TimelineEventStore.lastEvent txn fragmentId with
  | Some r =>
      EventStorageEntry.fragmentId r = fragmentId
      /\ forall r', In r' (timelineEvents txn) ->
                    EventStorageEntry.fragmentId r' = fragmentId ->
                    EventStorageEntry.eventIndex r' <= EventStorageEntry.eventIndex r
  | None => forall r', In r' (timelineEvents txn) ->
                       EventStorageEntry.fragmentId r' <> fragmentId
  end.
Proof.
  unfold TimelineEventStore.lastEvent, TimelineEventStore.pickBy.
  pose proof (pickBy_fold Z.gtb (fun x y => y <= x) Z.le_refl
                (fun x y z Hxy Hyz => Z.le_trans _ _ _ Hyz Hxy)
                (fun x y H => Z.lt_le_incl _ _ (proj1 (Z.gtb_lt x y) H))
                (fun x y H => ltac:(rewrite Z.gtb_ltb in H; apply Z.ltb_ge in H; exact H))
                (filter (TimelineEventStore.inFragment fragmentId) (timelineEvents txn))
                None) as H.
  destruct (fold_left _ _ None) as [r|].
  - destruct H as ([Hin|Hin] & Hall & _); [|discriminate].
    apply filter_In in Hin as [Hin Hfr]. split.
    + now apply Z.eqb_eq in Hfr.
    + intros r' Hr' Hf. apply Hall. apply filter_In. split; [exact Hr'|].
      now apply Z.eqb_eq.
  - destruct H as [Hnil _]. intros r' Hr' Hf.
    assert (Hin : In r' (filter (TimelineEventStore.inFragment fragmentId)
                                (timelineEvents txn))).
    { apply filter_In. split; [exact Hr'|]. now apply Z.eqb_eq. }
    rewrite Hnil in Hin. contradiction.
Qed.

Lemma hasKey_false (rows : list EventStorageEntry.t) (fragmentId eventIndex : Z) :
  (forall r, In r rows -> EventStorageEntry.fragmentId r = fragmentId ->
             EventStorageEntry.eventIndex r <> eventIndex) ->
  TimelineEventStore.hasKey rows fragmentId eventIndex = false.
Proof.
  intros H. unfold TimelineEventStore.hasKey.
  destruct (existsb _ rows) eqn:Hex; [|reflexivity].
  apply existsb_exists in Hex as (r & Hin & Hr).
  apply andb_true_iff in Hr as [Hf Hi].
  apply Z.eqb_eq in Hf. apply Z.eqb_eq in Hi. exfalso. exact (H r Hin Hf Hi).
Qed.

Lemma edgeKey_fresh
  (fragmentEntry : FragmentBoundaryEntry.t) (txn : Txn) (events : list Event)
  (row : (Z * Z) * string) :
  In row (plannedRows (_findFragmentEdgeEventKey fragmentEntry txn)
                      (FragmentBoundaryEntry.direction fragmentEntry) events) ->
  fst (fst row) = FragmentBoundaryEntry.fragmentId fragmentEntry
  /\ TimelineEventStore.hasKey (timelineEvents txn) (fst (fst row)) (snd (fst row)) = false.
Proof.
  intros Hrow.
  set (key := _findFragmentEdgeEventKey fragmentEntry txn) in *.
  set (fid := FragmentBoundaryEntry.fragmentId fragmentEntry).
  assert (Hidx : exists i : nat,
             snd (fst row)
             = if Direction.isForward (FragmentBoundaryEntry.direction fragmentEntry)
               then EventKey.eventIndex key + 1 + Z.of_nat i
               else EventKey.eventIndex key - 1 - Z.of_nat i).
  { apply (in_map (fun row => snd (fst row))) in Hrow.
    rewrite plannedRows_indices in Hrow. apply in_map_iff in Hrow as (i & Hi & _).
    exists i. now rewrite Hi. }
  destruct Hidx as (i & Hidx).
  pose proof (plannedRows_fragment _ _ _ _ Hrow) as Hfrag.
  assert (Hkey : EventKey.fragmentId key = fid
                 /\ forall r, In r (timelineEvents txn) ->
                              EventStorageEntry.fragmentId r = fid ->
                              if Direction.isForward
                                   (FragmentBoundaryEntry.direction fragmentEntry)
                              then EventStorageEntry.eventIndex r <= EventKey.eventIndex key
                              else EventKey.eventIndex key <= EventStorageEntry.eventIndex r).
  { unfold key, _findFragmentEdgeEventKey, _findFragmentEdgeEvent. fold fid.
    destruct (FragmentBoundaryEntry.direction fragmentEntry); simpl.
    - pose proof (lastEvent_greatest txn fid) as H.
      destruct (TimelineEventStore.lastEvent txn fid) as [r|]; simpl.
      + destruct H as [Hf Hall]. split; [exact Hf|exact Hall].
      + split; [reflexivity|]. intros r Hr Hf. exfalso. exact (H r Hr Hf).
    - pose proof (firstEvent_least txn fid) as H.
      destruct (TimelineEventStore.firstEvent txn fid) as [r|]; simpl.
      + destruct H as [Hf Hall]. split; [exact Hf|exact Hall].
      + split; [reflexivity|]. intros r Hr Hf. exfalso. exact (H r Hr Hf). }
  destruct Hkey as [Hkf Hbound]. rewrite Hfrag, Hkf. split; [reflexivity|].
  apply hasKey_false. intros r Hr Hf Heq. specialize (Hbound r Hr Hf).
  rewrite Hidx in Heq.
  destruct (Direction.isForward (FragmentBoundaryEntry.direction fragmentEntry)); lia.
Qed.

(** X3. The key [_findFragmentEdgeEventKey] returns lies in the fragment of
    the boundary entry, at or beyond every stored event of that fragment on
    the side of the entry; so none of the keys at which [_storeEvents] then
    writes, moving away from it in the entry's direction, is the key of a
    stored event. *)
Theorem edge_key_leaves_fresh_keys
  (fragmentEntry : FragmentBoundaryEntry.t) (txn : Txn) (events : list Event)
  (row : (Z * Z) * string) :
  In row (plannedRows (_findFragmentEdgeEventKey fragmentEntry txn)
                      (FragmentBoundaryEntry.direction fragmentEntry) events) ->
  fst (fst row) = FragmentBoundaryEntry.fragmentId fragmentEntry
  /\ TimelineEventStore.hasKey (timelineEvents txn) (fst (fst row)) (snd (fst row)) = false.
Proof. exact (edgeKey_fresh fragmentEntry txn events row). Qed.

Lemma edge_key_leaves_fresh_keys_witness :
  TimelineEventStore.hasKey (timelineEvents Timelines.twoEvents) 1 13 = false.
Proof.
  exact (proj2 (edge_key_leaves_fresh_keys
                  (FragmentBoundaryEntry.end_ Timelines.G) Timelines.twoEvents
                  [Scenario.message "$x"; Scenario.message "$y"] ((1, 13), "$y")
                  (or_intror (or_introl eq_refl)))).
Defined.

(** ** Mutual links across a fill *)

Lemma mutual_after_relabel (txn txn' : Txn) (F F' : Fragment.t) :
  TimelineFragmentStore.get txn (Fragment.id F) = Some F ->
  Fragment.id F' = Fragment.id F ->
  (forall s, linkOf F' s = linkOf F s) ->
  (forall k, TimelineFragmentStore.get txn' k
             = if (k =? Fragment.id F)%Z then Some F' else TimelineFragmentStore.get txn k) ->
  mutualLinks txn -> mutualLinks txn'.
Proof.
  intros HF Hid Hlinks Hget Hinv k f s g Hk Hl.
  rewrite Hget in Hk.
  assert (Hpre : exists h, TimelineFragmentStore.get txn g = Some h
                           /\ linkOf h (negb s) = Some (Fragment.id f)).
  { destruct (k =? Fragment.id F)%Z.
    - inversion Hk; subst f. rewrite Hlinks in Hl. rewrite Hid.
      exact (Hinv _ _ _ _ HF Hl).
    - exact (Hinv _ _ _ _ Hk Hl). }
  destruct Hpre as (h & Hh & Hback).
  rewrite Hget. destruct (g =? Fragment.id F)%Z eqn:Hg.
  - apply Z.eqb_eq in Hg. subst g. exists F'. split; [reflexivity|].
    rewrite Hlinks. congruence.
  - exists h. auto.
Qed.

Lemma mutual_after_link (txn txn' : Txn) (F N F' N' : Fragment.t) (s0 : bool) :
  TimelineFragmentStore.get txn (Fragment.id F) = Some F ->
  TimelineFragmentStore.get txn (Fragment.id N) = Some N ->
  Fragment.id N <> Fragment.id F ->
  Fragment.id F' = Fragment.id F ->
  Fragment.id N' = Fragment.id N ->
  linkOf F' s0 = Some (Fragment.id N) ->
  linkOf F' (negb s0) = linkOf F (negb s0) ->
  (linkOf F s0 = None \/ linkOf F s0 = Some (Fragment.id N)) ->
  linkOf N' (negb s0) = Some (Fragment.id F) ->
  linkOf N' s0 = linkOf N s0 ->
  (linkOf N (negb s0) = None \/ linkOf N (negb s0) = Some (Fragment.id F)) ->
  (forall k, TimelineFragmentStore.get txn' k
             = if (k =? Fragment.id F)%Z then Some F'
               else if (k =? Fragment.id N)%Z then Some N'
                    else TimelineFragmentStore.get txn k) ->
  mutualLinks txn -> mutualLinks txn'.
Proof.
  intros HF HN Hne HidF HidN HF1 HF2 HF0 HN1 HN2 HN0 Hget Hinv k f s g Hk Hl.
  assert (Hnf : (Fragment.id N =? Fragment.id F)%Z = false) by now apply Z.eqb_neq.
  (* the fragment [g] as it is stored afterwards, given what it was before *)
  assert (Hafter : forall h,
             TimelineFragmentStore.get txn g = Some h ->
             linkOf h (negb s) = Some (Fragment.id f) ->
             (g = Fragment.id F -> linkOf F' (negb s) = linkOf F (negb s)) ->
             (g = Fragment.id N -> linkOf N' (negb s) = linkOf N (negb s)) ->
             exists h', TimelineFragmentStore.get txn' g = Some h'
                        /\ linkOf h' (negb s) = Some (Fragment.id f)).
  { intros h Hh Hback HkeepF HkeepN. rewrite Hget.
    destruct (g =? Fragment.id F)%Z eqn:HgF.
    - apply Z.eqb_eq in HgF. exists F'. split; [reflexivity|].
      rewrite (HkeepF HgF). subst g. congruence.
    - destruct (g =? Fragment.id N)%Z eqn:HgN.
      + apply Z.eqb_eq in HgN. exists N'. split; [reflexivity|].
        rewrite (HkeepN HgN). subst g. congruence.
      + exists h. auto. }
  rewrite Hget in Hk.
  destruct (k =? Fragment.id F)%Z eqn:HkF.
  - (* the filled fragment *)
    inversion Hk; subst f. rewrite HidF.
    destruct (Bool.bool_dec s s0) as [Hs|Hs].
    + subst s. rewrite HF1 in Hl. inversion Hl; subst g.
      exists N'. rewrite Hget, Hnf, Z.eqb_refl. split; [reflexivity|exact HN1].
    + assert (Hs' : s = negb s0) by (destruct s, s0; simpl in *; congruence). subst s.
      rewrite HF2 in Hl. destruct (Hinv _ _ _ _ HF Hl) as (h & Hh & Hback).
      rewrite <- HidF. rewrite HidF.
      rewrite negb_involutive in *.
      destruct (Hafter h Hh) as (h' & Hh' & Hback'); auto.
      * rewrite HidF. exact Hback.
      * intros Hg. subst g. rewrite HF in Hh. inversion Hh; subst h.
        destruct HF0 as [H0|H0]; congruence.
      * exists h'. split; [exact Hh'|]. rewrite HidF in Hback'. exact Hback'.
  - destruct (k =? Fragment.id N)%Z eqn:HkN.
    + (* the neighbour *)
      inversion Hk; subst f. rewrite HidN.
      destruct (Bool.bool_dec s (negb s0)) as [Hs|Hs].
      * subst s. rewrite HN1 in Hl. inversion Hl; subst g.
        exists F'. rewrite Hget, Z.eqb_refl. split; [reflexivity|].
        rewrite negb_involutive. exact HF1.
      * assert (Hs' : s = s0) by (destruct s, s0; simpl in *; congruence). subst s.
        rewrite HN2 in Hl. destruct (Hinv _ _ _ _ HN Hl) as (h & Hh & Hback).
        destruct (Hafter h Hh) as (h' & Hh' & Hback'); auto.
        -- rewrite HidN. exact Hback.
        -- intros Hg. subst g. rewrite HN in Hh. inversion Hh; subst h.
           destruct HN0 as [H0|H0]; congruence.
        -- exists h'. split; [exact Hh'|]. rewrite HidN in Hback'. exact Hback'.
    + (* any other fragment *)
      pose proof (get_id _ _ _ Hk) as Hfid.
      apply Z.eqb_neq in HkF. apply Z.eqb_neq in HkN.
      destruct (Hinv _ _ _ _ Hk Hl) as (h & Hh & Hback).
      apply (Hafter h Hh Hback).
      * intros Hg. subst g. rewrite HF in Hh. inversion Hh; subst h.
        destruct (Bool.bool_dec (negb s) s0) as [Hs|Hs].
        -- rewrite Hs in Hback. destruct HF0 as [H0|H0]; congruence.
        -- assert (Hs' : negb s = negb s0) by (destruct s, s0; simpl in *; congruence).
           rewrite Hs'. exact HF2.
      * intros Hg. subst g. rewrite HN in Hh. inversion Hh; subst h.
        destruct (Bool.bool_dec (negb s) (negb s0)) as [Hs|Hs].
        -- rewrite Hs in Hback. destruct HN0 as [H0|H0]; congruence.
        -- assert (Hs' : negb s = s0) by (destruct s, s0; simpl in *; congruence).
           rewrite Hs'. exact HN2.
Qed.

Lemma fillEffect_mutualLinks (fe : FragmentBoundaryEntry.t) (response : MessagesResponse)
      (txn txn' : Txn) (res : WriteResult) :
  TimelineFragmentStore.get txn (FragmentBoundaryEntry.fragmentId fe)
  = Some (FragmentBoundaryEntry.fragment fe) ->
  FillEffect fe response txn txn' res ->
  mutualLinks txn -> mutualLinks txn'.
Proof.
  intros Hget Heff.
  destruct Heff as [_ Hfr _ _ | tok _ _ Hfr _ | n fe1 n1 _ [Hn Hside] Hne H1 H2 Hfr _].
  - apply (mutual_after_relabel txn txn' (FragmentBoundaryEntry.fragment fe)
             (FragmentBoundaryEntry.fragment
                (FragmentBoundaryEntry.set_edgeReached fe true))).
    + exact Hget.
    + reflexivity.
    + intros s. destruct fe as [F b], s; reflexivity.
    + intros k. rewrite (get_put1 _ _ _ _ Hfr). reflexivity.
  - apply (mutual_after_relabel txn txn' (FragmentBoundaryEntry.fragment fe)
             (FragmentBoundaryEntry.fragment (FragmentBoundaryEntry.set_token fe tok))).
    + exact Hget.
    + destruct fe as [F [|]]; reflexivity.
    + intros s. destruct fe as [F [|]], s; reflexivity.
    + intros k. rewrite (get_put1 _ _ _ _ Hfr).
      destruct fe as [F [|]]; reflexivity.
  - destruct (linkTo_shape _ _ _ H1) as (Hid1 & Hs1 & Hl1 & Hwas1 & Ho1 & _).
    destruct (linkTo_shape _ _ _ H2) as (Hid2 & Hs2 & Hl2 & Hwas2 & Ho2 & _).
    assert (Hns : FragmentBoundaryEntry.isFragmentStart n
                  = negb (FragmentBoundaryEntry.isFragmentStart fe)).
    { rewrite Hside. destruct fe as [F [|]]; reflexivity. }
    apply (mutual_after_link txn txn'
             (FragmentBoundaryEntry.fragment fe) (FragmentBoundaryEntry.fragment n)
             (FragmentBoundaryEntry.fragment (FragmentBoundaryEntry.set_token fe1 None))
             (FragmentBoundaryEntry.fragment (FragmentBoundaryEntry.set_token n1 None))
             (FragmentBoundaryEntry.isFragmentStart fe)).
    + exact Hget.
    + exact Hn.
    + exact Hne.
    + destruct fe1 as [F1 [|]]; exact Hid1.
    + destruct n1 as [N1 [|]]; exact Hid2.
    + destruct fe as [F b], fe1 as [F1 [|]]; simpl in Hs1; subst b; exact Hl1.
    + destruct fe as [F b], fe1 as [F1 [|]]; simpl in Hs1; subst b; exact Ho1.
    + destruct fe as [F b]; exact Hwas1.
    + rewrite <- Hns.
      destruct n as [N b], n1 as [N1 [|]]; simpl in Hs2; subst b; exact Hl2.
    + replace (FragmentBoundaryEntry.isFragmentStart fe)
        with (negb (FragmentBoundaryEntry.isFragmentStart n))
        by (rewrite Hns; apply negb_involutive).
      destruct n as [N b], n1 as [N1 [|]]; simpl in Hs2; subst b; exact Ho2.
    + rewrite <- Hns. destruct n as [N b]; exact Hwas2.
    + intros k. rewrite (get_put2 _ _ _ _ _ Hfr).
      destruct fe1 as [F1 [|]], n1 as [N1 [|]]; unfold FragmentBoundaryEntry.fragmentId in *;
        simpl in *; rewrite Hid1, Hid2; reflexivity.
Qed.

(** X4. With a relation writer that keeps to the relation fields, every
    successful [writeFragmentFill] keeps the links of the stored fragments
    mutual: whenever a side of a stored fragment names a fragment, that
    fragment is stored and its opposite side names the first one back. *)
Theorem fill_keeps_links_mutual
  (roomId : string) (rw : RelationWriter)
  (fromMemberEvent fromReplacingMemberEvent : string -> Event -> option RoomMember.t)
  (fragmentEntry : FragmentBoundaryEntry.t) (response : MessagesResponse)
  (txn txn' : Txn) (res : WriteResult) :
  RelationWriterFrame rw ->
  mutualLinks txn ->
  writeFragmentFill roomId rw fromMemberEvent fromReplacingMemberEvent
                    fragmentEntry response txn = Ok (res, txn') ->
  mutualLinks txn'.
Proof.
  intros Hrw Hinv H.
  destruct (fill_effect _ _ _ _ Hrw _ _ _ _ _ H) as (fragment & Hget & _ & Heff).
  refine (fillEffect_mutualLinks _ _ _ _ _ _ Heff Hinv).
  unfold FragmentBoundaryEntry.withUpdatedFragment, FragmentBoundaryEntry.fragmentId. simpl.
  now rewrite (get_id _ _ _ Hget).
Qed.

Lemma fill_keeps_links_mutual_witness :
  exists res txn',
    writeFragmentFill Scenario.roomId Scenario.noRelations Scenario.fromMemberEvent
                      Scenario.fromReplacingMemberEvent
                      (FragmentBoundaryEntry.start Timelines.A2) Timelines.meetingPage
                      Timelines.apart
    = Ok (res, txn')
    /\ mutualLinks txn'
    /\ TimelineFragmentStore.get txn' 1
       = Some (Fragment.mk Scenario.roomId 1 None (Some 2) (Some "p") None false).
Proof.
  assert (Hpre : mutualLinks Timelines.apart).
  { intros k f s g Hk Hl. unfold TimelineFragmentStore.get in Hk. simpl in Hk.
    destruct (TimelineFragmentStore.hasId k Timelines.A1).
    - inversion Hk; subst. destruct s; discriminate Hl.
    - destruct (TimelineFragmentStore.hasId k Timelines.A2); [|discriminate].
      inversion Hk; subst. destruct s; discriminate Hl. }
  eexists _, _. split; [vm_compute; reflexivity|]. split.
  - refine (fill_keeps_links_mutual
              Scenario.roomId Scenario.noRelations Scenario.fromMemberEvent
              Scenario.fromReplacingMemberEvent
              (FragmentBoundaryEntry.start Timelines.A2) Timelines.meetingPage
              Timelines.apart _ _ noRelations_frame Hpre _).
    vm_compute. reflexivity.
  - vm_compute. reflexivity.
Defined.

(** X5. With a relation writer that keeps to the relation fields, a
    successful [writeFragmentFill] never leaves a stored fragment linked to
    itself when none was before: the overlap search drops the fragment being
    filled as its own neighbour. *)
Theorem fill_never_links_fragment_to_itself
  (roomId : string) (rw : RelationWriter)
  (fromMemberEvent fromReplacingMemberEvent : string -> Event -> option RoomMember.t)
  (fragmentEntry : FragmentBoundaryEntry.t) (response : MessagesResponse)
  (txn txn' : Txn) (res : WriteResult) :
  RelationWriterFrame rw ->
  noSelfLink txn ->
  writeFragmentFill roomId rw fromMemberEvent fromReplacingMemberEvent
                    fragmentEntry response txn = Ok (res, txn') ->
  noSelfLink txn'.
Proof.
  intros Hrw Hinv H.
  destruct (fill_effect _ _ _ _ Hrw _ _ _ _ _ H) as (fragment & Hget & _ & Heff).
  refine (fillEffect_noSelfLink _ _ _ _ _ _ Heff Hinv).
  unfold FragmentBoundaryEntry.withUpdatedFragment, FragmentBoundaryEntry.fragmentId. simpl.
  now rewrite (get_id _ _ _ Hget).
Qed.

Lemma fill_never_links_fragment_to_itself_witness :
  exists res txn',
    writeFragmentFill Scenario.roomId Scenario.noRelations Scenario.fromMemberEvent
                      Scenario.fromReplacingMemberEvent
                      (FragmentBoundaryEntry.start Timelines.F) Timelines.ownPage
                      Timelines.oneEvent
    = Ok (res, txn')
    /\ noSelfLink txn'.
Proof.
  assert (Hpre : noSelfLink Timelines.oneEvent).
  { intros k f Hk. unfold TimelineFragmentStore.get in Hk. simpl in Hk.
    destruct (TimelineFragmentStore.hasId k Timelines.F); [|discriminate].
    inversion Hk; subst. split; discriminate. }
  eexists _, _. split; [vm_compute; reflexivity|].
  refine (fill_never_links_fragment_to_itself
            Scenario.roomId Scenario.noRelations Scenario.fromMemberEvent
            Scenario.fromReplacingMemberEvent
            (FragmentBoundaryEntry.start Timelines.F) Timelines.ownPage
            Timelines.oneEvent _ _ noRelations_frame Hpre _).
  vm_compute. reflexivity.
Defined.

(** ** A chunk of the fragment's own events *)

Lemma getByEventId_stored (txn : Txn) (d : string) (r : EventStorageEntry.t) :
  TimelineEventStore.getByEventId txn d = Some r ->
  TimelineEventStore.hasEventId (timelineEvents txn) d = true.
Proof.
  unfold TimelineEventStore.getByEventId, TimelineEventStore.hasEventId.
  intros H. apply find_some in H as [Hin Hid]. apply existsb_exists. eauto.
Qed.

Lemma filter_all_stored (txn : Txn) (events : list Event) :
  (forall e, In e events -> isStored txn e = true) ->
  filter (notStored txn) events = [].
Proof.
  induction events as [|e events IH]; intros H; [reflexivity|].
  simpl. unfold notStored at 1. rewrite (H e (or_introl eq_refl)). simpl.
  apply IH. intros e' He'. apply H. now right.
Qed.

(** X6. When every event of a non-empty chunk is already stored in the
    fragment being filled, a fill that passes the token guard succeeds,
    stores no event, links nothing and clears the token of the filled side:
    the fragment's own events never make it its own neighbour, and the page
    is not asked for again. *)
Theorem fill_of_own_events_clears_token
  (roomId : string) (rw : RelationWriter)
  (fromMemberEvent fromReplacingMemberEvent : string -> Event -> option RoomMember.t)
  (fragmentEntry : FragmentBoundaryEntry.t) (response : MessagesResponse) (txn : Txn)
  (events : list Event) (endToken : string) (fragment : Fragment.t) :
  storedIdsNonEmpty txn ->
  eventsHaveFragments txn ->
  chunk response = Some events ->
  events <> [] ->
  end_ response = Some endToken ->
  TimelineFragmentStore.get txn (FragmentBoundaryEntry.fragmentId fragmentEntry)
  = Some fragment ->
  FragmentBoundaryEntry.token (FragmentBoundaryEntry.withUpdatedFragment fragmentEntry fragment)
  = Some (start response) ->
  (forall e, In e events ->
             exists r, TimelineEventStore.getByEventId txn (event_id e) = Some r
                       /\ EventStorageEntry.fragmentId r
                          = FragmentBoundaryEntry.fragmentId fragmentEntry) ->
  let cleared :=
    FragmentBoundaryEntry.set_token
      (FragmentBoundaryEntry.withUpdatedFragment fragmentEntry fragment) None in
  writeFragmentFill roomId rw fromMemberEvent fromReplacingMemberEvent
                    fragmentEntry response txn
  = Ok (mkWriteResult [BoundaryEntry cleared] [] [] None,
        TimelineFragmentStore.update (FragmentBoundaryEntry.fragment cleared) txn).
Proof.
  intros Hids Hfrags Hchunk Hne Hend Hget Htok Hown cleared.
  set (fe := FragmentBoundaryEntry.withUpdatedFragment fragmentEntry fragment) in *.
  assert (Hfid : FragmentBoundaryEntry.fragmentId fe
                 = FragmentBoundaryEntry.fragmentId fragmentEntry)
    by exact (get_id _ _ _ Hget).
  assert (Hov : _findOverlappingEvents fe events txn = Ok (mkOverlap [] None)).
  { unfold _findOverlappingEvents.
    rewrite (findOverlappingEventsFor_selects _ _ _ _ _ Hids Hfrags).
    rewrite filter_all_stored.
    2:{ intros e He. destruct (Hown e He) as (r & Hr & _).
        exact (getByEventId_stored _ _ _ Hr). }
    unfold selectedNeighbour.
    destruct (find _ events) as [e|] eqn:Hfind; [|reflexivity].
    apply find_some in Hfind as [Hin _].
    destruct (Hown e Hin) as (r & Hr & Hrf).
    unfold lookupNeighbour. rewrite Hr, Hrf, Hget. simpl.
    unfold FragmentBoundaryEntry.fragmentId at 1. simpl.
    fold (FragmentBoundaryEntry.fragmentId fe).
    change (Fragment.id fragment) with (FragmentBoundaryEntry.fragmentId fe).
    now rewrite Z.eqb_refl. }
  unfold writeFragmentFill. rewrite Hchunk, Hend, Hget. fold fe.
  rewrite Htok, String.eqb_refl.
  destruct events as [|e0 rest]; [congruence|].
  rewrite Hov. simpl.
  unfold cleared, directionalAppend.
  destruct (Direction.isForward (FragmentBoundaryEntry.direction fe)); reflexivity.
Qed.

Lemma fill_of_own_events_clears_token_witness :
  exists res txn',
    Scenario.fill (FragmentBoundaryEntry.start Timelines.F) Timelines.ownPage
                  Timelines.oneEvent = Ok (res, txn')
    /\ timelineEvents txn' = timelineEvents Timelines.oneEvent
    /\ TimelineFragmentStore.get txn' 1
       = Some (Fragment.mk Scenario.roomId 1 None None None (Some "n") false).
Proof.
  eexists _, _. split.
  - refine (fill_of_own_events_clears_token
              Scenario.roomId Scenario.noRelations Scenario.fromMemberEvent
              Scenario.fromReplacingMemberEvent
              (FragmentBoundaryEntry.start Timelines.F) Timelines.ownPage
              Timelines.oneEvent [Scenario.message "$a"] "u" Timelines.F
              eq_refl _ eq_refl _ eq_refl eq_refl eq_refl _).
    + intros r [Hr|[]]; subst r; vm_compute; discriminate.
    + discriminate.
    + intros e [He|[]]; subst e. eexists. split; vm_compute; reflexivity.
  - split; vm_compute; reflexivity.
Defined.

(** ** The entry of the context event *)

Lemma plannedRows_ids (direction : Direction.t) (events : list Event) :
  forall key, map snd (plannedRows key direction events) = map event_id events.
Proof.
  induction events as [|e events IH]; intros key; [reflexivity|].
  simpl. now rewrite IH.
Qed.

Lemma updateFragments_keeps_entries (fe : FragmentBoundaryEntry.t)
      (n : option FragmentBoundaryEntry.t) (tok : option string) (entries : list Entry)
      (txn txn' : Txn) (u : Updated) (x : Entry) :
  _updateFragments fe n tok entries txn = Ok (u, txn') ->
  In x entries -> In x (updated_entries u).
Proof.
  unfold _updateFragments, directionalAppend. destruct n as [n|].
  - destruct (linkTo fe _) as [fe1|]; simpl; [|discriminate].
    destruct (linkTo n _) as [n1|]; simpl; [|discriminate].
    intros H Hin. inversion H; subst; simpl.
    destruct (Direction.isForward _); simpl.
    + apply in_or_app. left. apply in_or_app. now left.
    + right. now right.
  - intros H Hin. inversion H; subst; simpl.
    destruct (Direction.isForward _); simpl.
    + apply in_or_app. now left.
    + now right.
Qed.

Lemma find_hasEntryId (eventId : string) (entries : list Entry) (r : EventStorageEntry.t) :
  In (EventEntry r) entries ->
  EventStorageEntry.id r = eventId ->
  exists r', find (hasEntryId eventId) entries = Some (EventEntry r')
             /\ EventStorageEntry.id r' = eventId.
Proof.
  intros Hin Hid.
  destruct (find (hasEntryId eventId) entries) as [x|] eqn:Hfind.
  - apply find_some in Hfind as [_ Hx]. destruct x as [r'|b]; [|discriminate].
    exists r'. split; [reflexivity|]. now apply String.eqb_eq.
  - apply (find_none _ _ Hfind) in Hin. simpl in Hin.
    rewrite Hid, String.eqb_refl in Hin. discriminate.
Qed.

Section ContextEvent.
Variable roomId : string.
Variable rw : RelationWriter.
Variable fromMemberEvent fromReplacingMemberEvent : string -> Event -> option RoomMember.t.
Hypothesis Hrw : RelationWriterFrame rw.

Lemma storeEvents_has_entry (events : list Event) (key : EventKey.t)
      (direction : Direction.t) (state : option (list Event)) (txn txn' : Txn)
      (s : Stored) (event : Event) :
  _storeEvents roomId rw fromMemberEvent fromReplacingMemberEvent
               events key direction state txn = Ok (s, txn') ->
  In event events ->
  exists r, In (EventEntry r) (entries s) /\ EventStorageEntry.id r = event_id event.
Proof.
  intros H Hin. unfold _storeEvents in H.
  destruct (storeLoop_rows _ _ _ _ Hrw _ _ _ _ _ _ _ _ _ _ _ H)
    as (_ & rows & Hid & Hentries).
  assert (Hr : exists r, In r rows /\ EventStorageEntry.id r = event_id event).
  { assert (Hids : map EventStorageEntry.id rows = map event_id events).
    { rewrite <- (plannedRows_ids direction events key), <- Hid, map_map. reflexivity. }
    apply (in_map event_id) in Hin. rewrite <- Hids in Hin.
    apply in_map_iff in Hin as (r & Hr & Hin). eauto. }
  destruct Hr as (r & Hr & Hrid). exists r. split; [|exact Hrid].
  rewrite Hentries. destruct (Direction.isForward direction); simpl.
  - now apply in_map.
  - rewrite app_nil_r. apply in_map. now apply in_rev in Hr.
Qed.

Lemma linkOverlapping_contextEvent (mainOverlap otherOverlap : Overlap) (event : Event)
      (token : option string) (state : option (list Event)) (txn txn' : Txn)
      (res : WriteResult) :
  _linkOverlapping roomId rw fromMemberEvent fromReplacingMemberEvent
                   mainOverlap otherOverlap event token state txn = Ok (res, txn') ->
  exists r, res_contextEvent res = Some (EventEntry r)
            /\ EventStorageEntry.id r = event_id event.
Proof.
  unfold _linkOverlapping.
  destruct (neighbourFragmentEntry mainOverlap) as [fe|]; [|discriminate].
  destruct (_storeEvents _ _ _ _ _ _ _ _ _) as [[stored txn1]|] eqn:Hstore; simpl;
    [|discriminate].
  destruct (_updateFragments _ _ _ _ _) as [[upd txn2]|] eqn:Hupd; simpl; [|discriminate].
  intros H. inversion H; subst; simpl.
  destruct (storeEvents_has_entry _ _ _ _ _ _ _ event Hstore) as (r & Hin & Hid).
  { apply in_or_app. right. now left. }
  apply (find_hasEntryId _ _ r); [|exact Hid].
  exact (updateFragments_keeps_entries _ _ _ _ _ _ _ _ Hupd Hin).
Qed.
End ContextEvent.

(** X7. With a relation writer that keeps to the relation fields, a
    successful [writeContext] always returns, as [contextEvent], an event
    entry whose id is the id of the response's central event: the stored one
    on the early return, the one just written otherwise; never null. *)
Theorem context_returns_the_context_event
  (roomId : string) (rw : RelationWriter)
  (fromMemberEvent fromReplacingMemberEvent : string -> Event -> option RoomMember.t)
  (response : ContextResponse) (txn txn' : Txn) (res : WriteResult) :
  RelationWriterFrame rw ->
  writeContext roomId rw fromMemberEvent fromReplacingMemberEvent response txn
  = Ok (res, txn') ->
  exists r, res_contextEvent res = Some (EventEntry r)
            /\ EventStorageEntry.id r = event_id (ctx_event response).
Proof.
  intros Hrw. unfold writeContext.
  destruct (events_before response) as [eventsBefore|]; [|discriminate].
  destruct (events_after response) as [eventsAfter|]; [|discriminate].
  destruct (negb _ || negb _); [discriminate|].
  destruct (TimelineEventStore.getByEventId txn _) as [eventEntry|] eqn:Hget.
  - intros H. inversion H; subst. exists eventEntry. split; [reflexivity|].
    unfold TimelineEventStore.getByEventId in Hget. apply find_some in Hget as [_ Hid].
    now apply String.eqb_eq.
  - destruct (_findOverlappingEventsFor None None Direction.Backward _ _) as [up|];
      simpl; [|discriminate].
    destruct (_findOverlappingEventsFor None None Direction.Forward _ _) as [down|];
      simpl; [|discriminate].
    destruct (neighbourFragmentEntry up) as [nu|].
    + apply linkOverlapping_contextEvent. exact Hrw.
    + destruct (neighbourFragmentEntry down) as [nd|].
      * apply linkOverlapping_contextEvent. exact Hrw.
      * destruct (_createNewFragment roomId txn) as [[newFragment txn1]|]; simpl;
          [|discriminate].
        apply linkOverlapping_contextEvent. exact Hrw.
Qed.

Lemma context_returns_the_context_event_witness :
  exists res txn' r,
    Scenario.context Timelines.after_a Timelines.linked = Ok (res, txn')
    /\ res_contextEvent res = Some (EventEntry r)
    /\ EventStorageEntry.id r = "$y".
Proof.
  destruct (Scenario.context Timelines.after_a Timelines.linked) as [[res txn']|e] eqn:H.
  - destruct (context_returns_the_context_event
                Scenario.roomId Scenario.noRelations Scenario.fromMemberEvent
                Scenario.fromReplacingMemberEvent Timelines.after_a Timelines.linked
                txn' res noRelations_frame H) as (r & Hr & Hid).
    exists res, txn', r. auto.
  - vm_compute in H. discriminate H.
Defined.

(** ** New fragments *)

Lemma getMaxFragmentId_fold (rows : list Fragment.t) :
  forall best,
    exists m,
      fold_left (fun best f =>
        match best with
        | None => Some (Fragment.id f)
        | Some b => Some (Z.max b (Fragment.id f))
        end) rows best
      = match rows, best with
        | [], None => None
        | _, _ => Some m
        end
      /\ (forall f, In f rows -> Fragment.id f <= m)
      /\ (forall b, best = Some b -> b <= m).
Proof.
  induction rows as [|g rows IH]; intros best.
  - destruct best as [b|].
    + exists b. simpl. repeat split; [contradiction|]. intros b' Hb. inversion Hb. lia.
    + exists 0. simpl. repeat split; [contradiction|discriminate].
  - simpl.
    destruct (IH (match best with
                  | Some b => Some (Z.max b (Fragment.id g))
                  | None => Some (Fragment.id g)
                  end)) as (m & Hm & Hall & Hbest).
    exists m. split.
    + rewrite Hm. destruct rows, best; reflexivity.
    + split.
      * intros f [Hf|Hf]; [subst f|now apply Hall].
        destruct best as [b|]; [specialize (Hbest _ eq_refl); lia|].
        exact (Hbest _ eq_refl).
      * intros b Hb. subst best. specialize (Hbest _ eq_refl). lia.
Qed.

Lemma find_app_fresh (rows : list Fragment.t) (f : Fragment.t) (k : Z) :
  find (TimelineFragmentStore.hasId (Fragment.id f)) rows = None ->
  find (TimelineFragmentStore.hasId k) (rows ++ [f])
  = if (k =? Fragment.id f)%Z then Some f else find (TimelineFragmentStore.hasId k) rows.
Proof.
  intros Hfresh. induction rows as [|g rows IH]; simpl in *.
  - unfold TimelineFragmentStore.hasId. rewrite Z.eqb_sym.
    destruct (k =? Fragment.id f)%Z; reflexivity.
  - destruct (TimelineFragmentStore.hasId (Fragment.id f) g) eqn:Hg; [discriminate|].
    destruct (TimelineFragmentStore.hasId k g) eqn:Hk.
    + destruct (k =? Fragment.id f)%Z eqn:Hkf; [|reflexivity].
      apply Z.eqb_eq in Hkf. subst k. congruence.
    + now apply IH.
Qed.

Lemma createNewFragment_ok (roomId : string) (txn : Txn) :
  timelineFragments txn <> [] ->
  exists f txn',
    _createNewFragment roomId txn = Ok (f, txn')
    /\ f = Fragment.mk roomId (Fragment.id f) None None None None false
    /\ (forall g, In g (timelineFragments txn) -> Fragment.id g < Fragment.id f)
    /\ TimelineFragmentStore.get txn' (Fragment.id f) = Some f
    /\ (forall k, k <> Fragment.id f ->
                  TimelineFragmentStore.get txn' k = TimelineFragmentStore.get txn k)
    /\ timelineEvents txn' = timelineEvents txn.
Proof.
  intros Hne. unfold _createNewFragment, TimelineFragmentStore.getMaxFragmentId.
  destruct (getMaxFragmentId_fold (timelineFragments txn) None) as (m & Hm & Hall & _).
  rewrite Hm. destruct (timelineFragments txn) as [|g0 rows] eqn:Hrows; [congruence|].
  rewrite <- Hrows in *.
  set (f := Fragment.mk roomId (m + 1) None None None None false).
  assert (Hfresh : find (TimelineFragmentStore.hasId (Fragment.id f)) (timelineFragments txn)
                   = None).
  { destruct (find _ (timelineFragments txn)) as [g|] eqn:Hfind; [|reflexivity].
    apply find_some in Hfind as [Hin Hid]. apply Z.eqb_eq in Hid.
    specialize (Hall g Hin). simpl in Hid. lia. }
  unfold TimelineFragmentStore.add, TimelineFragmentStore.get. fold f. rewrite Hfresh. simpl.
  exists f, (withFragments txn (timelineFragments txn ++ [f])).
  repeat split.
  - intros g Hg. specialize (Hall g Hg). simpl. lia.
  - simpl. rewrite (find_app_fresh _ _ _ Hfresh), Z.eqb_refl. reflexivity.
  - intros k Hk. simpl. rewrite (find_app_fresh _ _ _ Hfresh).
    apply Z.eqb_neq in Hk. now rewrite Hk.
Qed.

(** X8. In a room that has fragments, [_createNewFragment] succeeds: the new
    fragment has an id greater than that of every stored fragment, no links
    and no tokens, it is stored, and every fragment stored before is read
    back unchanged. *)
Theorem createNewFragment_is_fresh (roomId : string) (txn : Txn) :
  timelineFragments txn <> [] ->
  exists f txn',
    _createNewFragment roomId txn = Ok (f, txn')
    /\ f = Fragment.mk roomId (Fragment.id f) None None None None false
    /\ (forall g, In g (timelineFragments txn) -> Fragment.id g < Fragment.id f)
    /\ TimelineFragmentStore.get txn' (Fragment.id f) = Some f
    /\ (forall k, k <> Fragment.id f ->
                  TimelineFragmentStore.get txn' k = TimelineFragmentStore.get txn k)
    /\ timelineEvents txn' = timelineEvents txn.
Proof. exact (createNewFragment_ok roomId txn). Qed.

Lemma createNewFragment_is_fresh_witness :
  exists f txn',
    _createNewFragment Scenario.roomId Timelines.linked = Ok (f, txn')
    /\ Fragment.id f = 3.
Proof.
  destruct (createNewFragment_is_fresh Scenario.roomId Timelines.linked
              ltac:(discriminate)) as (f & txn' & H & _).
  exists f, txn'. split; [exact H|].
  vm_compute in H. inversion H. reflexivity.
Defined.

(** ** How a write can fail *)

Lemma updateFragments_error (fe : FragmentBoundaryEntry.t)
      (n : option FragmentBoundaryEntry.t) (tok : option string) (entries : list Entry)
      (txn : Txn) (e : Error) :
  _updateFragments fe n tok entries txn = Err e -> e = LinkConflict.
Proof.
  assert (Hlink : forall entry other e', linkTo entry other = Err e' -> e' = LinkConflict).
  { intros entry other e'. unfold linkTo. destruct (negb _); [discriminate|].
    destruct (FragmentBoundaryEntry.linkedFragmentId entry) as [l|]; [|discriminate].
    destruct (l =? other)%Z; [discriminate|]. intros H. now inversion H. }
  unfold _updateFragments. destruct n as [n|]; [|discriminate].
  destruct (linkTo fe _) as [fe1|e1] eqn:H1; simpl.
  - destruct (linkTo n _) as [n1|e2] eqn:H2; simpl; [discriminate|].
    intros H. inversion H; subst. exact (Hlink _ _ _ H2).
  - intros H. inversion H; subst. exact (Hlink _ _ _ H1).
Qed.

Section Failures.
Variable roomId : string.
Variable rw : RelationWriter.
Variable fromMemberEvent fromReplacingMemberEvent : string -> Event -> option RoomMember.t.

Lemma storeLoop_error (events : list Event) (state : option (list Event))
      (direction : Direction.t) (rest : list Event) :
  forall (i : Z) (key : EventKey.t) (acc updated : list Entry) (txn : Txn) (e : Error),
    storeLoop roomId rw fromMemberEvent fromReplacingMemberEvent
              events state direction rest i key acc updated txn = Err e ->
    e = StorageError.
Proof.
  induction rest as [|event rest IH]; intros i key acc updated txn e; simpl;
    [discriminate|].
  destruct (writeGapRelation rw _ direction txn) as [[entry upd] txn1].
  destruct (TimelineEventStore.insert entry txn1) as [txn2|e'] eqn:Hins; simpl.
  - apply IH.
  - intros H. inversion H; subst. unfold TimelineEventStore.insert in Hins.
    destruct (_ || _); inversion Hins. reflexivity.
Qed.

Lemma linkOverlapping_error (mainOverlap otherOverlap : Overlap) (event : Event)
      (token : option string) (state : option (list Event)) (txn : Txn) (e : Error) :
  neighbourFragmentEntry mainOverlap <> None ->
  _linkOverlapping roomId rw fromMemberEvent fromReplacingMemberEvent
                   mainOverlap otherOverlap event token state txn = Err e ->
  e = StorageError \/ e = LinkConflict.
Proof.
  intros Hmain. unfold _linkOverlapping.
  destruct (neighbourFragmentEntry mainOverlap) as [fe|]; [|congruence].
  destruct (_storeEvents _ _ _ _ _ _ _ _ _) as [[stored txn1]|e1] eqn:Hstore; simpl.
  - destruct (_updateFragments _ _ _ _ _) as [[upd txn2]|e2] eqn:Hupd; simpl;
      [discriminate|].
    intros H. inversion H; subst. right. exact (updateFragments_error _ _ _ _ _ _ Hupd).
  - intros H. inversion H; subst. left.
    exact (storeLoop_error _ _ _ _ _ _ _ _ _ _ Hstore).
Qed.
End Failures.

(** X9. The failures of [writeFragmentFill], in the order it checks: a chunk
    that is no array, an end token that is no string, a fragment unknown to
    the store. In a store whose event ids are non-empty and whose events
    belong to stored fragments, a call that passes these checks and the
    token guard either succeeds or fails in exactly one of two ways: a
    rejected insert of an event row, or the refusal to overwrite a link. *)
Theorem fill_failure_modes
  (roomId : string) (rw : RelationWriter)
  (fromMemberEvent fromReplacingMemberEvent : string -> Event -> option RoomMember.t)
  (fragmentEntry : FragmentBoundaryEntry.t) (response : MessagesResponse) (txn : Txn) :
  storedIdsNonEmpty txn ->
  eventsHaveFragments txn ->
  let result := writeFragmentFill roomId rw fromMemberEvent fromReplacingMemberEvent
                                  fragmentEntry response txn in
  (chunk response = None -> result = Err InvalidChunk)
  /\ (chunk response <> None -> end_ response = None -> result = Err InvalidEndToken)
  /\ (chunk response <> None -> end_ response <> None ->
      TimelineFragmentStore.get txn (FragmentBoundaryEntry.fragmentId fragmentEntry) = None ->
      result = Err UnknownFragment)
  /\ (forall fragment,
         chunk response <> None -> end_ response <> None ->
         TimelineFragmentStore.get txn (FragmentBoundaryEntry.fragmentId fragmentEntry)
         = Some fragment ->
         FragmentBoundaryEntry.token
           (FragmentBoundaryEntry.withUpdatedFragment fragmentEntry fragment)
         = Some (start response) ->
         isOk result = true \/ result = Err StorageError \/ result = Err LinkConflict).
Proof.
  intros Hids Hfrags result. unfold result, writeFragmentFill.
  destruct (chunk response) as [events|]; [|repeat split; congruence].
  destruct (end_ response) as [endToken|]; [|repeat split; congruence].
  destruct (TimelineFragmentStore.get txn _) as [fragment|]; [|repeat split; congruence].
  repeat split; try congruence.
  intros fragment' _ _ Hf Htok. inversion Hf; subst fragment'. rewrite Htok, String.eqb_refl.
  destruct events as [|e0 rest]; [now left|].
  unfold _findOverlappingEvents.
  rewrite (findOverlappingEventsFor_selects _ _ _ _ _ Hids Hfrags). simpl.
  match goal with
  | |- context [_storeEvents ?a ?b ?c ?d ?e ?f ?g ?h ?i] =>
      destruct (_storeEvents a b c d e f g h i) as [[stored txn1]|e1] eqn:Hstore
  end; simpl.
  - match goal with
    | |- context [_updateFragments ?a ?b ?c ?d ?e] =>
        destruct (_updateFragments a b c d e) as [[upd txn2]|e2] eqn:Hupd
    end; simpl.
    + now left.
    + right. right. now rewrite (updateFragments_error _ _ _ _ _ _ Hupd).
  - right. left. unfold _storeEvents in Hstore.
    now rewrite (storeLoop_error _ _ _ _ _ _ _ _ _ _ _ _ _ _ Hstore).
Qed.

Lemma fill_failure_modes_witness :
  Scenario.fill (FragmentBoundaryEntry.start Timelines.F)
                (Build_MessagesResponse (Some [Scenario.message "$z"]) "t" None None)
                Timelines.oneEvent
  = Err InvalidEndToken.
Proof.
  refine (proj1 (proj2 (fill_failure_modes
                          Scenario.roomId Scenario.noRelations Scenario.fromMemberEvent
                          Scenario.fromReplacingMemberEvent
                          (FragmentBoundaryEntry.start Timelines.F)
                          (Build_MessagesResponse (Some [Scenario.message "$z"]) "t" None None)
                          Timelines.oneEvent eq_refl _)) _ eq_refl).
  - intros r [Hr|[]]; subst r; vm_compute; discriminate.
  - discriminate.
Defined.

(** X10. The failures of [writeContext], in the order it checks: chunks that
    are no arrays, then a missing start or end token. In a store whose event
    ids are non-empty and whose events belong to stored fragments, a call
    that passes these checks either succeeds or fails in exactly one of two
    ways: a rejected storage request, or the refusal to overwrite a link. *)
Theorem context_failure_modes
  (roomId : string) (rw : RelationWriter)
  (fromMemberEvent fromReplacingMemberEvent : string -> Event -> option RoomMember.t)
  (response : ContextResponse) (txn : Txn) :
  storedIdsNonEmpty txn ->
  eventsHaveFragments txn ->
  let result := writeContext roomId rw fromMemberEvent fromReplacingMemberEvent
                             response txn in
  (events_before response = None \/ events_after response = None ->
   result = Err InvalidContextChunks)
  /\ (events_before response <> None -> events_after response <> None ->
      truthy (ctx_start response) = false \/ truthy (ctx_end response) = false ->
      result = Err MissingContextTokens)
  /\ (events_before response <> None -> events_after response <> None ->
      truthy (ctx_start response) = true -> truthy (ctx_end response) = true ->
      isOk result = true \/ result = Err StorageError \/ result = Err LinkConflict).
Proof.
  intros Hids Hfrags result. unfold result, writeContext.
  destruct (events_before response) as [eventsBefore|]; [|repeat split; congruence].
  destruct (events_after response) as [eventsAfter|]; [|repeat split; congruence].
  split; [intros [H|H]; discriminate|]. split.
  - intros _ _ [H|H]; rewrite H; simpl; [reflexivity|].
    now rewrite orb_true_r.
  - intros _ _ Hs He. rewrite Hs, He. simpl.
    destruct (TimelineEventStore.getByEventId txn _) as [eventEntry|]; [now left|].
    rewrite !(findOverlappingEventsFor_selects _ _ _ _ _ Hids Hfrags). simpl.
    assert (Hcases : forall main other token,
               neighbourFragmentEntry main <> None ->
               let r := _linkOverlapping roomId rw fromMemberEvent fromReplacingMemberEvent
                                         main other (ctx_event response) token
                                         (ctx_state response) in
               forall t, isOk (r t) = true \/ r t = Err StorageError
                         \/ r t = Err LinkConflict).
    { intros main other token Hmain r t. unfold r.
      destruct (_linkOverlapping _ _ _ _ main other _ token _ t) as [x|e] eqn:Hr;
        [now left|].
      destruct (linkOverlapping_error _ _ _ _ _ _ _ _ _ _ _ Hmain Hr); subst; auto. }
    destruct (selectedNeighbour txn Direction.Backward None eventsBefore) as [nu|] eqn:Hu.
    + apply Hcases. simpl. discriminate.
    + destruct (selectedNeighbour txn Direction.Forward None eventsAfter) as [nd|] eqn:Hd.
      * apply Hcases. simpl. discriminate.
      * destruct (_createNewFragment roomId txn) as [[newFragment txn1]|e] eqn:Hnew; simpl.
        -- apply Hcases. simpl. discriminate.
        -- right. left. unfold _createNewFragment in Hnew.
           destruct (TimelineFragmentStore.getMaxFragmentId txn) as [m|];
             [|now inversion Hnew].
           unfold TimelineFragmentStore.add in Hnew.
           destruct (TimelineFragmentStore.get txn _); simpl in Hnew; now inversion Hnew.
Qed.

Lemma context_failure_modes_witness :
  Scenario.context
    (Build_ContextResponse (Some [Scenario.message "$a"]) (Some []) (Scenario.message "$x")
                           None (Some "s") None)
    Timelines.twoEvents
  = Err MissingContextTokens.
Proof.
  refine (proj1 (proj2 (context_failure_modes
                          Scenario.roomId Scenario.noRelations Scenario.fromMemberEvent
                          Scenario.fromReplacingMemberEvent
                          (Build_ContextResponse (Some [Scenario.message "$a"]) (Some [])
                                                 (Scenario.message "$x") None (Some "s") None)
                          Timelines.twoEvents eq_refl _)) _ _ (or_intror eq_refl)).
  - intros r [Hr|[Hr|[]]]; subst r; vm_compute; discriminate.
  - discriminate.
  - discriminate.
Defined.

(** ** Writes that must succeed *)

Lemma hasKey_rowIdentity (rows : list EventStorageEntry.t) (fragmentId eventIndex : Z) :
  TimelineEventStore.hasKey rows fragmentId eventIndex
  = existsb (fun i => (fst (fst i) =? fragmentId)%Z && (snd (fst i) =? eventIndex)%Z)
            (map rowIdentity rows).
Proof.
  unfold TimelineEventStore.hasKey.
  induction rows as [|r rows IH]; simpl; [reflexivity|]. now rewrite IH.
Qed.

Lemma hasKey_identity (rows1 rows2 : list EventStorageEntry.t) (fragmentId eventIndex : Z) :
  map rowIdentity rows1 = map rowIdentity rows2 ->
  TimelineEventStore.hasKey rows1 fragmentId eventIndex
  = TimelineEventStore.hasKey rows2 fragmentId eventIndex.
Proof. intros H. now rewrite !hasKey_rowIdentity, H. Qed.

Lemma hasKey_app (rows : list EventStorageEntry.t) (r : EventStorageEntry.t)
      (fragmentId eventIndex : Z) :
  TimelineEventStore.hasKey (rows ++ [r]) fragmentId eventIndex
  = TimelineEventStore.hasKey rows fragmentId eventIndex
    || ((EventStorageEntry.fragmentId r =? fragmentId)%Z
        && (EventStorageEntry.eventIndex r =? eventIndex)%Z).
Proof.
  unfold TimelineEventStore.hasKey. rewrite existsb_app. simpl. now rewrite orb_false_r.
Qed.

Lemma plannedRows_beyond (direction : Direction.t) (events : list Event)
      (key : EventKey.t) (row : (Z * Z) * string) :
  In row (plannedRows key direction events) ->
  snd (fst row) <> EventKey.eventIndex key.
Proof.
  intros Hrow. apply (in_map (fun row => snd (fst row))) in Hrow.
  rewrite plannedRows_indices in Hrow. apply in_map_iff in Hrow as (i & Hi & _).
  rewrite <- Hi. destruct (Direction.isForward direction); lia.
Qed.

Section Succeeds.
Variable roomId : string.
Variable rw : RelationWriter.
Variable fromMemberEvent fromReplacingMemberEvent : string -> Event -> option RoomMember.t.
Hypothesis Hrw : RelationWriterFrame rw.

Lemma storeLoop_succeeds (events : list Event) (state : option (list Event))
      (direction : Direction.t) (rest : list Event) :
  forall (i : Z) (key : EventKey.t) (acc updated : list Entry) (txn : Txn),
    (forall row, In row (plannedRows key direction rest) ->
                 TimelineEventStore.hasKey (timelineEvents txn)
                                           (fst (fst row)) (snd (fst row)) = false) ->
    (forall e, In e rest ->
               TimelineEventStore.hasEventId (timelineEvents txn) (event_id e) = false) ->
    NoDup (map event_id rest) ->
    exists s txn',
      storeLoop roomId rw fromMemberEvent fromReplacingMemberEvent
                events state direction rest i key acc updated txn = Ok (s, txn').
Proof.
  induction rest as [|event rest IH]; intros i key acc updated txn Hkeys Hids Hnodup.
  - simpl. eauto.
  - cbn [storeLoop].
    set (k := EventKey.nextKeyForDirection key direction).
    set (entry0 := stampedEventEntry roomId fromMemberEvent fromReplacingMemberEvent
                     events state direction i k event).
    pose proof (rw_events Hrw entry0 direction txn) as Hev.
    pose proof (rw_entry Hrw entry0 direction txn) as Hent.
    destruct (writeGapRelation rw entry0 direction txn) as [[entry upd] txn1].
    simpl in Hev, Hent.
    assert (Hrow : rowIdentity entry
                   = ((EventKey.fragmentId k, EventKey.eventIndex k), event_id event)).
    { rewrite Hent. apply stampedEventEntry_identity. }
    assert (Hfid : EventStorageEntry.fragmentId entry = EventKey.fragmentId k)
      by exact (f_equal (fun x => fst (fst x)) Hrow).
    assert (Hidx : EventStorageEntry.eventIndex entry = EventKey.eventIndex k)
      by exact (f_equal (fun x => snd (fst x)) Hrow).
    assert (Hid : EventStorageEntry.id entry = event_id event)
      by exact (f_equal snd Hrow).
    unfold TimelineEventStore.insert.
    rewrite (hasEventId_identity _ _ _ Hev), Hid, (Hids event (or_introl eq_refl)).
    rewrite (hasKey_identity _ _ _ _ Hev), Hfid, Hidx.
    pose proof (Hkeys ((EventKey.fragmentId k, EventKey.eventIndex k), event_id event)
                      (or_introl eq_refl)) as Hk0.
    simpl in Hk0. rewrite Hk0.
    simpl. apply IH.
    + intros row Hin. simpl. rewrite hasKey_app, (hasKey_identity _ _ _ _ Hev).
      rewrite (Hkeys row (or_intror Hin)), Hidx. simpl.
      pose proof (plannedRows_beyond _ _ _ _ Hin) as Hne.
      assert (Hne' : (EventKey.eventIndex k =? snd (fst row))%Z = false)
        by (apply Z.eqb_neq; intros Heq; apply Hne; now rewrite Heq).
      rewrite Hne'. apply andb_false_r.
    + intros e Hin. simpl. rewrite hasEventId_app, (hasEventId_identity _ _ _ Hev).
      rewrite (Hids e (or_intror Hin)), Hid. simpl.
      apply String.eqb_neq. intros Heq. inversion Hnodup as [|? ? Hnot _]. subst.
      apply Hnot. rewrite Heq. now apply in_map.
    + now inversion Hnodup.
Qed.
End Succeeds.

Lemma no_stored_selects_nothing (txn : Txn) (direction : Direction.t)
      (expected : option string) (events : list Event) :
  (forall e, In e events -> isStored txn e = false) ->
  filter (notStored txn) events = events
  /\ selectedNeighbour txn direction expected events = None.
Proof.
  intros H.
  assert (Hfind : find (isStored txn) events = None).
  { induction events as [|e events IH]; [reflexivity|]. simpl.
    rewrite (H e (or_introl eq_refl)). apply IH. intros e' He'. apply H. now right. }
  split.
  - unfold notStored. exact (filter_none _ _ Hfind).
  - unfold selectedNeighbour. now rewrite (find_and_none _ _ _ Hfind).
Qed.

(** X11. The plain backfill. With a relation writer that keeps to the
    relation fields, in a store whose event ids are non-empty and whose
    events belong to stored fragments: a fill that passes the token guard
    with a non-empty chunk of events none of which is stored, with distinct
    ids, succeeds; it appends the events at the successive keys after the
    fragment's edge key, moves the token of the filled side to
    [response.end], reports no changed fragment and leaves the other
    fragments as they were. *)
Theorem fill_of_new_events_extends_fragment
  (roomId : string) (rw : RelationWriter)
  (fromMemberEvent fromReplacingMemberEvent : string -> Event -> option RoomMember.t)
  (fragmentEntry : FragmentBoundaryEntry.t) (response : MessagesResponse) (txn : Txn)
  (events : list Event) (endToken : string) (fragment : Fragment.t) :
  RelationWriterFrame rw ->
  storedIdsNonEmpty txn ->
  eventsHaveFragments txn ->
  chunk response = Some events ->
  events <> [] ->
  end_ response = Some endToken ->
  TimelineFragmentStore.get txn (FragmentBoundaryEntry.fragmentId fragmentEntry)
  = Some fragment ->
  FragmentBoundaryEntry.token (FragmentBoundaryEntry.withUpdatedFragment fragmentEntry fragment)
  = Some (start response) ->
  (forall e, In e events -> isStored txn e = false) ->
  NoDup (map event_id events) ->
  let fe := FragmentBoundaryEntry.withUpdatedFragment fragmentEntry fragment in
  exists res txn',
    writeFragmentFill roomId rw fromMemberEvent fromReplacingMemberEvent
                      fragmentEntry response txn = Ok (res, txn')
    /\ map rowIdentity (timelineEvents txn')
       = map rowIdentity (timelineEvents txn)
         ++ plannedRows (_findFragmentEdgeEventKey fe txn)
                        (FragmentBoundaryEntry.direction fe) events
    /\ TimelineFragmentStore.get txn' (FragmentBoundaryEntry.fragmentId fragmentEntry)
       = Some (FragmentBoundaryEntry.fragment
                 (FragmentBoundaryEntry.set_token fe (Some endToken)))
    /\ (forall k, k <> FragmentBoundaryEntry.fragmentId fragmentEntry ->
                  TimelineFragmentStore.get txn' k = TimelineFragmentStore.get txn k)
    /\ res_fragments res = [].
Proof.
  intros Hrw Hids Hfrags Hchunk Hne Hend Hget Htok Hnew Hnodup fe.
  assert (Hfid : FragmentBoundaryEntry.fragmentId fe
                 = FragmentBoundaryEntry.fragmentId fragmentEntry)
    by exact (get_id _ _ _ Hget).
  destruct (no_stored_selects_nothing txn (FragmentBoundaryEntry.direction fe)
              (match (if FragmentBoundaryEntry.hasLinkedFragment fe
                      then FragmentBoundaryEntry.linkedFragmentId fe else None) with
               | Some l => _findExpectedOverlappingEventId
                             l (FragmentBoundaryEntry.direction fe) txn
               | None => None
               end) events Hnew) as [Hfilter Hsel].
  assert (Hov : _findOverlappingEvents fe events txn = Ok (mkOverlap events None)).
  { unfold _findOverlappingEvents.
    rewrite (findOverlappingEventsFor_selects _ _ _ _ _ Hids Hfrags).
    now rewrite Hfilter, Hsel. }
  destruct (storeLoop_succeeds roomId rw fromMemberEvent fromReplacingMemberEvent Hrw
              events (state response) (FragmentBoundaryEntry.direction fe) events
              0 (_findFragmentEdgeEventKey fe txn) [] [] txn)
    as (s & txn1 & Hstore).
  { intros row Hrow. exact (proj2 (edgeKey_fresh fe txn events row Hrow)). }
  { exact Hnew. }
  { exact Hnodup. }
  pose proof (storeLoop_rows _ _ _ _ Hrw _ _ _ _ _ _ _ _ _ _ _ Hstore) as (Hrows & _).
  pose proof (storeLoop_fragments _ _ _ _ Hrw _ _ _ _ _ _ _ _ _ _ _ Hstore) as Hfr.
  set (moved := FragmentBoundaryEntry.set_token fe (Some endToken)).
  assert (Hmid : Fragment.id (FragmentBoundaryEntry.fragment moved)
                 = FragmentBoundaryEntry.fragmentId fragmentEntry).
  { rewrite <- Hfid. unfold moved. destruct fe as [f [|]]; reflexivity. }
  exists (mkWriteResult
            (directionalAppend (entries s) (BoundaryEntry moved)
                               (FragmentBoundaryEntry.direction fe))
            (updatedEntries s) [] None),
         (TimelineFragmentStore.update (FragmentBoundaryEntry.fragment moved) txn1).
  split.
  - unfold writeFragmentFill. rewrite Hchunk, Hend, Hget, Htok, String.eqb_refl.
    fold fe.
    destruct events as [|e0 rest]; [congruence|].
    rewrite Hov. cbn [bindR nonOverlappingEvents neighbourFragmentEntry].
    unfold _storeEvents.
    change (FragmentBoundaryEntry.direction fragmentEntry)
      with (FragmentBoundaryEntry.direction fe).
    rewrite Hstore. reflexivity.
  - split; [exact Hrows|]. split; [|split; [|reflexivity]].
    + rewrite <- Hmid. apply get_update_same.
    + intros k Hk. rewrite get_update_other by (rewrite Hmid; exact Hk).
      exact (get_fragments _ _ _ Hfr).
Qed.

Lemma fill_of_new_events_extends_fragment_witness :
  exists res txn',
    Scenario.fill (FragmentBoundaryEntry.start Timelines.F) Timelines.freshPage
                  Timelines.oneEvent = Ok (res, txn')
    /\ map rowIdentity (timelineEvents txn') = [((1, 10), "$a"); ((1, 9), "$z")]
    /\ TimelineFragmentStore.get txn' 1
       = Some (Fragment.mk Scenario.roomId 1 None None (Some "u") (Some "n") false).
Proof.
  destruct (fill_of_new_events_extends_fragment
              Scenario.roomId Scenario.noRelations Scenario.fromMemberEvent
              Scenario.fromReplacingMemberEvent
              (FragmentBoundaryEntry.start Timelines.F) Timelines.freshPage
              Timelines.oneEvent [Scenario.message "$z"] "u" Timelines.F
              noRelations_frame eq_refl
              ltac:(intros r [Hr|[]]; subst r; vm_compute; discriminate)
              eq_refl ltac:(discriminate) eq_refl eq_refl eq_refl
              ltac:(intros e [He|[]]; subst e; reflexivity)
              ltac:(repeat constructor; intros [])) as (res & txn' & H & Hrows & Hf & _).
  exists res, txn'. split; [exact H|]. split; [exact Hrows|exact Hf].
Defined.

(** ** A context in unknown history *)

Lemma not_stored_getByEventId (txn : Txn) (d : string) :
  TimelineEventStore.hasEventId (timelineEvents txn) d = false ->
  TimelineEventStore.getByEventId txn d = None.
Proof.
  intros H. destruct (TimelineEventStore.getByEventId txn d) as [r|] eqn:Hget;
    [|reflexivity].
  apply getByEventId_stored in Hget. congruence.
Qed.

Lemma no_event_in_new_fragment (txn txn1 : Txn) (fid : Z) :
  eventsHaveFragments txn ->
  timelineEvents txn1 = timelineEvents txn ->
  (forall g, In g (timelineFragments txn) -> Fragment.id g < fid) ->
  TimelineEventStore.lastEvent txn1 fid = None.
Proof.
  intros Hfrags Hev Hlt. pose proof (lastEvent_greatest txn1 fid) as H.
  destruct (TimelineEventStore.lastEvent txn1 fid) as [r|] eqn:Hlast; [|reflexivity].
  destruct H as [Hf _].
  assert (Hin : In r (timelineEvents txn)).
  { rewrite <- Hev. unfold TimelineEventStore.lastEvent, TimelineEventStore.pickBy in Hlast.
    pose proof (pickBy_fold Z.gtb (fun x y => y <= x) Z.le_refl
                  (fun x y z Hxy Hyz => Z.le_trans _ _ _ Hyz Hxy)
                  (fun x y H => Z.lt_le_incl _ _ (proj1 (Z.gtb_lt x y) H))
                  (fun x y H => ltac:(rewrite Z.gtb_ltb in H; apply Z.ltb_ge in H; exact H))
                  (filter (TimelineEventStore.inFragment fid) (timelineEvents txn1))
                  None) as Hp.
    rewrite Hlast in Hp. destruct Hp as ([Hp|Hp] & _); [|discriminate].
    now apply filter_In in Hp as [Hp _]. }
  specialize (Hfrags r Hin).
  destruct (TimelineFragmentStore.get txn (EventStorageEntry.fragmentId r)) as [g|] eqn:Hg;
    [|congruence].
  pose proof (get_id _ _ _ Hg) as Hgid.
  unfold TimelineFragmentStore.get in Hg. apply find_some in Hg as [Hgin _].
  specialize (Hlt g Hgin). lia.
Qed.

Section Landing.
Variable roomId : string.
Variable rw : RelationWriter.
Variable fromMemberEvent fromReplacingMemberEvent : string -> Event -> option RoomMember.t.

Lemma linkOverlapping_unlinked (mainOverlap otherOverlap : Overlap) (event : Event)
      (token : option string) (state : option (list Event)) (txn txn1 : Txn)
      (fe : FragmentBoundaryEntry.t) (s : Stored) :
  neighbourFragmentEntry mainOverlap = Some fe ->
  neighbourFragmentEntry otherOverlap = None ->
  _storeEvents roomId rw fromMemberEvent fromReplacingMemberEvent
               (rev (nonOverlappingEvents mainOverlap)
                ++ event :: nonOverlappingEvents otherOverlap)
               (_findFragmentEdgeEventKey fe txn) (FragmentBoundaryEntry.direction fe)
               state txn = Ok (s, txn1) ->
  _linkOverlapping roomId rw fromMemberEvent fromReplacingMemberEvent
                   mainOverlap otherOverlap event token state txn
  = Ok (mkWriteResult
          (directionalAppend (entries s)
             (BoundaryEntry (FragmentBoundaryEntry.set_token fe token))
             (FragmentBoundaryEntry.direction fe))
          (updatedEntries s) []
          (find (hasEntryId (event_id event))
                (directionalAppend (entries s)
                   (BoundaryEntry (FragmentBoundaryEntry.set_token fe token))
                   (FragmentBoundaryEntry.direction fe))),
        TimelineFragmentStore.update
          (FragmentBoundaryEntry.fragment (FragmentBoundaryEntry.set_token fe token)) txn1).
Proof.
  intros Hmain Hother Hstore. unfold _linkOverlapping.
  rewrite Hmain, Hother, Hstore. reflexivity.
Qed.
End Landing.

(** X12. A context in unknown history. With a relation writer that keeps to
    the relation fields, in a room that has fragments and whose store holds
    non-empty event ids and events of stored fragments: a valid [/context]
    response none of whose events is stored, with distinct ids, is written
    successfully into a new fragment. The fragment has an id above every
    stored one, no links, [start] as previous token and [end] as next token;
    the events before (oldest first), the event and the events after are
    stored at the successive keys after the fragment's default key; the
    fragments stored before are unchanged and none is reported as changed. *)
Theorem context_in_unknown_history_creates_fragment
  (roomId : string) (rw : RelationWriter)
  (fromMemberEvent fromReplacingMemberEvent : string -> Event -> option RoomMember.t)
  (response : ContextResponse) (txn : Txn) (eventsBefore eventsAfter : list Event) :
  RelationWriterFrame rw ->
  storedIdsNonEmpty txn ->
  eventsHaveFragments txn ->
  timelineFragments txn <> [] ->
  events_before response = Some eventsBefore ->
  events_after response = Some eventsAfter ->
  truthy (ctx_start response) = true ->
  truthy (ctx_end response) = true ->
  let allEvents := rev eventsBefore ++ ctx_event response :: eventsAfter in
  (forall e, In e allEvents -> isStored txn e = false) ->
  NoDup (map event_id allEvents) ->
  exists res txn' f,
    writeContext roomId rw fromMemberEvent fromReplacingMemberEvent response txn
    = Ok (res, txn')
    /\ f = Fragment.mk roomId (Fragment.id f) None None
                       (ctx_start response) (ctx_end response) false
    /\ (forall g, In g (timelineFragments txn) -> Fragment.id g < Fragment.id f)
    /\ TimelineFragmentStore.get txn' (Fragment.id f) = Some f
    /\ (forall k, k <> Fragment.id f ->
                  TimelineFragmentStore.get txn' k = TimelineFragmentStore.get txn k)
    /\ map rowIdentity (timelineEvents txn')
       = map rowIdentity (timelineEvents txn)
         ++ plannedRows (EventKey.defaultFragmentKey (Fragment.id f))
                        Direction.Forward allEvents
    /\ res_fragments res = [].
Proof.
  intros Hrw Hids Hfrags Hne Hb Ha Hs He allEvents Hnew Hnodup.
  assert (Hevent : isStored txn (ctx_event response) = false).
  { apply Hnew. apply in_or_app. right. now left. }
  destruct (no_stored_selects_nothing txn Direction.Backward None eventsBefore)
    as [HfB HsB].
  { intros e Hin. apply Hnew. apply in_or_app. left. now apply in_rev in Hin. }
  destruct (no_stored_selects_nothing txn Direction.Forward None eventsAfter)
    as [HfA HsA].
  { intros e Hin. apply Hnew. apply in_or_app. right. now right. }
  destruct (createNewFragment_ok roomId txn Hne)
    as (f0 & txn1 & Hcreate & Hf0 & Hlt & Hget0 & Hother0 & Hev0).
  set (f := Fragment.mk roomId (Fragment.id f0) None None
                        (ctx_start response) (ctx_end response) false).
  set (newEntry := FragmentBoundaryEntry.end_ f).
  assert (Hkey : _findFragmentEdgeEventKey newEntry txn1
                 = EventKey.defaultFragmentKey (Fragment.id f0)).
  { change (_findFragmentEdgeEventKey newEntry txn1)
      with (match TimelineEventStore.lastEvent txn1 (Fragment.id f0) with
            | Some event => EventKey.mk (EventStorageEntry.fragmentId event)
                                        (EventStorageEntry.eventIndex event)
            | None => EventKey.defaultFragmentKey (Fragment.id f0)
            end).
    now rewrite (no_event_in_new_fragment txn txn1 (Fragment.id f0) Hfrags Hev0 Hlt). }
  destruct (storeLoop_succeeds roomId rw fromMemberEvent fromReplacingMemberEvent Hrw
              allEvents (ctx_state response) Direction.Forward allEvents
              0 (_findFragmentEdgeEventKey newEntry txn1) [] [] txn1)
    as (s & txn2 & Hstore).
  { intros row Hrow. exact (proj2 (edgeKey_fresh newEntry txn1 allEvents row Hrow)). }
  { intros e Hin. rewrite Hev0. exact (Hnew e Hin). }
  { exact Hnodup. }
  pose proof (storeLoop_rows _ _ _ _ Hrw _ _ _ _ _ _ _ _ _ _ _ Hstore) as (Hrows & _).
  pose proof (storeLoop_fragments _ _ _ _ Hrw _ _ _ _ _ _ _ _ _ _ _ Hstore) as Hfr.
  assert (Hstored : _storeEvents roomId rw fromMemberEvent fromReplacingMemberEvent
                      allEvents (_findFragmentEdgeEventKey newEntry txn1)
                      (FragmentBoundaryEntry.direction newEntry) (ctx_state response) txn1
                    = Ok (s, txn2)) by exact Hstore.
  assert (Hnewf : Fragment.mk (Fragment.roomId f0) (Fragment.id f0)
                              (Fragment.previousId f0) (Fragment.nextId f0)
                              (ctx_start response) (ctx_end response)
                              (Fragment.edgeReached f0) = f).
  { rewrite Hf0. reflexivity. }
  assert (Hsame : FragmentBoundaryEntry.set_token newEntry (ctx_end response) = newEntry)
    by reflexivity.
  pose proof (linkOverlapping_unlinked roomId rw fromMemberEvent fromReplacingMemberEvent
                (mkOverlap eventsBefore (Some newEntry)) (mkOverlap eventsAfter None)
                (ctx_event response) (ctx_end response) (ctx_state response)
                txn1 txn2 newEntry s eq_refl eq_refl Hstored) as Hlink.
  rewrite Hsame in Hlink.
  eexists _, (TimelineFragmentStore.update f txn2), f.
  split.
  - unfold writeContext. rewrite Hb, Ha, Hs, He.
    cbv beta iota delta [negb orb].
    rewrite (not_stored_getByEventId _ _ Hevent).
    rewrite !(findOverlappingEventsFor_selects _ _ _ _ _ Hids Hfrags).
    rewrite HfB, HsB, HfA, HsA.
    cbv beta iota delta [bindR neighbourFragmentEntry nonOverlappingEvents].
    rewrite Hcreate.
    cbv beta iota delta [bindR].
    rewrite Hnewf. fold newEntry.
    exact Hlink.
  - split; [reflexivity|]. split; [exact Hlt|]. split; [|split; [|split; [|reflexivity]]].
    + exact (get_update_same f txn2).
    + intros k Hk. rewrite get_update_other by exact Hk.
      rewrite (get_fragments _ _ _ Hfr). apply Hother0. exact Hk.
    + simpl. rewrite Hrows, Hkey, Hev0. reflexivity.
Qed.

Lemma context_in_unknown_history_creates_fragment_witness :
  let response :=
    Build_ContextResponse (Some [Scenario.message "$q"; Scenario.message "$p"])
                          (Some [Scenario.message "$s"]) (Scenario.message "$r")
                          None (Some "s") (Some "e") in
  exists res txn' f,
    Scenario.context response Timelines.oneEvent = Ok (res, txn')
    /\ f = Fragment.mk Scenario.roomId (Fragment.id f) None None (Some "s") (Some "e") false
    /\ (forall g, In g (timelineFragments Timelines.oneEvent) -> Fragment.id g < Fragment.id f)
    /\ TimelineFragmentStore.get txn' (Fragment.id f) = Some f
    /\ (forall k, k <> Fragment.id f ->
                  TimelineFragmentStore.get txn' k
                  = TimelineFragmentStore.get Timelines.oneEvent k)
    /\ map rowIdentity (timelineEvents txn')
       = map rowIdentity (timelineEvents Timelines.oneEvent)
         ++ plannedRows (EventKey.defaultFragmentKey (Fragment.id f)) Direction.Forward
                        (map Scenario.message ["$p"; "$q"; "$r"; "$s"])
    /\ res_fragments res = [].
Proof.
  exact (context_in_unknown_history_creates_fragment
           Scenario.roomId Scenario.noRelations Scenario.fromMemberEvent
           Scenario.fromReplacingMemberEvent
           (Build_ContextResponse (Some [Scenario.message "$q"; Scenario.message "$p"])
                                  (Some [Scenario.message "$s"]) (Scenario.message "$r")
                                  None (Some "s") (Some "e"))
           Timelines.oneEvent
           [Scenario.message "$q"; Scenario.message "$p"] [Scenario.message "$s"]
           noRelations_frame eq_refl
           ltac:(intros r [Hr|[]]; subst r; vm_compute; discriminate)
           ltac:(discriminate) eq_refl eq_refl eq_refl eq_refl
           ltac:(intros e [He|[He|[He|[He|[]]]]]; subst e; reflexivity)
           ltac:(repeat constructor; simpl; intuition discriminate)).
Defined.

(** ** The store stays well formed *)




(** A store extended by rows with non-empty ids in stored fragments stays
    well formed. *)
Lemma extension_wellformed (txn txn' : Txn) (new : list ((Z * Z) * string)) :
  storedIdsNonEmpty txn ->
  eventsHaveFragments txn ->
  map rowIdentity (timelineEvents txn') = map rowIdentity (timelineEvents txn) ++ new ->
  (forall row, In row new ->
               snd row <> EmptyString
               /\ TimelineFragmentStore.get txn' (fst (fst row)) <> None) ->
  (forall k, TimelineFragmentStore.get txn k <> None ->
             TimelineFragmentStore.get txn' k <> None) ->
  storedIdsNonEmpty txn' /\ eventsHaveFragments txn'.
Proof.
  intros Hids Hfrags Hrows Hnew Hmono. split.
  - unfold storedIdsNonEmpty in *. rewrite hasEventId_rowIdentity in *.
    rewrite Hrows, existsb_app, Hids. simpl.
    destruct (existsb _ new) eqn:Hex; [|reflexivity].
    apply existsb_exists in Hex as (row & Hin & Heq).
    apply String.eqb_eq in Heq. now destruct (proj1 (Hnew row Hin)).
  - intros r Hr.
    assert (Hin : In (rowIdentity r) (map rowIdentity (timelineEvents txn') )).
    { now apply in_map. }
    rewrite Hrows in Hin. apply in_app_or in Hin as [Hin|Hin].
    + apply in_map_iff in Hin as (r0 & Heq & Hr0).
      apply Hmono. specialize (Hfrags r0 Hr0).
      assert (Hf : EventStorageEntry.fragmentId r0 = EventStorageEntry.fragmentId r).
      { unfold rowIdentity in Heq. congruence. }
      now rewrite <- Hf.
    + exact (proj2 (Hnew _ Hin)).
Qed.


Lemma plannedRows_id_in (direction : Direction.t) (events : list Event)
      (key : EventKey.t) (row : (Z * Z) * string) :
  In row (plannedRows key direction events) ->
  exists e, In e events /\ snd row = event_id e.
Proof.
  intros H. apply (in_map snd) in H. rewrite plannedRows_ids in H.
  apply in_map_iff in H as (e & He & Hin). eauto.
Qed.

Section Wellformed.
Variable roomId : string.
Variable rw : RelationWriter.
Variable fromMemberEvent fromReplacingMemberEvent : string -> Event -> option RoomMember.t.
Hypothesis Hrw : RelationWriterFrame rw.

Lemma fill_rows (fragmentEntry : FragmentBoundaryEntry.t) (response : MessagesResponse)
      (txn txn' : Txn) (res : WriteResult) (events : list Event) (fragment : Fragment.t) :
  storedIdsNonEmpty txn ->
  eventsHaveFragments txn ->
  chunk response = Some events ->
  TimelineFragmentStore.get txn (FragmentBoundaryEntry.fragmentId fragmentEntry)
  = Some fragment ->
  writeFragmentFill roomId rw fromMemberEvent fromReplacingMemberEvent
                    fragmentEntry response txn = Ok (res, txn') ->
  map rowIdentity (timelineEvents txn')
  = map rowIdentity (timelineEvents txn)
    ++ plannedRows (_findFragmentEdgeEventKey
                      (FragmentBoundaryEntry.withUpdatedFragment fragmentEntry fragment) txn)
                   (FragmentBoundaryEntry.direction fragmentEntry)
                   (filter (notStored txn) events).
Proof.
  intros Hids Hfrags Hchunk Hget. unfold writeFragmentFill. rewrite Hchunk, Hget.
  destruct (end_ response) as [endToken|]; [|discriminate].
  set (fe := FragmentBoundaryEntry.withUpdatedFragment fragmentEntry fragment).
  destruct (FragmentBoundaryEntry.token fe) as [token|]; [|discriminate].
  destruct (token =? start response); [|discriminate].
  destruct events as [|e0 rest].
  - intros H. inversion H; subst. simpl. now rewrite app_nil_r.
  - unfold _findOverlappingEvents.
    rewrite (findOverlappingEventsFor_selects _ _ _ _ _ Hids Hfrags).
    cbn [bindR nonOverlappingEvents neighbourFragmentEntry].
    destruct (_storeEvents _ _ _ _ _ _ _ _ _) as [[stored txn1]|] eqn:Hstore;
      cbn [bindR]; [|discriminate].
    destruct (_updateFragments _ _ _ _ _) as [[upd txn2]|] eqn:Hupd;
      cbn [bindR]; [|discriminate].
    intros H. inversion H; subst.
    rewrite (updateFragments_events _ _ _ _ _ _ _ Hupd).
    unfold _storeEvents in Hstore.
    exact (proj1 (storeLoop_rows _ _ _ _ Hrw _ _ _ _ _ _ _ _ _ _ _ Hstore)).
Qed.

End Wellformed.

(** X13. A fill keeps the store well formed. With a relation writer that
    keeps to the relation fields, in a store whose event ids are non-empty
    and whose events belong to stored fragments: a successful fill keeps the
    key and id of every stored event and appends exactly the events of the
    chunk that were not stored, in the order of the chunk, at the successive
    keys after the edge key of the filled fragment; it removes no fragment;
    and when the chunk's event ids are non-empty the two store properties
    hold again afterwards. *)
Theorem fill_keeps_store_wellformed
  (roomId : string) (rw : RelationWriter)
  (fromMemberEvent fromReplacingMemberEvent : string -> Event -> option RoomMember.t)
  (fragmentEntry : FragmentBoundaryEntry.t) (response : MessagesResponse)
  (txn txn' : Txn) (res : WriteResult) (events : list Event) :
  RelationWriterFrame rw ->
  storedIdsNonEmpty txn ->
  eventsHaveFragments txn ->
  chunk response = Some events ->
  writeFragmentFill roomId rw fromMemberEvent fromReplacingMemberEvent
                    fragmentEntry response txn = Ok (res, txn') ->
  (exists fragment,
      TimelineFragmentStore.get txn (FragmentBoundaryEntry.fragmentId fragmentEntry)
      = Some fragment
      /\ map rowIdentity (timelineEvents txn')
         = map rowIdentity (timelineEvents txn)
           ++ plannedRows
                (_findFragmentEdgeEventKey
                   (FragmentBoundaryEntry.withUpdatedFragment fragmentEntry fragment) txn)
                (FragmentBoundaryEntry.direction fragmentEntry)
                (filter (notStored txn) events))
  /\ (forall k, TimelineFragmentStore.get txn k <> None ->
                TimelineFragmentStore.get txn' k <> None)
  /\ ((forall e, In e events -> event_id e <> EmptyString) ->
      storedIdsNonEmpty txn' /\ eventsHaveFragments txn').
Proof.
  intros Hrw Hids Hfrags Hchunk H.
  destruct (fill_effect _ _ _ _ Hrw _ _ _ _ _ H) as (fragment & Hget & _ & Heffect).
  pose proof (fill_rows _ _ _ _ Hrw _ _ _ _ _ _ _ Hids Hfrags Hchunk Hget H) as Hrows.
  assert (Hmono : forall k, TimelineFragmentStore.get txn k <> None ->
                            TimelineFragmentStore.get txn' k <> None).
  { intros k Hk. destruct Heffect as [_ Hput _ _|tok _ _ Hput _|n fe1 n1 _ _ _ _ _ Hput _].
    - rewrite (get_put1 _ _ _ k Hput). destruct (_ =? _)%Z; [discriminate|exact Hk].
    - rewrite (get_put1 _ _ _ k Hput). destruct (_ =? _)%Z; [discriminate|exact Hk].
    - rewrite (get_put2 _ _ _ _ k Hput).
      destruct (_ =? _)%Z; [discriminate|]. destruct (_ =? _)%Z; [discriminate|exact Hk]. }
  split; [|split].
  - exists fragment. split; [exact Hget|exact Hrows].
  - exact Hmono.
  - intros Hne. apply (extension_wellformed txn txn' _ Hids Hfrags Hrows); [|exact Hmono].
    intros row Hrow. split.
    + destruct (plannedRows_id_in _ _ _ _ Hrow) as (e & He & ->).
      apply Hne. now apply filter_In in He as [He _].
    + change (FragmentBoundaryEntry.direction fragmentEntry)
        with (FragmentBoundaryEntry.direction
                (FragmentBoundaryEntry.withUpdatedFragment fragmentEntry fragment)) in Hrow.
      rewrite (proj1 (edgeKey_fresh _ _ _ _ Hrow)).
      apply Hmono.
      change (FragmentBoundaryEntry.fragmentId
                (FragmentBoundaryEntry.withUpdatedFragment fragmentEntry fragment))
        with (Fragment.id fragment).
      rewrite (get_id _ _ _ Hget), Hget. discriminate.
Qed.

Lemma fill_keeps_store_wellformed_witness :
  exists res txn',
    Scenario.fill (FragmentBoundaryEntry.start Timelines.F)
                  (Build_MessagesResponse
                     (Some [Scenario.message "$a"; Scenario.message "$z"])
                     "t" (Some "u") None)
                  Timelines.oneEvent = Ok (res, txn')
    /\ map rowIdentity (timelineEvents txn') = [((1, 10), "$a"); ((1, 9), "$z")]
    /\ storedIdsNonEmpty txn' /\ eventsHaveFragments txn'.
Proof.
  eexists _, _. split; [vm_compute; reflexivity|].
  destruct (fill_keeps_store_wellformed
              Scenario.roomId Scenario.noRelations Scenario.fromMemberEvent
              Scenario.fromReplacingMemberEvent
              (FragmentBoundaryEntry.start Timelines.F)
              (Build_MessagesResponse
                 (Some [Scenario.message "$a"; Scenario.message "$z"])
                 "t" (Some "u") None)
              Timelines.oneEvent _ _ [Scenario.message "$a"; Scenario.message "$z"]
              noRelations_frame eq_refl
              ltac:(intros r [Hr|[]]; subst r; vm_compute; discriminate)
              eq_refl eq_refl)
    as (_ & _ & Hwf).
  split; [reflexivity|].
  apply Hwf. intros e [He|[He|[]]]; subst e; discriminate.
Defined.



(** ** Log items *)

Lemma item_induction (P : LogItem.t -> Prop) :
  (forall s e values err level en, P (LogItem.mk s e values err level None en)) ->
  (forall s e values err level children en,
      Forall P children -> P (LogItem.mk s e values err level (Some children) en)) ->
  forall this, P this.
Proof.
  intros Hleaf Hnode. fix IH 1. intros [s e values err level [children|] en].
  - apply Hnode. induction children as [|c children IHc]; constructor.
    + apply IH.
    + exact IHc.
  - apply Hleaf.
Qed.

Section LogItems.
Variable clock : nat -> Z.
Variable LogLevel_Info LogLevel_Error : Z.

Lemma finish_equation (this : LogItem.t) (tick : nat) :
  LogItem.finish clock this tick
  = match LogItem._end this with
    | Some _ => (this, tick)
    | None =>
        let '(children, tick') :=
          match LogItem._children this with
          | Some children =>
              let '(children, tick') := LogItem.finishEach clock children tick in
              (Some children, tick')
          | None => (None, tick)
          end in
        (LogItem.mk (LogItem._start this) (Some (clock tick')) (LogItem._values this)
                    (LogItem.error this) (LogItem.logLevel this) children
                    (LogItem.end_ this),
         S tick')
    end.
Proof.
  destruct this as [s [e|] values err level [children|] en]; reflexivity.
Qed.

Lemma finish_ended (this : LogItem.t) (tick : nat) :
  LogItem.ended (fst (LogItem.finish clock this tick)) = true.
Proof.
  rewrite finish_equation. unfold LogItem.ended.
  destruct (LogItem._end this) eqn:He; simpl; [now rewrite He|].
  destruct (LogItem._children this) as [children|].
  - destruct (LogItem.finishEach clock children tick). reflexivity.
  - reflexivity.
Qed.
End LogItems.

Lemma items_equation (this : LogItem.t) :
  LogItem.items this = this :: flat_map LogItem.items (LogItem.childrenOf this).
Proof. destruct this as [s e values err level [children|] en]; reflexivity. Qed.

Lemma closed_equation (this : LogItem.t) :
  LogItem.closed this
  = forallb LogItem.closed (LogItem.childrenOf this)
    && (negb (LogItem.ended this)
        || forallb LogItem.ended (flat_map LogItem.items (LogItem.childrenOf this))).
Proof.
  destruct this as [s e values err level [children|] en];
    unfold LogItem.ended, LogItem.childrenOf; simpl.
  - f_equal. destruct e; simpl; [|reflexivity].
    induction children as [|c children IH]; simpl; [reflexivity|].
    now rewrite forallb_app, IH.
  - now destruct e.
Qed.

Lemma timely_equation (clock : nat -> Z) (tick : nat) (this : LogItem.t) :
  LogItem.timely clock tick this
  = (LogItem._start this <=? clock tick)%Z
    && match LogItem._end this with
       | Some e => (LogItem._start this <=? e)%Z && (e <=? clock tick)%Z
       | None => true
       end
    && forallb (fun c => (LogItem._start this <=? LogItem._start c)%Z
                         && LogItem.timely clock tick c)
               (LogItem.childrenOf this).
Proof.
  destruct this as [s e values err level [children|] en]; reflexivity.
Qed.

Lemma timely_spec (clock : nat -> Z) (tick : nat) (this : LogItem.t) :
  LogItem.timely clock tick this = true
  <-> LogItem._start this <= clock tick
      /\ (forall e, LogItem._end this = Some e ->
                    LogItem._start this <= e /\ e <= clock tick)
      /\ (forall c, In c (LogItem.childrenOf this) ->
                    LogItem._start this <= LogItem._start c
                    /\ LogItem.timely clock tick c = true).
Proof.
  rewrite timely_equation, !andb_true_iff, forallb_forall, Z.leb_le. split.
  - intros [[Hs He] Hc]. split; [exact Hs|]. split.
    + intros e Heq. rewrite Heq in He. apply andb_true_iff in He as [H1 H2].
      now rewrite Z.leb_le in H1, H2.
    + intros c Hin. specialize (Hc c Hin). apply andb_true_iff in Hc as [H1 H2].
      now rewrite Z.leb_le in H1.
  - intros (Hs & He & Hc). split; [split; [exact Hs|]|].
    + destruct (LogItem._end this) as [e|]; [|reflexivity].
      destruct (He e eq_refl) as [H1 H2]. apply andb_true_iff.
      now rewrite !Z.leb_le.
    + intros c Hin. destruct (Hc c Hin) as [H1 H2]. apply andb_true_iff.
      now rewrite Z.leb_le.
Qed.

Lemma all_ended_none_open (l : list LogItem.t) :
  forallb LogItem.ended l = true ->
  filter (fun item => negb (LogItem.ended item)) l = [].
Proof.
  induction l as [|x l IH]; simpl; [reflexivity|].
  intros H. apply andb_true_iff in H as [Hx Hl]. rewrite Hx. simpl. auto.
Qed.

Section Finish.
Variable clock : nat -> Z.

Lemma finishEach_children (cs : list LogItem.t) :
  Forall (fun c => forall tick,
              LogItem.closed c = true ->
              forallb LogItem.ended (LogItem.items (fst (LogItem.finish clock c tick))) = true
              /\ snd (LogItem.finish clock c tick) = (tick + LogItem.openItems c)%nat) cs ->
  forallb LogItem.closed cs = true ->
  forall tick,
    forallb LogItem.ended
            (flat_map LogItem.items (fst (LogItem.finishEach clock cs tick))) = true
    /\ snd (LogItem.finishEach clock cs tick)
       = (tick + List.length (filter (fun item => negb (LogItem.ended item))
                                     (flat_map LogItem.items cs)))%nat.
Proof.
  induction 1 as [|c cs Hc _ IH]; intros Hclosed tick; simpl.
  - split; [reflexivity|lia].
  - apply andb_true_iff in Hclosed as [Hcc Hcs].
    destruct (Hc tick Hcc) as [Hended Htick].
    destruct (LogItem.finish clock c tick) as [c' tick1]. simpl in Hended, Htick.
    destruct (IH Hcs tick1) as [Hended' Htick'].
    destruct (LogItem.finishEach clock cs tick1) as [cs' tick2]. simpl in *.
    split.
    + now rewrite forallb_app, Hended, Hended'.
    + rewrite filter_app, length_app. unfold LogItem.openItems in Htick. lia.
Qed.

Lemma finish_closed (this : LogItem.t) :
  forall tick,
    LogItem.closed this = true ->
    forallb LogItem.ended (LogItem.items (fst (LogItem.finish clock this tick))) = true
    /\ snd (LogItem.finish clock this tick) = (tick + LogItem.openItems this)%nat.
Proof.
  induction this as [s e values err level en|s e values err level children en IH]
    using item_induction; intros tick Hclosed.
  - rewrite finish_equation. destruct e as [e|]; simpl; split; try reflexivity.
    all: unfold LogItem.openItems, LogItem.ended; simpl; lia.
  - rewrite finish_equation. rewrite closed_equation in Hclosed.
    apply andb_true_iff in Hclosed as [Hcs Hbelow].
    cbn [LogItem.childrenOf LogItem._children] in Hcs, Hbelow.
    destruct e as [e|].
    + change (forallb LogItem.ended (flat_map LogItem.items children) = true) in Hbelow.
      cbn [LogItem._end fst snd]. rewrite items_equation.
      cbn [LogItem.childrenOf LogItem._children forallb]. rewrite Hbelow.
      split; [reflexivity|].
      unfold LogItem.openItems. rewrite items_equation.
      cbn [LogItem.childrenOf LogItem._children filter LogItem.ended LogItem._end negb].
      rewrite (all_ended_none_open _ Hbelow). simpl. lia.
    + destruct (finishEach_children children IH Hcs tick) as [Hended Htick].
      cbn [LogItem._end LogItem._children].
      destruct (LogItem.finishEach clock children tick) as [cs' tick'].
      cbn [fst snd] in *. rewrite items_equation.
      cbn [LogItem.childrenOf LogItem._children forallb LogItem.ended LogItem._end].
      split; [exact Hended|].
      unfold LogItem.openItems. rewrite items_equation.
      cbn [LogItem.childrenOf LogItem._children filter LogItem.ended LogItem._end negb
           List.length].
      lia.
Qed.

Lemma finish_twice (this : LogItem.t) (tick : nat) :
  LogItem.finish clock (fst (LogItem.finish clock this tick))
                 (snd (LogItem.finish clock this tick))
  = LogItem.finish clock this tick.
Proof.
  pose proof (finish_ended clock this tick) as H.
  destruct (LogItem.finish clock this tick) as [this' tick']. simpl in *.
  rewrite finish_equation. unfold LogItem.ended in H.
  now destruct (LogItem._end this').
Qed.
End Finish.

Section Timely.
Variable clock : nat -> Z.
Variable LogLevel_Info LogLevel_Error : Z.
Hypothesis Hmono : forall n, clock n <= clock (S n).

Lemma clock_le (n m : nat) : (n <= m)%nat -> clock n <= clock m.
Proof.
  induction 1 as [|m _ IH]; [lia|]. pose proof (Hmono m). lia.
Qed.

Lemma timely_later (this : LogItem.t) :
  forall tick tick',
    (tick <= tick')%nat ->
    LogItem.timely clock tick this = true -> LogItem.timely clock tick' this = true.
Proof.
  induction this as [s e values err level en|s e values err level children en IH]
    using item_induction; intros tick tick' Hle; rewrite !timely_spec;
    pose proof (clock_le _ _ Hle) as Hc; cbn [LogItem.childrenOf LogItem._children];
    intros (Hs & He & Hch).
  - split; [lia|]. split; [|contradiction].
    intros e0 Heq. specialize (He e0 Heq). lia.
  - split; [lia|]. split.
    + intros e0 Heq. specialize (He e0 Heq). lia.
    + intros c Hin. destruct (Hch c Hin) as [H1 H2]. split; [exact H1|].
      rewrite Forall_forall in IH. exact (IH c Hin tick tick' Hle H2).
Qed.

Lemma finishEach_timely (s : Z) (cs : list LogItem.t) :
  Forall (fun c => forall tick,
              LogItem.timely clock tick c = true ->
              LogItem.timely clock (snd (LogItem.finish clock c tick))
                             (fst (LogItem.finish clock c tick)) = true
              /\ (tick <= snd (LogItem.finish clock c tick))%nat
              /\ LogItem._start (fst (LogItem.finish clock c tick)) = LogItem._start c)
         cs ->
  forall tick,
    (forall c, In c cs -> s <= LogItem._start c /\ LogItem.timely clock tick c = true) ->
    (forall c, In c (fst (LogItem.finishEach clock cs tick)) ->
               s <= LogItem._start c
               /\ LogItem.timely clock (snd (LogItem.finishEach clock cs tick)) c = true)
    /\ (tick <= snd (LogItem.finishEach clock cs tick))%nat.
Proof.
  induction 1 as [|c cs Hc _ IH]; intros tick Hall; cbn [LogItem.finishEach].
  - split; [contradiction|]. simpl. lia.
  - destruct (Hall c (or_introl eq_refl)) as [Hsc Htc].
    destruct (Hc tick Htc) as (Ht1 & Hle1 & Hst1).
    destruct (LogItem.finish clock c tick) as [c' tick1]. cbn [fst snd] in *.
    destruct (IH tick1) as [Hrest Hle2].
    { intros d Hd. destruct (Hall d (or_intror Hd)) as [H1 H2]. split; [exact H1|].
      exact (timely_later d tick tick1 Hle1 H2). }
    destruct (LogItem.finishEach clock cs tick1) as [cs' tick2]. cbn [fst snd] in *.
    split; [|lia].
    intros d [Hd|Hd].
    + subst d. split; [lia|]. exact (timely_later c' tick1 tick2 Hle2 Ht1).
    + exact (Hrest d Hd).
Qed.

Lemma finish_timely (this : LogItem.t) :
  forall tick,
    LogItem.timely clock tick this = true ->
    LogItem.timely clock (snd (LogItem.finish clock this tick))
                   (fst (LogItem.finish clock this tick)) = true
    /\ (tick <= snd (LogItem.finish clock this tick))%nat
    /\ LogItem._start (fst (LogItem.finish clock this tick)) = LogItem._start this.
Proof.
  induction this as [s e values err level en|s e values err level children en IH]
    using item_induction; intros tick Ht; rewrite finish_equation;
    cbn [LogItem._end LogItem._children LogItem._start].
  - destruct e as [e|]; cbn [fst snd]; [repeat split; auto|].
    split; [|split; [lia|reflexivity]].
    apply timely_spec in Ht as (Hs & _ & _). cbn [LogItem._start] in Hs.
    apply timely_spec. cbn [LogItem._start LogItem._end LogItem.childrenOf LogItem._children].
    pose proof (Hmono tick). split; [lia|]. split; [|contradiction].
    intros e0 Heq. inversion Heq; subst. lia.
  - destruct e as [e|]; cbn [fst snd]; [repeat split; auto|].
    apply timely_spec in Ht as (Hs & _ & Hch).
    cbn [LogItem._start LogItem.childrenOf LogItem._children] in Hs, Hch.
    destruct (finishEach_timely s children IH tick Hch) as [Hall Hle].
    destruct (LogItem.finishEach clock children tick) as [cs' tick']. cbn [fst snd] in *.
    split; [|split; [lia|reflexivity]].
    apply timely_spec. cbn [LogItem._start LogItem._end LogItem.childrenOf LogItem._children].
    pose proof (clock_le _ _ Hle). pose proof (Hmono tick').
    split; [lia|]. split.
    + intros e0 Heq. inversion Heq; subst. lia.
    + intros c Hin. destruct (Hall c Hin) as [H1 H2]. split; [exact H1|].
      exact (timely_later c tick' (S tick') (le_S _ _ (le_n _)) H2).
Qed.

Lemma child_timely (this : LogItem.t) (labelOrValues : LogItem.LabelOrValues)
      (logLevel : option Z) (tick : nat) :
  LogItem.timely clock tick this = true ->
  forall item this' tick',
    LogItem.child clock LogLevel_Info this labelOrValues logLevel tick
    = (item, this', tick') ->
    tick' = S tick
    /\ LogItem._start this' = LogItem._start this
    /\ LogItem._end this' = LogItem._end this
    /\ LogItem._children this' = Some (LogItem.childrenOf this ++ [item])
    /\ LogItem._start item = clock tick
    /\ LogItem._end item = None
    /\ LogItem._children item = None
    /\ LogItem.timely clock tick' this' = true.
Proof.
  intros Ht item this' tick' H. unfold LogItem.child, LogItem.new in H.
  inversion H; subst; clear H.
  cbn [LogItem.set_children LogItem._start LogItem._end LogItem._children].
  repeat (split; [reflexivity|]).
  pose proof (timely_later this tick (S tick) (le_S _ _ (le_n _)) Ht) as Ht'.
  apply timely_spec in Ht as (Hs & _ & _).
  apply timely_spec in Ht' as (Hs' & He' & Hch').
  apply timely_spec.
  cbn [LogItem.set_children LogItem._start LogItem._end LogItem.childrenOf
       LogItem._children].
  split; [exact Hs'|]. split; [exact He'|].
  intros c Hin. apply in_app_or in Hin as [Hin|[Hin|[]]].
  - apply Hch'. exact Hin.
  - subst c. cbn [LogItem._start]. split; [exact Hs|].
    apply timely_spec. cbn [LogItem._start LogItem._end LogItem.childrenOf LogItem._children].
    pose proof (Hmono tick). split; [lia|]. split; [discriminate|contradiction].
Qed.

Lemma replaceLast_snoc (this item item' : LogItem.t) (cs : list LogItem.t) :
  LogItem._children this = Some (cs ++ [item]) ->
  LogItem.replaceLastChild this item'
  = LogItem.set_children this (Some (cs ++ [item'])).
Proof.
  intros H. unfold LogItem.replaceLastChild. rewrite H.
  now rewrite removelast_last.
Qed.

Lemma replace_child_timely (this c c' : LogItem.t) (before after : list LogItem.t)
      (tick tick' : nat) :
  LogItem._children this = Some (before ++ c :: after) ->
  (tick <= tick')%nat ->
  LogItem._start c' = LogItem._start c ->
  LogItem.timely clock tick' c' = true ->
  LogItem.timely clock tick this = true ->
  LogItem.timely clock tick'
                 (LogItem.set_children this (Some (before ++ c' :: after))) = true.
Proof.
  intros Hch Hle Hst Hc' Ht.
  pose proof (timely_later this tick tick' Hle Ht) as Ht'.
  apply timely_spec in Ht' as (Hs & He & Hall).
  unfold LogItem.childrenOf in Hall. rewrite Hch in Hall.
  apply timely_spec.
  cbn [LogItem.set_children LogItem._start LogItem._end LogItem.childrenOf
       LogItem._children].
  split; [exact Hs|]. split; [exact He|].
  intros d Hin. apply in_app_or in Hin as [Hin|[Hin|Hin]].
  - apply Hall. apply in_or_app. now left.
  - subst d. rewrite Hst. split; [|exact Hc'].
    apply (Hall c). apply in_or_app. right. now left.
  - apply Hall. apply in_or_app. right. now right.
Qed.

Lemma same_times_timely (this this' : LogItem.t) (tick : nat) :
  LogItem._start this' = LogItem._start this ->
  LogItem._end this' = LogItem._end this ->
  LogItem._children this' = LogItem._children this ->
  LogItem.timely clock tick this = true ->
  LogItem.timely clock tick this' = true.
Proof.
  intros H1 H2 H3. rewrite !timely_equation. unfold LogItem.childrenOf.
  now rewrite H1, H2, H3.
Qed.

Lemma step_timely (st st' : LogItem.t * nat) :
  LogItem.Step clock LogLevel_Info LogLevel_Error st st' ->
  LogItem.timely clock (snd st) (fst st) = true ->
  LogItem.timely clock (snd st') (fst st') = true
  /\ (snd st <= snd st')%nat
  /\ LogItem._start (fst st') = LogItem._start (fst st).
Proof.
  induction 1 as [this lov level tick|this lov level tick|this key value tick
                  |this tick|this err tick
                  |this before c after c' tick tick' Hch Hstep IH];
    cbn [fst snd]; intros Ht.
  - destruct (LogItem.child clock LogLevel_Info this lov level tick)
      as [[item this'] tick'] eqn:Hchild.
    destruct (child_timely _ _ _ _ Ht _ _ _ Hchild) as (-> & Hs & _ & _ & _ & _ & _ & Ht').
    cbn [fst snd]. split; [exact Ht'|]. split; [lia|exact Hs].
  - unfold LogItem.log.
    destruct (LogItem.child clock LogLevel_Info this lov level tick)
      as [[item this'] tick'] eqn:Hchild.
    destruct (child_timely _ _ _ _ Ht _ _ _ Hchild)
      as (-> & Hs & _ & Hcs & _ & _ & _ & Ht').
    rewrite (replaceLast_snoc _ _ _ _ Hcs). cbn [fst snd].
    split; [|split; [lia|exact Hs]].
    apply (replace_child_timely this' item _ (LogItem.childrenOf this) [] (S tick) (S tick));
      auto.
    apply timely_spec in Ht' as (_ & _ & Hall).
    unfold LogItem.childrenOf in Hall at 1. rewrite Hcs in Hall.
    destruct (Hall item) as [_ Hi]; [apply in_or_app; right; now left|].
    revert Hi. apply same_times_timely; reflexivity.
  - split; [|split; [lia|now destruct key]].
    revert Ht. apply same_times_timely; now destruct key.
  - exact (finish_timely this tick Ht).
  - unfold LogItem.catch_.
    set (this1 := LogItem.set_logLevel (LogItem.set_error this (Some err))
                                       (Some LogLevel_Error)).
    assert (Ht1 : LogItem.timely clock tick this1 = true).
    { revert Ht. apply same_times_timely; reflexivity. }
    destruct (finish_timely this1 tick Ht1) as (H1 & H2 & H3).
    destruct (LogItem.finish clock this1 tick) as [this2 tick2]. cbn [fst snd] in *.
    split; [exact H1|]. split; [exact H2|]. rewrite H3. reflexivity.
  - assert (Htc : LogItem.timely clock tick c = true).
    { apply timely_spec in Ht as (_ & _ & Hall).
      unfold LogItem.childrenOf in Hall. rewrite Hch in Hall.
      apply (Hall c). apply in_or_app. right. now left. }
    destruct (IH Htc) as (Hc' & Hle & Hst). cbn [fst snd] in *.
    split; [|split; [exact Hle|reflexivity]].
    exact (replace_child_timely this c c' before after tick tick' Hch Hle Hst Hc' Ht).
Qed.

Lemma reachable_timely (st : LogItem.t * nat) :
  LogItem.Reachable clock LogLevel_Info LogLevel_Error st ->
  LogItem.timely clock (snd st) (fst st) = true.
Proof.
  induction 1 as [lov level tick|st st' _ IH Hstep].
  - cbn [LogItem.new fst snd]. apply timely_spec.
    cbn [LogItem._start LogItem._end LogItem.childrenOf LogItem._children].
    pose proof (Hmono tick). split; [lia|]. split; [discriminate|contradiction].
  - exact (proj1 (step_timely st st' Hstep IH)).
Qed.
End Timely.

Lemma timely_items (clock : nat -> Z) (this : LogItem.t) :
  forall tick item,
    LogItem.timely clock tick this = true ->
    In item (LogItem.items this) ->
    forall e, LogItem._end item = Some e -> LogItem._start item <= e.
Proof.
  induction this as [s e values err level en|s e values err level children en IH]
    using item_induction; intros tick item Ht; rewrite items_equation;
    cbn [LogItem.childrenOf LogItem._children flat_map]; apply timely_spec in Ht
    as (_ & He & Hall).
  - intros [<-|[]] e0 Heq. exact (proj1 (He e0 Heq)).
  - intros [<-|Hin] e0 Heq; [exact (proj1 (He e0 Heq))|].
    apply in_flat_map in Hin as (c & Hc & Hin).
    rewrite Forall_forall in IH.
    exact (IH c Hc tick item (proj2 (Hall c Hc)) Hin e0 Heq).
Qed.

Lemma timely_below (clock : nat -> Z) (this : LogItem.t) :
  forall tick item,
    LogItem.timely clock tick this = true ->
    In item (LogItem.items this) ->
    LogItem.timely clock tick item = true.
Proof.
  induction this as [s e values err level en|s e values err level children en IH]
    using item_induction; intros tick item Ht; rewrite items_equation;
    cbn [LogItem.childrenOf LogItem._children flat_map].
  - intros [<-|[]]. exact Ht.
  - intros [<-|Hin]; [exact Ht|].
    apply timely_spec in Ht as (_ & _ & Hall).
    apply in_flat_map in Hin as (c & Hc & Hin).
    rewrite Forall_forall in IH.
    exact (IH c Hc tick item (proj2 (Hall c Hc)) Hin).
Qed.

Section FinishFacts.
Variable clock : nat -> Z.

Lemma finish_fields (this : LogItem.t) (tick : nat) :
  LogItem._start (fst (LogItem.finish clock this tick)) = LogItem._start this
  /\ LogItem._values (fst (LogItem.finish clock this tick)) = LogItem._values this
  /\ LogItem.error (fst (LogItem.finish clock this tick)) = LogItem.error this
  /\ LogItem.logLevel (fst (LogItem.finish clock this tick)) = LogItem.logLevel this
  /\ LogItem.end_ (fst (LogItem.finish clock this tick)) = LogItem.end_ this.
Proof.
  rewrite finish_equation. destruct (LogItem._end this); [repeat split|].
  destruct (LogItem._children this) as [children|].
  - destruct (LogItem.finishEach clock children tick). repeat split.
  - repeat split.
Qed.

Lemma finish_tick_le (this : LogItem.t) :
  forall tick, (tick <= snd (LogItem.finish clock this tick))%nat.
Proof.
  induction this as [s e values err level en|s e values err level children en IH]
    using item_induction; intros tick; rewrite finish_equation;
    cbn [LogItem._end LogItem._children]; destruct e as [e|]; cbn [snd]; try lia.
  assert (Heach : forall k, (k <= snd (LogItem.finishEach clock children k))%nat).
  { induction IH as [|c cs Hc _ IHcs]; intros k; cbn [LogItem.finishEach]; [simpl; lia|].
    specialize (Hc k). destruct (LogItem.finish clock c k) as [c' k1].
    specialize (IHcs k1). destruct (LogItem.finishEach clock cs k1) as [cs' k2].
    cbn [snd] in *. lia. }
  specialize (Heach tick).
  destruct (LogItem.finishEach clock children tick) as [cs' tick']. cbn [snd] in *. lia.
Qed.

Lemma finishEach_tick_le (cs : list LogItem.t) :
  forall tick, (tick <= snd (LogItem.finishEach clock cs tick))%nat.
Proof.
  induction cs as [|c cs IH]; intros tick; cbn [LogItem.finishEach]; [simpl; lia|].
  pose proof (finish_tick_le c tick) as Hc.
  destruct (LogItem.finish clock c tick) as [c' k1].
  specialize (IH k1). destruct (LogItem.finishEach clock cs k1) as [cs' k2].
  cbn [snd] in *. lia.
Qed.

Lemma finishEach_app (a b : list LogItem.t) :
  forall tick,
    LogItem.finishEach clock (a ++ b) tick
    = (fst (LogItem.finishEach clock a tick)
       ++ fst (LogItem.finishEach clock b (snd (LogItem.finishEach clock a tick))),
       snd (LogItem.finishEach clock b (snd (LogItem.finishEach clock a tick)))).
Proof.
  induction a as [|c a IH]; intros tick; cbn [LogItem.finishEach app].
  - simpl. now destruct (LogItem.finishEach clock b tick).
  - destruct (LogItem.finish clock c tick) as [c' k1]. rewrite IH.
    destruct (LogItem.finishEach clock a k1) as [a' k2]. reflexivity.
Qed.
End FinishFacts.

Lemma lastChild_snoc (this item : LogItem.t) (cs : list LogItem.t) :
  LogItem._children this = Some (cs ++ [item]) -> LogItem.lastChild this = Some item.
Proof.
  intros H. unfold LogItem.lastChild. rewrite H, map_app. simpl. apply last_last.
Qed.

Section Calls.
Variable clock : nat -> Z.
Variable LogLevel_Info LogLevel_Error : Z.

Lemma child_shape (this : LogItem.t) (labelOrValues : LogItem.LabelOrValues)
      (logLevel : option Z) (tick : nat) :
  exists item,
    LogItem.child clock LogLevel_Info this labelOrValues logLevel tick
    = (item, LogItem.set_children this (Some (LogItem.childrenOf this ++ [item])), S tick)
    /\ LogItem._start item = clock tick
    /\ LogItem._end item = None
    /\ LogItem._children item = None
    /\ LogItem.error item = None.
Proof.
  unfold LogItem.child, LogItem.new. eexists. split; [reflexivity|]. repeat split.
Qed.

Lemma run_outcome {A : Type} (this : LogItem.t)
      (callback : LogItem.t -> nat -> LogItem.Completion A * LogItem.t * nat)
      (tick : nat) :
  match LogItem.run clock LogLevel_Error this callback tick with
  | (LogItem.Returned r, this', tick') =>
      exists this1 tick1,
        callback this tick = (LogItem.Returned r, this1, tick1)
        /\ LogItem.ended this' = true
        /\ LogItem.error this' = LogItem.error this1
        /\ LogItem.logLevel this' = LogItem.logLevel this1
  | (LogItem.Thrown err, this', tick') =>
      exists this1 tick1,
        callback this tick = (LogItem.Thrown err, this1, tick1)
        /\ LogItem.ended this' = true
        /\ LogItem.error this' = Some err
        /\ LogItem.logLevel this' = Some LogLevel_Error
  | (LogItem.Pending, this', tick') =>
      callback this tick = (LogItem.Pending, this', tick')
  end.
Proof.
  unfold LogItem.run. destruct (callback this tick) as [[[r|err|] this1] tick1].
  - pose proof (finish_ended clock this1 tick1) as He.
    destruct (finish_fields clock this1 tick1) as (_ & _ & Herr & Hlevel & _).
    destruct (LogItem.finish clock this1 tick1) as [this' tick'].
    exists this1, tick1. repeat split; assumption.
  - unfold LogItem.catch_.
    set (this2 := LogItem.set_logLevel (LogItem.set_error this1 (Some err))
                                       (Some LogLevel_Error)).
    pose proof (finish_ended clock this2 tick1) as He.
    destruct (finish_fields clock this2 tick1) as (_ & _ & Herr & Hlevel & _).
    destruct (LogItem.finish clock this2 tick1) as [this' tick'].
    exists this1, tick1. repeat split; assumption.
  - reflexivity.
Qed.
End Calls.

(** X15. [finish] on a tree with no open item below a finished one leaves
    no item open, and reads the clock exactly once for each item that was
    open. *)
Theorem finish_ends_every_open_item
  (clock : nat -> Z) (this : LogItem.t) (tick : nat) :
  LogItem.closed this = true ->
  forallb LogItem.ended (LogItem.items (fst (LogItem.finish clock this tick))) = true
  /\ snd (LogItem.finish clock this tick) = (tick + LogItem.openItems this)%nat.
Proof. intros H. exact (finish_closed clock this tick H). Qed.

Lemma finish_ends_every_open_item_witness :
  let clock := fun n => 1000 + Z.of_nat n in
  let root := fst (LogItem.new clock (LogItem.Label "sync") (Some 4) 0) in
  let '(_, root, tick) := LogItem.child clock 4 root (LogItem.Label "room") None 1 in
  let '(root, tick) := LogItem.log clock 4 root (LogItem.Label "gap") None tick in
  LogItem.openItems root = 3%nat
  /\ forallb LogItem.ended (LogItem.items (fst (LogItem.finish clock root tick))) = true
  /\ snd (LogItem.finish clock root tick) = (tick + LogItem.openItems root)%nat.
Proof.
  cbv zeta. cbn [LogItem.child LogItem.log LogItem.new fst snd].
  split; [reflexivity|].
  apply (finish_ends_every_open_item (fun n => 1000 + Z.of_nat n)). reflexivity.
Defined.

(** X16. [finish] is final: the item is finished afterwards, and finishing
    again changes nothing and reads no clock; an item that is finished
    already is returned as it is, with the items below it, open or not. *)
Theorem finish_is_final (clock : nat -> Z) (this : LogItem.t) (tick : nat) :
  LogItem.ended (fst (LogItem.finish clock this tick)) = true
  /\ LogItem.finish clock (fst (LogItem.finish clock this tick))
                    (snd (LogItem.finish clock this tick))
     = LogItem.finish clock this tick
  /\ (LogItem.ended this = true -> LogItem.finish clock this tick = (this, tick)).
Proof.
  split; [apply finish_ended|]. split; [apply finish_twice|].
  intros H. rewrite finish_equation. unfold LogItem.ended in H.
  now destruct (LogItem._end this).
Qed.

(** X17. With a clock that never goes back, in every tree built from a new
    item by calls of [child], [log], [set], [finish] and [catch] on any of
    its items, in any order: no item starts before its parent, no finished
    item ends before it started, and no duration is negative. *)
Theorem reachable_durations_nonnegative
  (clock : nat -> Z) (LogLevel_Info LogLevel_Error : Z) (this : LogItem.t) (tick : nat) :
  (forall n, clock n <= clock (S n)) ->
  LogItem.Reachable clock LogLevel_Info LogLevel_Error (this, tick) ->
  forall item,
    In item (LogItem.items this) ->
    (forall c, In c (LogItem.childrenOf item) -> LogItem._start item <= LogItem._start c)
    /\ (forall e, LogItem._end item = Some e -> LogItem._start item <= e)
    /\ (forall d, LogItem.duration item = Some d -> 0 <= d).
Proof.
  intros Hmono Hreach item Hin.
  pose proof (reachable_timely clock LogLevel_Info LogLevel_Error Hmono _ Hreach) as Ht.
  cbn [fst snd] in Ht.
  pose proof (timely_below clock this tick item Ht Hin) as Hitem.
  apply timely_spec in Hitem as (_ & He & Hall).
  split; [|split].
  - intros c Hc. exact (proj1 (Hall c Hc)).
  - intros e Heq. exact (proj1 (He e Heq)).
  - intros d. unfold LogItem.duration.
    destruct (LogItem._end item) as [e|]; [|discriminate].
    destruct (e =? 0)%Z; [discriminate|].
    intros Hd. inversion Hd; subst. pose proof (proj1 (He e eq_refl)). lia.
Qed.

Lemma reachable_durations_nonnegative_witness :
  let clock := fun n : nat => 1000 + Z.of_nat n in
  let st0 := LogItem.new clock (LogItem.Label "sync") (Some 4) 0 in
  let st1 := LogItem.log clock 4 (fst st0) (LogItem.Label "gap") None (snd st0) in
  let st2 := LogItem.finish clock (fst st1) (snd st1) in
  (forall n, clock n <= clock (S n))
  /\ LogItem.Reachable clock 4 6 st2
  /\ forall item,
      In item (LogItem.items (fst st2)) ->
      (forall c, In c (LogItem.childrenOf item) -> LogItem._start item <= LogItem._start c)
      /\ (forall e, LogItem._end item = Some e -> LogItem._start item <= e)
      /\ (forall d, LogItem.duration item = Some d -> 0 <= d).
Proof.
  intros clock st0 st1 st2.
  assert (Hmono : forall n, clock n <= clock (S n)) by (intros n; unfold clock; lia).
  assert (Hreach : LogItem.Reachable clock 4 6 (fst st2, snd st2)).
  { apply (LogItem.ReachStep clock 4 6 (fst st1, snd st1));
      [|exact (LogItem.StepFinish clock 4 6 (fst st1) (snd st1))].
    apply (LogItem.ReachStep clock 4 6 (fst st0, snd st0));
      [|exact (LogItem.StepLog clock 4 6 (fst st0) (LogItem.Label "gap") None (snd st0))].
    exact (LogItem.ReachNew clock 4 6 (LogItem.Label "sync") (Some 4) 0%nat). }
  split; [exact Hmono|]. split; [exact Hreach|].
  exact (reachable_durations_nonnegative clock 4 6 (fst st2) (snd st2) Hmono Hreach).
Defined.

(** X18. [log] does not finish the item it creates. The item is the last
    child, started at the reading [log] took, and it is open, with no
    duration. When the parent is open, a later [finish] of the parent ends
    the logged item, at a reading taken after the one of its start. *)
Theorem logged_item_stays_open
  (clock : nat -> Z) (LogLevel_Info : Z) (this : LogItem.t)
  (labelOrValues : LogItem.LabelOrValues) (logLevel : option Z) (tick : nat) :
  exists item,
    LogItem.log clock LogLevel_Info this labelOrValues logLevel tick
    = (LogItem.set_children this (Some (LogItem.childrenOf this ++ [item])), S tick)
    /\ LogItem._start item = clock tick
    /\ LogItem._end item = None
    /\ LogItem.duration item = None
    /\ (LogItem._end this = None ->
        exists finished k,
          LogItem.lastChild
            (fst (LogItem.finish clock
                    (fst (LogItem.log clock LogLevel_Info this labelOrValues logLevel tick))
                    (S tick)))
          = Some finished
          /\ (tick < k)%nat
          /\ LogItem._start finished = clock tick
          /\ LogItem._end finished = Some (clock k)).
Proof.
  destruct (child_shape clock LogLevel_Info this labelOrValues logLevel tick)
    as (item & Hchild & Hs & He & Hc & _).
  set (logged := LogItem.set_end_ item (Some (LogItem.start item))).
  assert (Hlog : LogItem.log clock LogLevel_Info this labelOrValues logLevel tick
                 = (LogItem.set_children this (Some (LogItem.childrenOf this ++ [logged])),
                    S tick)).
  { unfold LogItem.log. rewrite Hchild. cbv beta iota zeta. fold logged.
    now rewrite (replaceLast_snoc
                   (LogItem.set_children this (Some (LogItem.childrenOf this ++ [item])))
                   item logged (LogItem.childrenOf this) eq_refl). }
  exists logged. split; [exact Hlog|]. split; [exact Hs|]. split; [exact He|].
  split; [unfold LogItem.duration; cbn [logged LogItem.set_end_ LogItem._end]; now rewrite He|].
  intros Hopen. rewrite Hlog. cbn [fst]. rewrite finish_equation.
  cbn [LogItem.set_children LogItem._end LogItem._children]. rewrite Hopen.
  rewrite finishEach_app.
  pose proof (finishEach_tick_le clock (LogItem.childrenOf this) (S tick)) as Hle.
  destruct (LogItem.finishEach clock (LogItem.childrenOf this) (S tick)) as [cs' k].
  cbn [fst snd] in *. cbn [LogItem.finishEach]. rewrite finish_equation.
  cbn [logged LogItem.set_end_ LogItem._end LogItem._children LogItem._start
       LogItem._values LogItem.error LogItem.logLevel LogItem.end_].
  rewrite He, Hc. cbn [fst snd].
  eexists _, k. split; [apply (lastChild_snoc _ _ cs'); reflexivity|].
  split; [lia|]. split; [exact Hs|reflexivity].
Qed.

(** X19. [wrap] with a callback that works on the item it is given: the
    parent gets one more child, the last one, and keeps the children it had;
    the result is the callback's. When the callback returned or threw, the
    new child is finished; when it threw, the child holds the error and the
    level [Error]. For a pending promise the child is as the callback left
    it. *)
Theorem wrap_records_outcome
  (A : Type) (clock : nat -> Z) (LogLevel_Info LogLevel_Error : Z) (this : LogItem.t)
  (labelOrValues : LogItem.LabelOrValues)
  (callback : LogItem.t -> nat -> LogItem.Completion A * LogItem.t * nat)
  (logLevel : option Z) (tick : nat) :
  exists new result item tick',
    LogItem.child clock LogLevel_Info this labelOrValues logLevel tick
    = (new, LogItem.set_children this (Some (LogItem.childrenOf this ++ [new])), S tick)
    /\ LogItem.wrap clock LogLevel_Info LogLevel_Error this labelOrValues callback
                    logLevel tick
       = (result, LogItem.set_children this (Some (LogItem.childrenOf this ++ [item])),
          tick')
    /\ match result with
       | LogItem.Returned r =>
           exists left tick1,
             callback new (S tick) = (LogItem.Returned r, left, tick1)
             /\ LogItem.ended item = true
             /\ LogItem.error item = LogItem.error left
       | LogItem.Thrown err =>
           exists left tick1,
             callback new (S tick) = (LogItem.Thrown err, left, tick1)
             /\ LogItem.ended item = true
             /\ LogItem.error item = Some err
             /\ LogItem.logLevel item = Some LogLevel_Error
       | LogItem.Pending => callback new (S tick) = (LogItem.Pending, item, tick')
       end.
Proof.
  destruct (child_shape clock LogLevel_Info this labelOrValues logLevel tick)
    as (new & Hchild & _).
  pose proof (run_outcome clock LogLevel_Error new callback (S tick)) as Hrun.
  unfold LogItem.wrap. rewrite Hchild. cbv beta iota zeta.
  destruct (LogItem.run clock LogLevel_Error new callback (S tick))
    as [[result item] tick'].
  exists new, result, item, tick'. split; [reflexivity|]. split.
  - now rewrite (replaceLast_snoc
                   (LogItem.set_children this (Some (LogItem.childrenOf this ++ [new])))
                   new item (LogItem.childrenOf this) eq_refl).
  - destruct result as [r|err|].
    + destruct Hrun as (left & tick1 & H1 & H2 & H3 & _). exists left, tick1. auto.
    + destruct Hrun as (left & tick1 & H1 & H2 & H3 & H4). exists left, tick1. auto.
    + exact Hrun.
Qed.
